(** * torba: address managers and wallet database

    A shallow embedding of [torba/baseaccount.py] and [torba/basedatabase.py].

    The SQLite store is a record of four tables, each a list of rows in
    insertion (rowid) order.  A database call is a function from the store to
    an outcome and a new store; an exception leaves the store as the failing
    statement (or the rolled back interaction) left it.  Key derivation,
    scripts and the transaction builder belong to other modules and appear as
    fields of records or as variables of a section. *)

From Stdlib Require Import ZArith List String Ascii Bool Lia Permutation Sorted.
From Stdlib Require Import Init.Byte DecimalString.
Import ListNotations.
Local Open Scope string_scope.
Local Open Scope list_scope.
Local Open Scope Z_scope.

Set Implicit Arguments.

(** ** Python values used by both modules *)

Inductive exn :=
| AssertionError
| AttributeError
| IndexError
| IntegrityError
| KeyError
| OperationalError
| TypeError
| ValueError
| CollaboratorError (tag : string).

Inductive result (A : Type) :=
| Ok (a : A)
| Raise (e : exn).
Arguments Ok {A} a.
Arguments Raise {A} e.

Definition bytes := list byte.

Definition bytes_eqb (a b : bytes) : bool :=
  if list_eq_dec Byte.byte_eq_dec a b then true else false.

(** [range(a, b)] *)
Definition range (a b : Z) : list Z :=
  map (fun k => a + Z.of_nat k) (seq 0 (Z.to_nat (b - a))).

(** [s.count(':')] *)
Fixpoint count_colon (s : string) : Z :=
  match s with
  | EmptyString => 0
  | String c s' => (if Ascii.eqb c ":"%char then 1 else 0) + count_colon s'
  end.

(** [s.endswith(suffix)] *)
Definition endswith (s suffix : string) : bool :=
  (String.length suffix <=? String.length s)%nat &&
  String.eqb
    (substring (String.length s - String.length suffix) (String.length suffix) s)
    suffix.

(** [s[:-len(suffix)]], for a non-empty [suffix] *)
Definition strip (s suffix : string) : string :=
  substring 0 (String.length s - String.length suffix) s.

(** ** The store *)

Record pubkey_address_row := {
  pa_address : string;
  pa_account : string;
  pa_chain : Z;
  pa_position : Z;
  pa_pubkey : bytes;
  pa_history : option string;
  pa_used_times : Z
}.

Record tx_row := {
  tx_txid : string;
  tx_raw : bytes;
  tx_height : Z;
  tx_is_verified : bool
}.

Record txo_row := {
  txo_txid : string;
  txo_txoid : string;
  txo_address : string;
  txo_position : Z;
  txo_amount : Z;
  txo_script : bytes;
  txo_is_reserved : bool
}.

Record txi_row := {
  txi_txid : string;
  txi_txoid : string;
  txi_address : string
}.

Record DB := {
  pubkey_address : list pubkey_address_row;
  tx : list tx_row;
  txo : list txo_row;
  txi : list txi_row
}.

Definition empty_db : DB :=
  {| pubkey_address := []; tx := []; txo := []; txi := [] |}.

Definition with_pubkey_address (rows : list pubkey_address_row) (db : DB) : DB :=
  {| pubkey_address := rows; tx := tx db; txo := txo db; txi := txi db |}.

Definition with_tx (rows : list tx_row) (db : DB) : DB :=
  {| pubkey_address := pubkey_address db; tx := rows; txo := txo db; txi := txi db |}.

Definition with_txo (rows : list txo_row) (db : DB) : DB :=
  {| pubkey_address := pubkey_address db; tx := tx db; txo := rows; txi := txi db |}.

Definition with_txi (rows : list txi_row) (db : DB) : DB :=
  {| pubkey_address := pubkey_address db; tx := tx db; txo := txo db; txi := rows |}.

(** ** Database calls: state and exceptions *)

Definition M (A : Type) : Type := DB -> result A * DB.

Definition ret {A} (a : A) : M A := fun db => (Ok a, db).

Definition raise {A} (e : exn) : M A := fun db => (Raise e, db).

Definition bind {A B} (m : M A) (k : A -> M B) : M B :=
  fun db =>
    match m db with
    | (Ok a, db') => k a db'
    | (Raise e, db') => (Raise e, db')
    end.

Declare Scope db_scope.
Delimit Scope db_scope with db.
Notation "x <- m ;; k" := (bind m (fun x => k))
  (at level 100, m at next level, right associativity) : db_scope.
Notation "m ;;; k" := (bind m (fun _ => k))
  (at level 100, right associativity) : db_scope.
Local Open Scope db_scope.

(** [db.runInteraction(f)]: the statements of [f] commit together, and an
    exception inside [f] rolls all of them back before it propagates. *)
Definition runInteraction {A} (f : M A) : M A :=
  fun db =>
    match f db with
    | (Ok a, db') => (Ok a, db')
    | (Raise e, _) => (Raise e, db)
    end.

(** The ORDER BY clauses the callers pass. *)
Inductive order_by :=
| PositionAsc
| PositionDesc
| UsedTimesAscPositionAsc.

Definition row_le (o : order_by) (a b : pubkey_address_row) : bool :=
  match o with
  | PositionAsc => pa_position a <=? pa_position b
  | PositionDesc => pa_position b <=? pa_position a
  | UsedTimesAscPositionAsc =>
      (pa_used_times a <? pa_used_times b) ||
      ((pa_used_times a =? pa_used_times b) && (pa_position a <=? pa_position b))
  end.

Section Sort.
Variable A : Type.
Variable le : A -> A -> bool.

Fixpoint insert_by (x : A) (l : list A) : list A :=
  match l with
  | [] => [x]
  | y :: l' => if le x y then x :: l else y :: insert_by x l'
  end.

(** Stable: rows that compare equal keep their table order. *)
Fixpoint sort_by (l : list A) : list A :=
  match l with
  | [] => []
  | x :: l' => insert_by x (sort_by l')
  end.
End Sort.

(** [LIMIT n]; SQLite reads a negative limit as no limit. *)
Definition sql_limit {A} (limit : option Z) (l : list A) : list A :=
  match limit with
  | None => l
  | Some n => if n <? 0 then l else firstn (Z.to_nat n) l
  end.

Definition opt_test {A} (o : option A) (p : A -> bool) : bool :=
  match o with
  | None => true
  | Some a => p a
  end.

(** [BaseDatabase.get_addresses].  The dicts it returns hold the columns
    position, address and used_times (and account or chain when that filter
    is absent); the model returns the rows they are projected from. *)
Definition get_addresses (account : option string) (chain : option Z)
    (limit : option Z) (max_used_times : option Z) (order : option order_by)
    : M (list pubkey_address_row) :=
  fun db =>
    let rows :=
      filter (fun r =>
        opt_test account (fun a => String.eqb (pa_account r) a) &&
        opt_test chain (fun c => pa_chain r =? c) &&
        opt_test max_used_times (fun m => pa_used_times r <=? m))
        (pubkey_address db) in
    let rows :=
      match order with
      | None => rows
      | Some o => sort_by (row_le o) rows
      end in
    (Ok (sql_limit limit rows), db).

Record PubKey := {
  address : string;
  pubkey_bytes : bytes
}.

Definition has_address (a : string) (rows : list pubkey_address_row) : bool :=
  existsb (fun r => String.eqb (pa_address r) a) rows.

(** The row of one values-tuple of [add_keys]: history is NULL and
    used_times takes its default. *)
Definition key_row (account : string) (chain : Z) (key : Z * PubKey)
    : pubkey_address_row :=
  {| pa_address := address (snd key);
     pa_account := account;
     pa_chain := chain;
     pa_position := fst key;
     pa_pubkey := pubkey_bytes (snd key);
     pa_history := None;
     pa_used_times := 0 |}.

(** [address] is the primary key of the table. *)
Definition insert_key (account : string) (chain : Z) (key : Z * PubKey)
    (rows : list pubkey_address_row) : option (list pubkey_address_row) :=
  if has_address (address (snd key)) rows then None
  else Some (rows ++ [key_row account chain key]).

Fixpoint insert_keys (account : string) (chain : Z) (keys : list (Z * PubKey))
    (rows : list pubkey_address_row) : option (list pubkey_address_row) :=
  match keys with
  | [] => Some rows
  | key :: keys' =>
      match insert_key account chain key rows with
      | None => None
      | Some rows' => insert_keys account chain keys' rows'
      end
  end.

(** [BaseDatabase.add_keys]: one INSERT statement with a values-tuple per
    key.  With no key the statement ends after "values" and SQLite refuses
    it; a duplicate address fails the whole statement. *)
Definition add_keys (account : string) (chain : Z) (keys : list (Z * PubKey))
    : M unit :=
  fun db =>
    match keys with
    | [] => (Raise OperationalError, db)
    | _ =>
        match insert_keys account chain keys (pubkey_address db) with
        | None => (Raise IntegrityError, db)
        | Some rows => (Ok tt, with_pubkey_address rows db)
        end
    end.

(** The UPDATE of [_set_address_history] on one row. *)
Definition set_history (addr history : string) (r : pubkey_address_row)
    : pubkey_address_row :=
  if String.eqb (pa_address r) addr
  then {| pa_address := pa_address r;
          pa_account := pa_account r;
          pa_chain := pa_chain r;
          pa_position := pa_position r;
          pa_pubkey := pa_pubkey r;
          pa_history := Some history;
          pa_used_times := count_colon history / 2 |}
  else r.

(** [BaseDatabase._set_address_history]: runs inside an interaction. *)
Definition _set_address_history (addr history : string) : M unit :=
  fun db =>
    (Ok tt, with_pubkey_address (map (set_history addr history) (pubkey_address db)) db).

Definition set_address_history (addr history : string) : M unit :=
  runInteraction (_set_address_history addr history).

(** ** Address managers *)

(** [HierarchicalDeterministic]: [account] is the address of the account's
    master public key (the account column of the store), [child] is
    [self.public_key.child], the derivation of the chain's node. *)
Module HierarchicalDeterministic.

Record t := {
  account : string;
  chain_number : Z;
  child : Z -> PubKey;
  gap : Z;
  maximum_uses_per_address : Z
}.

Definition _query_addresses (self : t) (limit max_used_times : option Z)
    (order : option order_by) : M (list pubkey_address_row) :=
  get_addresses (Some (account self)) (Some (chain_number self))
    limit max_used_times order.

(** The list [new_keys] that [generate_keys] builds. *)
Definition new_keys (self : t) (start end_ : Z) : list (Z * PubKey) :=
  map (fun index => (index, child self index)) (range start (end_ + 1)).

Definition generate_keys (self : t) (start end_ : Z) : M (list string) :=
  add_keys (account self) (chain_number self) (new_keys self start end_) ;;;
  ret (map (fun key => address (snd key)) (new_keys self start end_)).

(** The loop of [get_max_gap]; the state is [(max_gap, current_gap)]. *)
Definition max_gap_step (st : Z * Z) (a : pubkey_address_row) : Z * Z :=
  if pa_used_times a =? 0
  then (fst st, snd st + 1)
  else (Z.max (fst st) (snd st), 0).

Definition get_max_gap (self : t) : M Z :=
  addresses <- _query_addresses self None None (Some PositionAsc) ;;
  ret (fst (fold_left max_gap_step addresses (0, 0))).

(** The loop of [ensure_address_gap], which leaves at the first used row. *)
Fixpoint existing_gap (addresses : list pubkey_address_row) : Z :=
  match addresses with
  | [] => 0
  | a :: rest => if pa_used_times a =? 0 then 1 + existing_gap rest else 0
  end.

Definition ensure_address_gap (self : t) : M (list string) :=
  addresses <- _query_addresses self (Some (gap self)) None (Some PositionDesc) ;;
  let existing := existing_gap addresses in
  if existing =? gap self then ret []
  else
    let start := match addresses with
                 | a :: _ => pa_position a + 1
                 | [] => 0
                 end in
    let end_ := start + (gap self - existing) in
    generate_keys self start (end_ - 1).

Definition get_address_records (self : t) (limit : option Z) (only_usable : bool)
    : M (list pubkey_address_row) :=
  _query_addresses self limit
    (if only_usable then Some (maximum_uses_per_address self) else None)
    (Some UsedTimesAscPositionAsc).

End HierarchicalDeterministic.

(** [SingleKey]: [from_dict] builds it as [cls(account, account.public_key, 0)],
    so the account column is the address of [public_key] and the chain is 0. *)
Module SingleKey.

Record t := {
  public_key : PubKey
}.

Definition account (self : t) : string := address (public_key self).
Definition chain_number (self : t) : Z := 0.

Definition _query_addresses (self : t) (limit max_used_times : option Z)
    (order : option order_by) : M (list pubkey_address_row) :=
  get_addresses (Some (account self)) (Some (chain_number self))
    limit max_used_times order.

Definition get_max_gap (self : t) : M Z := ret 0.

Definition get_address_records (self : t) (limit : option Z) (only_usable : bool)
    : M (list pubkey_address_row) :=
  _query_addresses self None None None.

Definition ensure_address_gap (self : t) : M (list string) :=
  exists_ <- get_address_records self None false ;;
  match exists_ with
  | [] =>
      add_keys (account self) (chain_number self) [(0, public_key self)] ;;;
      ret [address (public_key self)]
  | _ :: _ => ret []
  end.

End SingleKey.

Module AddressManager.

Inductive t :=
| Deterministic (m : HierarchicalDeterministic.t)
| Single (m : SingleKey.t).

Definition get_max_gap (self : t) : M Z :=
  match self with
  | Deterministic m => HierarchicalDeterministic.get_max_gap m
  | Single m => SingleKey.get_max_gap m
  end.

Definition ensure_address_gap (self : t) : M (list string) :=
  match self with
  | Deterministic m => HierarchicalDeterministic.ensure_address_gap m
  | Single m => SingleKey.ensure_address_gap m
  end.

Definition get_address_records (self : t) (limit : option Z) (only_usable : bool)
    : M (list pubkey_address_row) :=
  match self with
  | Deterministic m => HierarchicalDeterministic.get_address_records m limit only_usable
  | Single m => SingleKey.get_address_records m limit only_usable
  end.

Definition get_addresses (self : t) (limit : option Z) (only_usable : bool)
    : M (list string) :=
  records <- get_address_records self limit only_usable ;;
  ret (map pa_address records).

(** [addresses[0]] *)
Definition first_address (addresses : list string) : M string :=
  match addresses with
  | a :: _ => ret a
  | [] => raise IndexError
  end.

Definition get_or_create_usable_address (self : t) : M string :=
  addresses <- get_addresses self (Some 1) true ;;
  match addresses with
  | a :: _ => ret a
  | [] =>
      addresses <- ensure_address_gap self ;;
      first_address addresses
  end.

End AddressManager.

(** ** Transaction ingestion *)

(** What [save_transaction_io] reads of the ledger's transaction objects. *)
Record Script := {
  is_pay_pubkey_hash : bool;
  is_pay_script_hash : bool;
  pubkey_hash : bytes;
  source : bytes
}.

Record Output := {
  out_id : string;
  out_position : Z;
  out_amount : Z;
  out_script : Script
}.

Record Input := {
  txo_ref_id : string
}.

Record Transaction := {
  id : string;
  raw : bytes;
  outputs : list Output;
  inputs : list Input
}.

Fixpoint for_each {A} (l : list A) (body : A -> M unit) : M unit :=
  match l with
  | [] => ret tt
  | a :: l' => body a ;;; for_each l' body
  end.

Definition mem_Z (z : Z) (l : list Z) : bool := existsb (Z.eqb z) l.
Definition mem_string (s : string) (l : list string) : bool := existsb (String.eqb s) l.

(** [{r[0]: r[1] for r in rows}.get(key)]: the last row of a key wins. *)
Definition dict_get {V} (key : string) (rows : list (string * V)) : option V :=
  match find (fun kv => String.eqb (fst kv) key) (rev rows) with
  | Some kv => Some (snd kv)
  | None => None
  end.

(** [txo_to_row] *)
Definition txo_to_row (t : Transaction) (addr : string) (o : Output) : txo_row :=
  {| txo_txid := id t;
     txo_txoid := out_id o;
     txo_address := addr;
     txo_position := out_position o;
     txo_amount := out_amount o;
     txo_script := source (out_script o);
     txo_is_reserved := false |}.

(** INSERT INTO tx; [txid] is the primary key. *)
Definition insert_tx (row : tx_row) : M unit :=
  fun db =>
    if existsb (fun r => String.eqb (tx_txid r) (tx_txid row)) (tx db)
    then (Raise IntegrityError, db)
    else (Ok tt, with_tx (tx db ++ [row]) db).

(** UPDATE tx SET height = ?, is_verified = ? WHERE txid = ? *)
Definition update_tx (txid : string) (height : Z) (is_verified : bool) : M unit :=
  fun db =>
    (Ok tt,
     with_tx
       (map (fun r =>
          if String.eqb (tx_txid r) txid
          then {| tx_txid := tx_txid r; tx_raw := tx_raw r;
                  tx_height := height; tx_is_verified := is_verified |}
          else r) (tx db))
       db).

(** INSERT INTO txo; [txoid] is the primary key. *)
Definition insert_txo (row : txo_row) : M unit :=
  fun db =>
    if existsb (fun r => String.eqb (txo_txoid r) (txo_txoid row)) (txo db)
    then (Raise IntegrityError, db)
    else (Ok tt, with_txo (txo db ++ [row]) db).

(** INSERT INTO txi; the table has no key. *)
Definition insert_txi (row : txi_row) : M unit :=
  fun db => (Ok tt, with_txi (txi db ++ [row]) db).

Definition select_txo_positions (txid : string) : M (list Z) :=
  fun db =>
    (Ok (map txo_position
           (filter (fun r => String.eqb (txo_txid r) txid) (txo db))), db).

Definition select_txoid_address (txoids : list string) : M (list (string * string)) :=
  fun db =>
    (Ok (map (fun r => (txo_txoid r, txo_address r))
           (filter (fun r => mem_string (txo_txoid r) txoids) (txo db))), db).

Definition select_txi_txoids (txid : string) : M (list string) :=
  fun db =>
    (Ok (map txi_txoid
           (filter (fun r => String.eqb (txi_txid r) txid) (txi db))), db).

Definition option_string_eqb (o : option string) (s : string) : bool :=
  match o with
  | Some a => String.eqb a s
  | None => false
  end.

(** The first statement of [_steps]: insert the tx row, update it, or skip. *)
Definition save_tx_row (save_tx : string) (t : Transaction) (height : Z)
    (is_verified : bool) : M unit :=
  if String.eqb save_tx "insert" then
    insert_tx {| tx_txid := id t; tx_raw := raw t;
                 tx_height := height; tx_is_verified := is_verified |}
  else if String.eqb save_tx "update" then
    update_tx (id t) height is_verified
  else ret tt.

(** The body of [for txo in tx.outputs]. *)
Definition save_output (t : Transaction) (addr : string) (txhash : bytes)
    (existing_txos : list Z) (o : Output) : M unit :=
  if mem_Z (out_position o) existing_txos then ret tt
  else if is_pay_pubkey_hash (out_script o) &&
          bytes_eqb (pubkey_hash (out_script o)) txhash
  then insert_txo (txo_to_row t addr o)
  else if is_pay_script_hash (out_script o)
  then ret tt (* prints that script hash payments are not implemented *)
  else ret tt.

(** The body of [for txi in tx.inputs]. *)
Definition save_input (t : Transaction) (addr : string)
    (txoid_to_address : list (string * string)) (existing_txis : list string)
    (i : Input) : M unit :=
  let txoid := txo_ref_id i in
  let new_txi := negb (mem_string txoid existing_txis) in
  let address_matches := option_string_eqb (dict_get txoid txoid_to_address) addr in
  if new_txi && address_matches
  then insert_txi {| txi_txid := id t; txi_txoid := txoid; txi_address := addr |}
  else ret tt.

(** The body [_steps] of [save_transaction_io]. *)
Definition _steps (save_tx : string) (t : Transaction) (height : Z)
    (is_verified : bool) (addr : string) (txhash : bytes) (history : string)
    : M unit :=
  save_tx_row save_tx t height is_verified ;;;
  existing_txos <- select_txo_positions (id t) ;;
  for_each (outputs t) (save_output t addr txhash existing_txos) ;;;
  let txoids := map txo_ref_id (inputs t) in
  txoid_to_address <- select_txoid_address txoids ;;
  existing_txis <- select_txi_txoids (id t) ;;
  for_each (inputs t) (save_input t addr txoid_to_address existing_txis) ;;;
  _set_address_history addr history.

Definition save_transaction_io (save_tx : string) (t : Transaction) (height : Z)
    (is_verified : bool) (addr : string) (txhash : bytes) (history : string)
    : M unit :=
  runInteraction (_steps save_tx t height is_verified addr txhash history).

(** [reserve_outputs]: UPDATE txo SET is_reserved = ? WHERE txoid IN (...) *)
Definition reserve_outputs (txoids : list string) (is_reserved : bool) : M unit :=
  fun db =>
    (Ok tt,
     with_txo
       (map (fun r =>
          if mem_string (txo_txoid r) txoids
          then {| txo_txid := txo_txid r; txo_txoid := txo_txoid r;
                  txo_address := txo_address r; txo_position := txo_position r;
                  txo_amount := txo_amount r; txo_script := txo_script r;
                  txo_is_reserved := is_reserved |}
          else r) (txo db))
       db).

Definition release_outputs (txoids : list string) : M unit :=
  reserve_outputs txoids false.

(** ** The constraint compiler *)

(** Values of a constraints dict: numbers, strings and, under an [__any]
    key, a nested dict.  A dict is the list of its items in insertion order,
    with no key twice. *)
#[warnings="-register-all"]
Inductive value :=
| VInt (z : Z)
| VStr (s : string)
| VDict (d : list (string * value)).

Definition dict := list (string * value).

(** [d[key] = v]: an existing key keeps its place, a new key goes last. *)
Fixpoint dict_set (key : string) (v : value) (d : dict) : dict :=
  match d with
  | [] => [(key, v)]
  | (k, w) :: d' =>
      if String.eqb k key then (k, v) :: d' else (k, w) :: dict_set key v d'
  end.

(** [d.pop(key)] *)
Fixpoint dict_pop (key : string) (d : dict) : option (value * dict) :=
  match d with
  | [] => None
  | (k, w) :: d' =>
      if String.eqb k key then Some (w, d')
      else match dict_pop key d' with
           | Some (v, d'') => Some (v, (k, w) :: d'')
           | None => None
           end
  end.

Fixpoint depth (v : value) : nat :=
  match v with
  | VDict d =>
      S ((fix go (d : list (string * value)) : nat :=
            match d with
            | [] => O
            | (_, w) :: d' => Nat.max (depth w) (go d')
            end) d)
  | _ => O
  end.

Fixpoint dict_depth (d : dict) : nat :=
  match d with
  | [] => O
  | (_, w) :: d' => Nat.max (depth w) (dict_depth d')
  end.

(** ['{} {} :{}'.format(col, op, prepend_key+key)] *)
Definition fragment (col op prepend_key key : string) : string :=
  (col ++ " " ++ op ++ " :" ++ prepend_key ++ key)%string.

(** The chain of [if key.endswith(...)] tests: the column and the operator
    of a key, or [None] for an [__any] key, which takes the other path. *)
Definition column_operator (key : string) : option (string * string) :=
  if endswith key "__not" then Some (strip key "__not", "!=")
  else if endswith key "__lt" then Some (strip key "__lt", "<")
  else if endswith key "__lte" then Some (strip key "__lte", "<=")
  else if endswith key "__gt" then Some (strip key "__gt", ">")
  else if endswith key "__like" then Some (strip key "__like", "LIKE")
  else if endswith key "__any" then None
  else Some (key, "=").

Section ConstraintLoop.

(** The recursive call on the dict under an [__any] key; [None] stands for
    a recursion cut short by the fuel of [constraints_to_sql_fuel]. *)
Variable rec : dict -> string -> string -> string -> option (result (string * dict)).

Variable prepend_key : string.

(** The [for key in list(constraints)] loop: [keys] is the snapshot of the
    keys, [extras] and [constraints] are what the body mutates. *)
Fixpoint loop (keys : list string) (extras : list string) (constraints : dict)
    : option (result (list string * dict)) :=
  match keys with
  | [] => Some (Ok (extras, constraints))
  | key :: keys' =>
      match column_operator key with
      | Some (col, op) =>
          loop keys' (extras ++ [fragment col op prepend_key key]) constraints
      | None =>
          match dict_pop key constraints with
          | None => Some (Raise KeyError)
          | Some (VInt z, _) =>
              (* [not 0] returns '' and then [.items()] fails; [list(z)] fails *)
              Some (Raise (if z =? 0 then AttributeError else TypeError))
          | Some (VStr _, _) =>
              (* a string compiles as a list of one-letter keys or returns '';
                 [.items()] then fails *)
              Some (Raise AttributeError)
          | Some (VDict subconstraints, constraints1) =>
              match rec subconstraints " OR " "" (key ++ "_")%string with
              | None => None
              | Some (Raise e) => Some (Raise e)
              | Some (Ok (sql, subconstraints')) =>
                  loop keys' (extras ++ [("(" ++ sql ++ ")")%string])
                    (fold_left
                       (fun c kv => dict_set (key ++ "_" ++ fst kv)%string (snd kv) c)
                       subconstraints' constraints1)
              end
          end
      end
  end.

End ConstraintLoop.

(** [constraints_to_sql], with the string it returns and the dict it leaves
    behind in [constraints]. *)
Fixpoint constraints_to_sql_fuel (fuel : nat) (constraints : dict)
    (joiner prepend_sql prepend_key : string) : option (result (string * dict)) :=
  match fuel with
  | O => None
  | S fuel' =>
      match constraints with
      | [] => Some (Ok ("", constraints))
      | _ =>
          match loop (constraints_to_sql_fuel fuel') prepend_key
                  (map fst constraints) [] constraints with
          | None => None
          | Some (Raise e) => Some (Raise e)
          | Some (Ok (extras, constraints')) =>
              Some (Ok (match extras with
                        | [] => ""
                        | _ => (prepend_sql ++ String.concat joiner extras)%string
                        end, constraints'))
          end
      end
  end.

(** The call with the default joiner, prefix and key prefix.  Nesting bounds
    the recursion, [fuel_suffices] below shows the bound is enough. *)
Definition constraints_to_sql (constraints : dict) : option (result (string * dict)) :=
  constraints_to_sql_fuel (S (dict_depth constraints)) constraints " AND " " AND " "".

(** ** Funding *)

Record Account := {
  ledger : string;
  receiving : AddressManager.t;
  change : AddressManager.t
}.

(** A call into the ledger, the transaction builder or the network: it may
    change the store and may fail with an exception of its own, named by a
    tag. *)
Definition collaborator (A : Type) : Type := DB -> (string + A) * DB.

Definition call {A} (c : collaborator A) : M A :=
  fun db =>
    match c db with
    | (inr a, db') => (Ok a, db')
    | (inl tag, db') => (Raise (CollaboratorError tag), db')
    end.

Section Fund.

(** The ledger's transaction classes and helpers.  [get_unspent_outputs] is
    the account's query of its unspent outputs under the caller's
    constraints; the rows that SQL selects are not modelled. *)
Variables TxOutput TxInput Tx Utxo : Type.
Variable get_unspent_outputs : Account -> dict -> collaborator (list Utxo).
Variable ledger_reserve_outputs : list Utxo -> collaborator unit.
Variable ledger_release_outputs : Tx -> collaborator unit.
Variable ledger_broadcast : Tx -> collaborator unit.
Variable address_to_hash160 : string -> collaborator bytes.
Variable spend : Utxo -> TxInput.
Variable pay_pubkey_hash : Z -> bytes -> TxOutput.
Variable create :
  list TxInput -> list TxOutput -> list Account -> Account -> collaborator Tx.

(** [BaseAccount.fund], for an [amount] that is an int or [None]; Python 3
    refuses to order [None] and an int.  [amount // outputs] is evaluated
    once per element of [range(outputs)], so never with [outputs = 0]. *)
Definition fund (self to_account : Account) (amount : option Z)
    (everything : bool) (outputs : Z) (broadcast : bool) (constraints : dict)
    : M Tx :=
  if negb (String.eqb (ledger self) (ledger to_account)) then raise AssertionError
  else
    t <- (if everything then
            utxos <- call (get_unspent_outputs self constraints) ;;
            call (ledger_reserve_outputs utxos) ;;;
            call (create (map spend utxos) [] [self] to_account)
          else
            match amount with
            | None => raise TypeError (* [None > 0] *)
            | Some n =>
                if 0 <? n then
                  to_address <-
                    AddressManager.get_or_create_usable_address (change to_account) ;;
                  to_hash160 <- call (address_to_hash160 to_address) ;;
                  call (create []
                          (map (fun _ => pay_pubkey_hash (n / outputs) to_hash160)
                               (range 0 outputs))
                          [self] self)
                else raise ValueError
            end) ;;
    (if broadcast then call (ledger_broadcast t)
     else call (ledger_release_outputs t)) ;;;
    ret t.

End Fund.

(** ** Calls that write the store *)

Inductive db_call :=
| AddKeys (account : string) (chain : Z) (keys : list (Z * PubKey))
| SetAddressHistory (addr history : string)
| SaveTransactionIo (save_tx : string) (t : Transaction) (height : Z)
    (is_verified : bool) (addr : string) (txhash : bytes) (history : string)
| ReserveOutputs (txoids : list string) (is_reserved : bool)
| EnsureAddressGap (m : AddressManager.t)
| GetOrCreateUsableAddress (m : AddressManager.t).

Definition run_call (c : db_call) (db : DB) : DB :=
  match c with
  | AddKeys account chain keys => snd (add_keys account chain keys db)
  | SetAddressHistory addr history => snd (set_address_history addr history db)
  | SaveTransactionIo save_tx t height is_verified addr txhash history =>
      snd (save_transaction_io save_tx t height is_verified addr txhash history db)
  | ReserveOutputs txoids is_reserved => snd (reserve_outputs txoids is_reserved db)
  | EnsureAddressGap m => snd (AddressManager.ensure_address_gap m db)
  | GetOrCreateUsableAddress m => snd (AddressManager.get_or_create_usable_address m db)
  end.

Definition run_calls (calls : list db_call) (db : DB) : DB :=
  fold_left (fun d c => run_call c d) calls db.

(** ** A receiving chain and a single-address account to run the code on *)

Definition demo_child (index : Z) : PubKey :=
  {| address := ("addr" ++ DecimalString.NilZero.string_of_int (Z.to_int index))%string;
     pubkey_bytes := [] |}.

Definition demo_receiving : HierarchicalDeterministic.t :=
  {| HierarchicalDeterministic.account := "master";
     HierarchicalDeterministic.chain_number := 0;
     HierarchicalDeterministic.child := demo_child;
     HierarchicalDeterministic.gap := 20;
     HierarchicalDeterministic.maximum_uses_per_address := 2 |}.

Definition demo_single : SingleKey.t :=
  {| SingleKey.public_key := {| address := "master"; pubkey_bytes := [] |} |}.

(** The store after the first gap fill of [demo_receiving]. *)
Definition demo_db_filled : DB :=
  snd (HierarchicalDeterministic.ensure_address_gap demo_receiving empty_db).

(** ... and after the address at position 5 got a history of two entries. *)
Definition demo_db_used5 : DB :=
  snd (set_address_history "addr5" "a:1:b:2:" demo_db_filled).

(** ** Notions used in the statements *)

Definition unused (r : pubkey_address_row) : Prop := pa_used_times r = 0.

(** The spec's closed gap: a run of unused rows of the scanned list that a
    used row follows. *)
Definition closed_run (rows run : list pubkey_address_row) : Prop :=
  exists before u after,
    rows = before ++ run ++ u :: after /\ Forall unused run /\ ~ unused u.

Definition max_gap_of (rows : list pubkey_address_row) : Z :=
  fst (fold_left HierarchicalDeterministic.max_gap_step rows (0, 0)).

(** The rows of the chain of a deterministic manager, in table order. *)
Definition chain_rows (self : HierarchicalDeterministic.t) (db : DB)
    : list pubkey_address_row :=
  filter (fun r => String.eqb (pa_account r) (HierarchicalDeterministic.account self) &&
                   (pa_chain r =? HierarchicalDeterministic.chain_number self))
    (pubkey_address db).

(** A call that leaves the address table alone. *)
Definition keeps_addresses {A} (m : M A) : Prop :=
  forall db, pubkey_address (snd (m db)) = pubkey_address db.

Definition history_consistent (r : pubkey_address_row) : Prop :=
  match pa_history r with
  | Some history => pa_used_times r = count_colon history / 2
  | None => pa_used_times r = 0
  end.

(** The outputs the first loop stores: not yet stored, and paying to the
    hash of the address. *)
Definition stores_output (txhash : bytes) (existing : list Z) (o : Output) : bool :=
  negb (mem_Z (out_position o) existing) &&
  (is_pay_pubkey_hash (out_script o) && bytes_eqb (pubkey_hash (out_script o)) txhash).

(** The inputs the second loop links. *)
Definition links_input (addr : string) (to_address : list (string * string))
    (existing : list string) (i : Input) : bool :=
  negb (mem_string (txo_ref_id i) existing) &&
  option_string_eqb (dict_get (txo_ref_id i) to_address) addr.

(** The txi row of an input. *)
Definition input_row (t : Transaction) (addr : string) (i : Input) : txi_row :=
  {| txi_txid := id t; txi_txoid := txo_ref_id i; txi_address := addr |}.

Fixpoint distinct (l : list string) : bool :=
  match l with
  | [] => true
  | a :: l' => negb (mem_string a l') && distinct l'
  end.

(** The keys carry addresses that differ from each other and from every
    address of the table: the INSERT of [add_keys] meets no primary key. *)
Definition fresh_keys (keys : list (Z * PubKey)) (rows : list pubkey_address_row)
    : bool :=
  distinct (map (fun key => address (snd key)) keys) &&
  forallb (fun key => negb (has_address (address (snd key)) rows)) keys.

(** The rows a single-address manager reads: account of its key, chain 0. *)
Definition single_rows (m : SingleKey.t) (db : DB) : list pubkey_address_row :=
  filter (fun r => String.eqb (pa_account r) (SingleKey.account m) &&
                   (pa_chain r =? SingleKey.chain_number m))
    (pubkey_address db).

(** The row [ensure_address_gap] inserts for it. *)
Definition single_row (m : SingleKey.t) : pubkey_address_row :=
  key_row (SingleKey.account m) (SingleKey.chain_number m) (0, SingleKey.public_key m).

(** The keys [ensure_address_gap] inserts when no trailing row is unused. *)
Definition next_keys (m : AddressManager.t) (db : DB) : list (Z * PubKey) :=
  match m with
  | AddressManager.Deterministic h =>
      let start :=
        match sql_limit (Some (HierarchicalDeterministic.gap h))
                (sort_by (row_le PositionDesc) (chain_rows h db)) with
        | a :: _ => pa_position a + 1
        | [] => 0
        end in
      HierarchicalDeterministic.new_keys h start
        (start + HierarchicalDeterministic.gap h - 1)
  | AddressManager.Single s => [(0, SingleKey.public_key s)]
  end.

(** The configurations the gap discipline is meant for. *)
Definition well_configured (m : AddressManager.t) : Prop :=
  match m with
  | AddressManager.Deterministic h =>
      1 <= HierarchicalDeterministic.gap h /\
      0 <= HierarchicalDeterministic.maximum_uses_per_address h
  | AddressManager.Single _ => True
  end.

Definition account_of (m : AddressManager.t) : string :=
  match m with
  | AddressManager.Deterministic h => HierarchicalDeterministic.account h
  | AddressManager.Single s => SingleKey.account s
  end.

Definition chain_of (m : AddressManager.t) : Z :=
  match m with
  | AddressManager.Deterministic h => HierarchicalDeterministic.chain_number h
  | AddressManager.Single s => SingleKey.chain_number s
  end.

(** A deterministic manager for which no address is ever usable. *)
Definition demo_never_usable : HierarchicalDeterministic.t :=
  {| HierarchicalDeterministic.account := "master";
     HierarchicalDeterministic.chain_number := 0;
     HierarchicalDeterministic.child := demo_child;
     HierarchicalDeterministic.gap := 20;
     HierarchicalDeterministic.maximum_uses_per_address := -1 |}.

(** The number of leading positions other than [p]. *)
Fixpoint lead (p : Z) (positions : list Z) : Z :=
  match positions with
  | [] => 0
  | x :: rest => if x =? p then 0 else 1 + lead p rest
  end.

(** The six suffixes of the spec's table. *)
Definition recognized_suffix (key : string) : bool :=
  endswith key "__not" || endswith key "__lt" || endswith key "__lte" ||
  endswith key "__gt" || endswith key "__like" || endswith key "__any".

(** The spec's rejection: the compiler fails instead of returning SQL. *)
Definition rejects (constraints : dict) : Prop :=
  exists e, constraints_to_sql constraints = Some (Raise e).

(** The fragment of a key that is not an [__any] key. *)
Definition key_fragment (prepend_key key : string) : string :=
  match column_operator key with
  | Some (col, op) => fragment col op prepend_key key
  | None => ""
  end.

(** The exceptions the address managers let through come from the INSERT of
    [add_keys] and from [addresses[0]]. *)
Definition store_exn (e : exn) : Prop :=
  e = IndexError \/ e = IntegrityError \/ e = OperationalError.

(** A transaction with one output to the hash of "addr0" and one to a
    foreign hash. *)
Definition demo_tx : Transaction :=
  {| id := "tx1";
     raw := [x01; x02];
     outputs :=
       [ {| out_id := "tx1:0"; out_position := 0; out_amount := 1000;
            out_script := {| is_pay_pubkey_hash := true; is_pay_script_hash := false;
                             pubkey_hash := [xa0]; source := [x76; xa9] |} |};
         {| out_id := "tx1:1"; out_position := 1; out_amount := 5;
            out_script := {| is_pay_pubkey_hash := true; is_pay_script_hash := false;
                             pubkey_hash := [xb1]; source := [x76; xa9] |} |} ];
     inputs := [] |}.

(** The store after [demo_tx] was ingested for "addr0" with
    [save_tx = 'insert']. *)
Definition demo_db_ingested : DB :=
  snd (save_transaction_io "insert" demo_tx 7 true "addr0" [xa0] "tx1:7:" demo_db_filled).

(** The store after the address of [demo_single] was inserted and used
    four times. *)
Definition demo_db_single_used : DB :=
  snd (set_address_history "master" "a:1:b:2:c:3:d:4:"
         (snd (SingleKey.ensure_address_gap demo_single empty_db))).

(** ** Queries of the store *)

(** [get_transaction]: the first row of the txid, or the triple
    [(None, None, False)]. *)
Definition get_transaction (txid : string) : M (option bytes * option Z * bool) :=
  fun db =>
    match filter (fun r => String.eqb (tx_txid r) txid) (tx db) with
    | r :: _ => (Ok (Some (tx_raw r), Some (tx_height r), tx_is_verified r), db)
    | [] => (Ok (None, None, false), db)
    end.

(** [get_address]: [query_dict_value] returns the first row, with all seven
    columns, or its default [None]. *)
Definition get_address (addr : string) : M (option pubkey_address_row) :=
  fun db =>
    (Ok (hd_error (filter (fun r => String.eqb (pa_address r) addr) (pubkey_address db))),
     db).

(** [BaseAccount.get_address_records]: the rows of every chain of the
    account, in no stated order; [account] is the address of the account's
    public key. *)
Definition account_get_address_records (account : string) (limit max_used_times : option Z)
    : M (list pubkey_address_row) :=
  get_addresses (Some account) None limit max_used_times None.

(** [BaseAccount.get_addresses] *)
Definition account_get_addresses (account : string) (limit max_used_times : option Z)
    : M (list string) :=
  records <- account_get_address_records account limit max_used_times ;;
  ret (map pa_address records).

(** What [get_utxos_for_account] builds an output object from. *)
Record UnspentOutput := {
  u_amount : Z;
  u_script : bytes;
  u_txid : string;
  u_position : Z
}.

(** The rows of the SELECT of [get_utxos_for_account]: txo joined with
    pubkey_address on the address, of the account, not reserved and not
    referenced by a txi row.  [where_] stands for the rows the SQL compiled
    from the caller's constraints accepts. *)
Definition unspent_rows (account : string)
    (where_ : txo_row -> pubkey_address_row -> bool) (db : DB)
    : list (txo_row * pubkey_address_row) :=
  flat_map (fun o =>
    flat_map (fun a =>
      if String.eqb (pa_address a) (txo_address o) &&
         String.eqb (pa_account a) account &&
         negb (txo_is_reserved o) &&
         negb (mem_string (txo_txoid o) (map txi_txoid (txi db))) &&
         where_ o a
      then [(o, a)] else [])
      (pubkey_address db))
    (txo db).

Definition get_utxos_for_account (account : string)
    (where_ : txo_row -> pubkey_address_row -> bool) : M (list UnspentOutput) :=
  fun db =>
    (Ok (map (fun oa => {| u_amount := txo_amount (fst oa);
                           u_script := txo_script (fst oa);
                           u_txid := txo_txid (fst oa);
                           u_position := txo_position (fst oa) |})
           (unspent_rows account where_ db)), db).





(** The primary keys of the schema: address, txid and txoid. *)
Definition keys_unique (db : DB) : Prop :=
  NoDup (map pa_address (pubkey_address db)) /\
  NoDup (map tx_txid (tx db)) /\
  NoDup (map txo_txoid (txo db)).

(** A call keeps a property of the store, whether it returns or raises. *)
Definition keeps {A} (I : DB -> Prop) (m : M A) : Prop :=
  forall db, I db -> I (snd (m db)).

(** A transaction that spends the output "tx1:0" of [demo_tx], and the
    store after it was ingested for "addr0". *)
Definition demo_spend_tx : Transaction :=
  {| id := "tx2";
     raw := [x03];
     outputs := [];
     inputs := [ {| txo_ref_id := "tx1:0" |}; {| txo_ref_id := "other:3" |} ] |}.

Definition demo_db_spent : DB :=
  snd (save_transaction_io "insert" demo_spend_tx 9 false "addr0" [xa0] "tx1:7:tx2:9:"
         demo_db_ingested).



(** ** Building an account and filling its gaps *)

(** The account's public key with the keys derived from it:
    [ak_child chain index] is [public_key.child(chain).child(index)]. *)
Record AccountKey := {
  ak_public_key : PubKey;
  ak_child : Z -> Z -> PubKey
}.

(** The [address_generator] dict of an account: the generator's name and the
    keyword arguments of the two chains, each a dict of ints, where the key
    is present. *)
Record generator_dict := {
  g_name : option string;
  g_receiving : option (list (string * Z));
  g_change : option (list (string * Z))
}.

(** [HierarchicalDeterministic(account, chain, **kwargs)]: Python refuses a
    keyword that is not a parameter, and a missing one, with TypeError. *)
Definition hd_new (key : AccountKey) (chain : Z) (kwargs : list (string * Z))
    : result HierarchicalDeterministic.t :=
  if forallb (fun kv => String.eqb (fst kv) "gap" ||
                        String.eqb (fst kv) "maximum_uses_per_address") kwargs
  then
    match dict_get "gap" kwargs, dict_get "maximum_uses_per_address" kwargs with
    | Some g, Some uses =>
        Ok {| HierarchicalDeterministic.account := address (ak_public_key key);
              HierarchicalDeterministic.chain_number := chain;
              HierarchicalDeterministic.child := ak_child key chain;
              HierarchicalDeterministic.gap := g;
              HierarchicalDeterministic.maximum_uses_per_address := uses |}
    | _, _ => Raise TypeError
    end
  else Raise TypeError.

Definition or_default {A} (o : option A) (default : A) : A :=
  match o with
  | Some a => a
  | None => default
  end.

(** [HierarchicalDeterministic.from_dict] *)
Definition hd_from_dict (key : AccountKey) (d : generator_dict)
    : result (AddressManager.t * AddressManager.t) :=
  match hd_new key 0 (or_default (g_receiving d)
                        [("gap", 20); ("maximum_uses_per_address", 2)]) with
  | Raise e => Raise e
  | Ok r =>
      match hd_new key 1 (or_default (g_change d)
                            [("gap", 6); ("maximum_uses_per_address", 2)]) with
      | Raise e => Raise e
      | Ok c => Ok (AddressManager.Deterministic r, AddressManager.Deterministic c)
      end
  end.

(** [SingleKey.from_dict]: one manager, returned twice. *)
Definition single_from_dict (key : AccountKey) (d : generator_dict)
    : result (AddressManager.t * AddressManager.t) :=
  let same_address_manager :=
    AddressManager.Single {| SingleKey.public_key := ak_public_key key |} in
  Ok (same_address_manager, same_address_manager).

(** The part of [BaseAccount.__init__] that picks the generator class by its
    name in [address_generators] and builds the two managers; the
    registrations with the ledger and the wallet are not modelled. *)
Definition new_account (ledger_id : string) (key : AccountKey) (d : generator_dict)
    : result Account :=
  let generator_name := or_default (g_name d) "deterministic-chain" in
  let managers :=
    if String.eqb generator_name "single-address" then single_from_dict key d
    else if String.eqb generator_name "deterministic-chain" then hd_from_dict key d
    else Raise KeyError in
  match managers with
  | Raise e => Raise e
  | Ok (r, c) => Ok {| ledger := ledger_id; receiving := r; change := c |}
  end.

(** [to_dict_instance] of the two variants; [None] for the single one. *)
Definition to_dict_instance (m : AddressManager.t) : option (list (string * Z)) :=
  match m with
  | AddressManager.Deterministic h =>
      Some [("gap", HierarchicalDeterministic.gap h);
            ("maximum_uses_per_address",
             HierarchicalDeterministic.maximum_uses_per_address h)]
  | AddressManager.Single _ => None
  end.

(** The name of [self.address_generator], the class both managers were
    built from. *)
Definition generator_name (self : Account) : string :=
  match receiving self with
  | AddressManager.Deterministic _ => "deterministic-chain"
  | AddressManager.Single _ => "single-address"
  end.

(** [AddressManager.to_dict], as [BaseAccount.to_dict] calls it: a chain is
    written when its dict is not empty. *)
Definition address_generator_to_dict (self : Account) : generator_dict :=
  let written (o : option (list (string * Z))) :=
    match o with
    | Some (kv :: rest) => Some (kv :: rest)
    | _ => None
    end in
  {| g_name := Some (generator_name self);
     g_receiving := written (to_dict_instance (receiving self));
     g_change := written (to_dict_instance (change self)) |}.

(** [self.address_managers = {self.receiving, self.change}] is a set of
    objects: one object for the single-address generator, two for the
    deterministic one, iterated in an order Python does not state.
    [iteration self managers]: [managers] is one of these orders. *)
Definition iteration (self : Account) (managers : list AddressManager.t) : Prop :=
  match receiving self, change self with
  | AddressManager.Single s, AddressManager.Single _ =>
      managers = [AddressManager.Single s]
  | r, c => managers = [r; c] \/ managers = [c; r]
  end.

(** The loop of [BaseAccount.ensure_address_gap] over the managers in the
    order they are iterated. *)
Fixpoint ensure_address_gap_loop (managers : list AddressManager.t)
    (addresses : list string) : M (list string) :=
  match managers with
  | [] => ret addresses
  | address_manager :: rest =>
      new_addresses <- AddressManager.ensure_address_gap address_manager ;;
      ensure_address_gap_loop rest (addresses ++ new_addresses)
  end.

Definition account_ensure_address_gap (managers : list AddressManager.t)
    : M (list string) :=
  ensure_address_gap_loop managers [].

(** An account key to run the code on: the children of chain 0 are those of
    [demo_receiving]. *)
Definition demo_key : AccountKey :=
  {| ak_public_key := {| address := "master"; pubkey_bytes := [] |};
     ak_child := fun chain index =>
       if chain =? 0 then demo_child index
       else {| address := ("change" ++
                           DecimalString.NilZero.string_of_int (Z.to_int index))%string;
               pubkey_bytes := [] |} |}.

(** ** The secrets of an account *)

Section Encryption.

(** The key class and the cipher of torba.bip32 and torba.hash; their calls
    may raise. *)
Variable PrivateKey : Type.
Variable double_sha256 : string -> bytes.
Variable extended_key_string : PrivateKey -> result string.
Variable from_extended_key_string : string -> string -> result PrivateKey.
Variable private_child : PrivateKey -> Z -> result PrivateKey.

(** [self.private_key] holds a key object, or a string: the ciphertext of an
    encrypted account, or [''] for an account built from a public key. *)
Inductive attribute :=
| Text (s : string)
| Key (k : PrivateKey).

Variable aes_encrypt : bytes -> string -> result string.
Variable aes_decrypt : bytes -> attribute -> result string.

(** The attributes of an account that [encrypt] and [decrypt] assign. *)
Record secrets := {
  seed : string;
  encrypted : bool;
  private_key : attribute
}.

(** [BaseAccount.encrypt]: the seed is assigned before the private key is
    looked at. *)
Definition encrypt (password : string) (self : secrets) : result unit * secrets :=
  if encrypted self then (Raise AssertionError, self)
  else
    let secret := double_sha256 password in
    match aes_encrypt secret (seed self) with
    | Raise e => (Raise e, self)
    | Ok seed' =>
        let self1 := {| seed := seed';
                        encrypted := encrypted self;
                        private_key := private_key self |} in
        match private_key self with
        | Text _ => (Raise AttributeError, self1) (* a str has no [extended_key_string] *)
        | Key k =>
            match extended_key_string k with
            | Raise e => (Raise e, self1)
            | Ok s =>
                match aes_encrypt secret s with
                | Raise e => (Raise e, self1)
                | Ok c =>
                    (Ok tt, {| seed := seed'; encrypted := true; private_key := Text c |})
                end
            end
        end
    end.

(** [BaseAccount.decrypt], on the account of the ledger [ledger_id]. *)
Definition decrypt (ledger_id password : string) (self : secrets)
    : result unit * secrets :=
  if negb (encrypted self) then (Raise AssertionError, self)
  else
    let secret := double_sha256 password in
    match aes_decrypt secret (Text (seed self)) with
    | Raise e => (Raise e, self)
    | Ok seed' =>
        let self1 := {| seed := seed';
                        encrypted := encrypted self;
                        private_key := private_key self |} in
        match aes_decrypt secret (private_key self) with
        | Raise e => (Raise e, self1)
        | Ok s =>
            match from_extended_key_string ledger_id s with
            | Raise e => (Raise e, self1)
            | Ok k =>
                (Ok tt, {| seed := seed'; encrypted := false; private_key := Key k |})
            end
        end
    end.

(** [BaseAccount.get_private_key], with [get_private_key] of the two
    managers: the deterministic one derives
    [private_key.child(chain_number).child(index)], the single one returns
    the attribute as it is. *)
Definition account_get_private_key (account : Account) (self : secrets)
    (chain index : Z) : result attribute :=
  if encrypted self then Raise AssertionError
  else
    match (if chain =? 0 then Some (receiving account)
           else if chain =? 1 then Some (change account)
           else None) with
    | None => Raise KeyError
    | Some (AddressManager.Single _) => Ok (private_key self)
    | Some (AddressManager.Deterministic h) =>
        match private_key self with
        | Text _ => Raise AttributeError (* a str has no [child] *)
        | Key k =>
            match private_child k (HierarchicalDeterministic.chain_number h) with
            | Raise e => Raise e
            | Ok chain_key =>
                match private_child chain_key index with
                | Raise e => Raise e
                | Ok key => Ok (Key key)
                end
            end
        end
    end.

End Encryption.

(** A cipher to run the code on: a letter in front of the text. *)
Definition demo_encrypt (secret : bytes) (s : string) : result string :=
  Ok (String "e" s).

Definition demo_decrypt (secret : bytes) (v : attribute string) : result string :=
  match v with
  | Text _ (String _ s) => Ok s
  | _ => Raise ValueError
  end.

(** * Properties *)

Unset Implicit Arguments.

Local Abbreviation length := List.length (only parsing).

(** ** Sorting *)

Section SortFacts.
Variable A : Type.
Variable le : A -> A -> bool.

Lemma insert_by_perm (x : A) (l : list A) :
  Permutation (insert_by le x l) (x :: l).
Proof.
  induction l as [|y l IH]; simpl.
  - apply Permutation_refl.
  - destruct (le x y).
    + apply Permutation_refl.
    + apply Permutation_trans with (y :: x :: l).
      * now apply perm_skip.
      * apply perm_swap.
Qed.

Lemma sort_by_perm (l : list A) : Permutation (sort_by le l) l.
Proof.
  induction l as [|x l IH]; simpl.
  - constructor.
  - apply Permutation_trans with (x :: sort_by le l).
    + apply insert_by_perm.
    + now apply perm_skip.
Qed.

Lemma sort_by_length (l : list A) : length (sort_by le l) = length l.
Proof. apply Permutation_length, sort_by_perm. Qed.

Lemma sort_by_Forall (P : A -> Prop) (l : list A) :
  Forall P l -> Forall P (sort_by le l).
Proof.
  intros H. eapply Permutation_Forall; [|exact H].
  apply Permutation_sym, sort_by_perm.
Qed.

Hypothesis le_total : forall a b, le a b = true \/ le b a = true.
Hypothesis le_trans : forall a b c, le a b = true -> le b c = true -> le a c = true.

Lemma insert_by_sorted (x : A) (l : list A) :
  StronglySorted (fun a b => le a b = true) l ->
  StronglySorted (fun a b => le a b = true) (insert_by le x l).
Proof.
  induction 1 as [|y l Hs IH Hy]; simpl.
  - repeat constructor.
  - destruct (le x y) eqn:E.
    + constructor; [now constructor|].
      constructor; [exact E|].
      eapply Forall_impl; [|exact Hy]. intros b Hb. now apply le_trans with y.
    + constructor; [exact IH|].
      eapply Permutation_Forall; [apply Permutation_sym, insert_by_perm|].
      constructor; [|exact Hy].
      destruct (le_total x y) as [H|H]; [congruence|exact H].
Qed.

Lemma sort_by_sorted (l : list A) :
  StronglySorted (fun a b => le a b = true) (sort_by le l).
Proof.
  induction l as [|x l IH]; simpl.
  - constructor.
  - now apply insert_by_sorted.
Qed.
End SortFacts.

Lemma StronglySorted_weaken (A : Type) (R S : A -> A -> Prop) (l : list A) :
  (forall a b, R a b -> S a b) -> StronglySorted R l -> StronglySorted S l.
Proof.
  intros HRS. induction 1 as [|a l Hs IH Ha]; constructor.
  - exact IH.
  - eapply Forall_impl; [|exact Ha]. intros b. apply HRS.
Qed.

Lemma row_le_total (o : order_by) (a b : pubkey_address_row) :
  row_le o a b = true \/ row_le o b a = true.
Proof.
  destruct o; simpl;
    rewrite ?orb_true_iff, ?andb_true_iff, ?Z.leb_le, ?Z.ltb_lt, ?Z.eqb_eq; lia.
Qed.

Lemma row_le_trans (o : order_by) (a b c : pubkey_address_row) :
  row_le o a b = true -> row_le o b c = true -> row_le o a c = true.
Proof.
  destruct o; simpl;
    rewrite ?orb_true_iff, ?andb_true_iff, ?Z.leb_le, ?Z.ltb_lt, ?Z.eqb_eq; lia.
Qed.

(** ** The scan of [get_max_gap] *)

Lemma scan_step_unused (a : pubkey_address_row) (st : Z * Z) :
  unused a ->
  HierarchicalDeterministic.max_gap_step st a = (fst st, snd st + 1).
Proof.
  unfold unused, HierarchicalDeterministic.max_gap_step. now intros ->.
Qed.

Lemma scan_unused (run : list pubkey_address_row) (st : Z * Z) :
  Forall unused run ->
  fold_left HierarchicalDeterministic.max_gap_step run st
  = (fst st, snd st + Z.of_nat (length run)).
Proof.
  intros H. revert st. induction H as [|a run Ha _ IH]; intros [m c].
  - simpl. f_equal. lia.
  - cbn [fold_left]. rewrite scan_step_unused by exact Ha. rewrite IH.
    cbn [fst snd]. f_equal. simpl List.length. lia.
Qed.

Lemma scan_used (u : pubkey_address_row) (st : Z * Z) :
  ~ unused u ->
  HierarchicalDeterministic.max_gap_step st u = (Z.max (fst st) (snd st), 0).
Proof.
  unfold unused, HierarchicalDeterministic.max_gap_step. intros H.
  destruct (Z.eqb_spec (pa_used_times u) 0); [contradiction|reflexivity].
Qed.

Lemma scan_grows (rows : list pubkey_address_row) (st : Z * Z) :
  0 <= snd st ->
  fst st <= fst (fold_left HierarchicalDeterministic.max_gap_step rows st) /\
  0 <= snd (fold_left HierarchicalDeterministic.max_gap_step rows st).
Proof.
  revert st. induction rows as [|a rows IH]; intros [m c] Hc; cbn [fold_left fst snd] in *.
  - lia.
  - unfold HierarchicalDeterministic.max_gap_step at 2 4.
    destruct (pa_used_times a =? 0); cbn [fst snd].
    + destruct (IH (m, c + 1)) as [H1 H2]; cbn [fst snd] in *; lia.
    + destruct (IH (Z.max m c, 0)) as [H1 H2]; cbn [fst snd] in *; lia.
Qed.

Lemma unused_dec (r : pubkey_address_row) : {unused r} + {~ unused r}.
Proof. unfold unused. apply Z.eq_dec. Qed.

(** After any prefix the counter is the length of the unused run that ends
    the prefix, and the maximum is 0 or the length of a closed run. *)
Lemma scan_state (rows : list pubkey_address_row) :
  let st := fold_left HierarchicalDeterministic.max_gap_step rows (0, 0) in
  (exists before run, rows = before ++ run /\ Forall unused run /\
                      snd st = Z.of_nat (length run)) /\
  (fst st = 0 \/ exists run, closed_run rows run /\ Z.of_nat (length run) = fst st).
Proof.
  induction rows as [|a rows IH] using rev_ind; cbn zeta.
  - split.
    + exists [], []. repeat split; constructor.
    + now left.
  - cbn zeta in IH. rewrite fold_left_app. cbn [fold_left].
    destruct IH as [(before & run & Erows & Hrun & Hc) Hm].
    destruct (unused_dec a) as [Ha|Ha].
    + rewrite scan_step_unused by exact Ha. cbn [fst snd]. split.
      * exists before, (run ++ [a]). split; [|split].
        -- now rewrite Erows, app_assoc.
        -- apply Forall_app. split; [exact Hrun|]. now constructor.
        -- rewrite length_app, Nat2Z.inj_add, <- Hc. reflexivity.
      * destruct Hm as [Hm|(r & (b & u & af & E & Hr & Hu) & Hlen)]; [now left|].
        right. exists r. split; [|exact Hlen].
        exists b, u, (af ++ [a]). rewrite E. repeat split; try assumption.
        now rewrite <- !app_assoc.
    + rewrite scan_used by exact Ha. cbn [fst snd]. split.
      * exists (rows ++ [a]), []. rewrite app_nil_r. repeat split. constructor.
      * destruct (Z.max_spec (fst (fold_left HierarchicalDeterministic.max_gap_step rows (0, 0)))
                    (snd (fold_left HierarchicalDeterministic.max_gap_step rows (0, 0))))
          as [[_ E]|[_ E]]; rewrite E.
        -- right. exists run. split; [|now rewrite Hc].
           exists before, a, []. rewrite Erows, <- app_assoc. now repeat split.
        -- destruct Hm as [Hm|(r & (b & u & af & E' & Hr & Hu) & Hlen)]; [now left|].
           right. exists r. split; [|exact Hlen].
           exists b, u, (af ++ [a]). rewrite E'. repeat split; try assumption.
           now rewrite <- !app_assoc.
Qed.

Lemma max_gap_of_bounds (rows run : list pubkey_address_row) :
  closed_run rows run -> Z.of_nat (length run) <= max_gap_of rows.
Proof.
  intros (before & u & after & -> & Hrun & Hu). unfold max_gap_of.
  rewrite fold_left_app, fold_left_app. cbn [fold_left].
  destruct (scan_grows before (0, 0)) as [_ Hc]; [cbn; lia|].
  rewrite (scan_unused _ _ Hrun), (scan_used _ _ Hu).
  cbn [fst snd].
  match goal with |- _ <= fst (fold_left _ after ?st) =>
    destruct (scan_grows after st) as [H _]; [cbn; lia|]; cbn [fst snd] in H end.
  lia.
Qed.

Lemma max_gap_of_trailing (body tail : list pubkey_address_row) :
  Forall unused tail -> max_gap_of (body ++ tail) = max_gap_of body.
Proof.
  intros H. unfold max_gap_of. rewrite fold_left_app, scan_unused by exact H.
  reflexivity.
Qed.

Lemma max_gap_of_single_used (run tail : list pubkey_address_row) (u : pubkey_address_row) :
  Forall unused run -> ~ unused u -> Forall unused tail ->
  max_gap_of (run ++ u :: tail) = Z.of_nat (length run).
Proof.
  intros Hrun Hu Htail.
  change (run ++ u :: tail) with (run ++ [u] ++ tail).
  rewrite app_assoc, max_gap_of_trailing by exact Htail.
  unfold max_gap_of. rewrite fold_left_app, (scan_unused _ _ Hrun).
  cbn [fold_left]. rewrite (scan_used _ _ Hu). cbn [fst snd]. lia.
Qed.

Lemma query_chain (self : HierarchicalDeterministic.t) (limit : option Z)
    (order : option order_by) (db : DB) :
  HierarchicalDeterministic._query_addresses self limit None order db
  = (Ok (sql_limit limit
           match order with
           | None => chain_rows self db
           | Some o => sort_by (row_le o) (chain_rows self db)
           end), db).
Proof.
  unfold HierarchicalDeterministic._query_addresses, get_addresses, chain_rows.
  cbn [opt_test].
  replace (filter _ (pubkey_address db))
    with (filter (fun r => String.eqb (pa_account r) (HierarchicalDeterministic.account self) &&
                           (pa_chain r =? HierarchicalDeterministic.chain_number self))
            (pubkey_address db)); [reflexivity|].
  apply filter_ext. intros r. now rewrite andb_true_r.
Qed.

(** C4: [get_max_gap] scans the rows of the chain by ascending position and
    returns the length of the longest run of unused rows that a used row
    closes (0 when there is none); unused rows at the end of the scan never
    count, and on the chain with positions 0..19 where only position 5 is
    used the result is 5. *)
Theorem get_max_gap_longest_closed_run :
  (forall (self : HierarchicalDeterministic.t) (db : DB),
     exists rows g,
       HierarchicalDeterministic._query_addresses self None None (Some PositionAsc) db
       = (Ok rows, db) /\
       Permutation rows (chain_rows self db) /\
       StronglySorted (fun a b => pa_position a <= pa_position b) rows /\
       HierarchicalDeterministic.get_max_gap self db = (Ok g, db) /\
       (forall run, closed_run rows run -> Z.of_nat (length run) <= g) /\
       (g = 0 \/ exists run, closed_run rows run /\ Z.of_nat (length run) = g) /\
       (forall body tail,
          rows = body ++ tail -> Forall unused tail -> g = max_gap_of body) /\
       (forall run u tail,
          rows = run ++ u :: tail ->
          Forall unused run -> ~ unused u -> Forall unused tail ->
          g = Z.of_nat (length run))) /\
  HierarchicalDeterministic.get_max_gap demo_receiving demo_db_used5
  = (Ok 5, demo_db_used5).
Proof.
  split; [|reflexivity].
  intros self db.
  exists (sort_by (row_le PositionAsc) (chain_rows self db)).
  exists (max_gap_of (sort_by (row_le PositionAsc) (chain_rows self db))).
  split; [apply query_chain|].
  split; [apply sort_by_perm|].
  split.
  { apply StronglySorted_weaken with (R := fun a b => row_le PositionAsc a b = true).
    - intros a b. apply Z.leb_le.
    - apply sort_by_sorted; [apply row_le_total|apply row_le_trans]. }
  split.
  { unfold HierarchicalDeterministic.get_max_gap, bind.
    rewrite query_chain. reflexivity. }
  split; [intros run; apply max_gap_of_bounds|].
  split; [apply (scan_state (sort_by (row_le PositionAsc) (chain_rows self db)))|].
  split.
  - intros body tail -> Htail. now apply max_gap_of_trailing.
  - intros run u tail -> Hrun Hu Htail. now apply max_gap_of_single_used.
Qed.

Lemma get_max_gap_longest_closed_run_witness :
  exists g,
    HierarchicalDeterministic.get_max_gap demo_receiving demo_db_used5
    = (Ok g, demo_db_used5) /\ g = 5.
Proof.
  destruct (proj1 get_max_gap_longest_closed_run demo_receiving demo_db_used5)
    as (rows & g & Hq & _ & _ & Hg & _ & _ & _ & Hone).
  exists g. split; [exact Hg|].
  vm_compute in Hq. injection Hq as Hrows. subst rows.
  apply (Hone [_; _; _; _; _] _ _ eq_refl).
  - repeat constructor.
  - unfold unused. simpl. discriminate.
  - repeat constructor.
Defined.

(** ** Reasoning about database calls *)

Lemma bind_ok_inv {A B} (m : M A) (k : A -> M B) (db db' : DB) (b : B) :
  bind m k db = (Ok b, db') ->
  exists a db1, m db = (Ok a, db1) /\ k a db1 = (Ok b, db').
Proof.
  unfold bind. destruct (m db) as [[a|e] db1]; intros H.
  - now exists a, db1.
  - discriminate.
Qed.

Lemma bind_ok {A B} (m : M A) (k : A -> M B) (db db1 : DB) (a : A) :
  m db = (Ok a, db1) -> bind m k db = k a db1.
Proof. unfold bind. now intros ->. Qed.

Lemma bind_raise {A B} (m : M A) (k : A -> M B) (db db1 : DB) (e : exn) :
  m db = (Raise e, db1) -> bind m k db = (Raise e, db1).
Proof. unfold bind. now intros ->. Qed.

Ltac bind_inv H :=
  let a := fresh "a" in
  let d := fresh "db" in
  let E := fresh "E" in
  apply bind_ok_inv in H; destruct H as (a & d & E & H).

Lemma keeps_ret {A} (a : A) : keeps_addresses (ret a).
Proof. now intros db. Qed.

Lemma keeps_raise {A} (e : exn) : keeps_addresses (@raise A e).
Proof. now intros db. Qed.

Lemma keeps_bind {A B} (m : M A) (k : A -> M B) :
  keeps_addresses m -> (forall a, keeps_addresses (k a)) -> keeps_addresses (bind m k).
Proof.
  intros Hm Hk db. unfold bind. specialize (Hm db).
  destruct (m db) as [[a|e] db1]; cbn [snd] in *.
  - now rewrite Hk.
  - exact Hm.
Qed.

Lemma keeps_for_each {A} (l : list A) (body : A -> M unit) :
  (forall a, keeps_addresses (body a)) -> keeps_addresses (for_each l body).
Proof.
  intros Hb. induction l as [|a l IH]; cbn [for_each].
  - apply keeps_ret.
  - apply keeps_bind; [apply Hb|]. intros _. exact IH.
Qed.

Lemma keeps_if {A} (b : bool) (m1 m2 : M A) :
  keeps_addresses m1 -> keeps_addresses m2 -> keeps_addresses (if b then m1 else m2).
Proof. now destruct b. Qed.

Lemma keeps_insert_tx (row : tx_row) : keeps_addresses (insert_tx row).
Proof. intros db. unfold insert_tx. now destruct (existsb _ _). Qed.

Lemma keeps_update_tx (txid : string) (height : Z) (v : bool) :
  keeps_addresses (update_tx txid height v).
Proof. now intros db. Qed.

Lemma keeps_insert_txo (row : txo_row) : keeps_addresses (insert_txo row).
Proof. intros db. unfold insert_txo. now destruct (existsb _ _). Qed.

Lemma keeps_insert_txi (row : txi_row) : keeps_addresses (insert_txi row).
Proof. now intros db. Qed.

Lemma keeps_reserve_outputs (txoids : list string) (flag : bool) :
  keeps_addresses (reserve_outputs txoids flag).
Proof. now intros db. Qed.

Lemma keeps_save_tx_row (save_tx : string) (t : Transaction) (height : Z) (v : bool) :
  keeps_addresses (save_tx_row save_tx t height v).
Proof.
  unfold save_tx_row.
  repeat apply keeps_if; auto using keeps_insert_tx, keeps_update_tx, keeps_ret.
Qed.

Lemma keeps_save_output (t : Transaction) (addr : string) (txhash : bytes)
    (existing : list Z) (o : Output) :
  keeps_addresses (save_output t addr txhash existing o).
Proof.
  unfold save_output.
  repeat apply keeps_if; auto using keeps_insert_txo, keeps_ret.
Qed.

Lemma keeps_save_input (t : Transaction) (addr : string)
    (to_address : list (string * string)) (existing : list string) (i : Input) :
  keeps_addresses (save_input t addr to_address existing i).
Proof.
  unfold save_input. cbn zeta.
  repeat apply keeps_if; auto using keeps_insert_txi, keeps_ret.
Qed.

(** The statements of [_steps] before the last one. *)
Lemma steps_last (save_tx : string) (t : Transaction) (height : Z) (v : bool)
    (addr : string) (txhash : bytes) (history : string) (db db' : DB) :
  _steps save_tx t height v addr txhash history db = (Ok tt, db') ->
  exists db3,
    pubkey_address db3 = pubkey_address db /\
    _set_address_history addr history db3 = (Ok tt, db').
Proof.
  unfold _steps. intros H.
  bind_inv H. bind_inv H. bind_inv H. bind_inv H. bind_inv H. bind_inv H.
  exists db5. split; [|exact H].
  pose proof (keeps_save_tx_row save_tx t height v db) as K0.
  rewrite E in K0. cbn [snd] in K0.
  unfold select_txo_positions in E0. injection E0 as _ <-.
  pose proof (keeps_for_each (outputs t) (save_output t addr txhash a0)
                (keeps_save_output t addr txhash a0) db0) as K1.
  rewrite E1 in K1. cbn [snd] in K1.
  unfold select_txoid_address in E2. injection E2 as _ <-.
  unfold select_txi_txoids in E3. injection E3 as _ <-.
  pose proof (keeps_for_each (inputs t) (save_input t addr a2 a3)
                (keeps_save_input t addr a2 a3) db2) as K4.
  rewrite E4 in K4. cbn [snd] in K4.
  congruence.
Qed.

Lemma set_address_history_spec (addr history : string) (db : DB) :
  set_address_history addr history db
  = (Ok tt, with_pubkey_address (map (set_history addr history) (pubkey_address db)) db).
Proof. reflexivity. Qed.

Lemma save_transaction_io_addresses (save_tx : string) (t : Transaction) (height : Z)
    (v : bool) (addr : string) (txhash : bytes) (history : string) (db : DB) :
  pubkey_address (snd (save_transaction_io save_tx t height v addr txhash history db))
  = pubkey_address db \/
  (fst (save_transaction_io save_tx t height v addr txhash history db) = Ok tt /\
   pubkey_address (snd (save_transaction_io save_tx t height v addr txhash history db))
   = map (set_history addr history) (pubkey_address db)).
Proof.
  unfold save_transaction_io, runInteraction.
  destruct (_steps save_tx t height v addr txhash history db) as [[[]|e] db'] eqn:E.
  - right. apply steps_last in E. destruct E as (db3 & K & E).
    unfold _set_address_history in E. injection E as <-.
    cbn [fst snd pubkey_address with_pubkey_address]. now rewrite K.
  - now left.
Qed.

(** Properties of the address table that inserting keys and writing a
    history keep are kept by every call that writes the store. *)
Section Preservation.
Variable P : list pubkey_address_row -> Prop.
Hypothesis P_insert : forall account chain keys rows rows',
  insert_keys account chain keys rows = Some rows' -> P rows -> P rows'.
Hypothesis P_history : forall addr history rows,
  P rows -> P (map (set_history addr history) rows).

Lemma add_keys_preserves (account : string) (chain : Z) (keys : list (Z * PubKey))
    (db : DB) :
  P (pubkey_address db) -> P (pubkey_address (snd (add_keys account chain keys db))).
Proof.
  intros H. unfold add_keys. destruct keys as [|key keys]; [exact H|].
  destruct (insert_keys account chain (key :: keys) (pubkey_address db)) eqn:E.
  - cbn [snd with_pubkey_address pubkey_address]. eapply P_insert; eassumption.
  - exact H.
Qed.

Lemma hd_ensure_address_gap_preserves (m : HierarchicalDeterministic.t) (db : DB) :
  P (pubkey_address db) ->
  P (pubkey_address (snd (HierarchicalDeterministic.ensure_address_gap m db))).
Proof.
  intros H. unfold HierarchicalDeterministic.ensure_address_gap, bind.
  rewrite query_chain.
  destruct (_ =? _); [exact H|].
  unfold HierarchicalDeterministic.generate_keys, bind.
  match goal with |- context [add_keys ?a ?c ?k db] =>
    pose proof (add_keys_preserves a c k db H) as K;
    destruct (add_keys a c k db) as [[[]|e] db1] end; exact K.
Qed.

Lemma single_ensure_address_gap_preserves (m : SingleKey.t) (db : DB) :
  P (pubkey_address db) ->
  P (pubkey_address (snd (SingleKey.ensure_address_gap m db))).
Proof.
  intros H. unfold SingleKey.ensure_address_gap, bind,
    SingleKey.get_address_records, SingleKey._query_addresses, get_addresses.
  cbn [sql_limit].
  destruct (filter _ _); [|exact H].
  match goal with |- context [add_keys ?a ?c ?k db] =>
    pose proof (add_keys_preserves a c k db H) as K;
    destruct (add_keys a c k db) as [[[]|e] db1] end; exact K.
Qed.

Lemma ensure_address_gap_preserves (m : AddressManager.t) (db : DB) :
  P (pubkey_address db) ->
  P (pubkey_address (snd (AddressManager.ensure_address_gap m db))).
Proof.
  destruct m; [apply hd_ensure_address_gap_preserves
              |apply single_ensure_address_gap_preserves].
Qed.

Lemma get_address_records_state (m : AddressManager.t) (limit : option Z)
    (only_usable : bool) (db : DB) :
  snd (AddressManager.get_address_records m limit only_usable db) = db.
Proof. now destruct m. Qed.

Lemma get_or_create_preserves (m : AddressManager.t) (db : DB) :
  P (pubkey_address db) ->
  P (pubkey_address (snd (AddressManager.get_or_create_usable_address m db))).
Proof.
  intros H. unfold AddressManager.get_or_create_usable_address,
    AddressManager.get_addresses, bind.
  pose proof (get_address_records_state m (Some 1) true db) as K.
  destruct (AddressManager.get_address_records m (Some 1) true db) as [[rows|e] db1].
  - cbn [snd] in K. subst db1. cbn [ret].
    destruct (map pa_address rows); [|exact H].
    pose proof (ensure_address_gap_preserves m db H) as K.
    destruct (AddressManager.ensure_address_gap m db) as [[[|a l]|e] db1]; exact K.
  - cbn [snd] in K. now subst db1.
Qed.

Lemma run_call_preserves (c : db_call) (db : DB) :
  P (pubkey_address db) -> P (pubkey_address (run_call c db)).
Proof.
  intros H. destruct c; cbn [run_call].
  - now apply add_keys_preserves.
  - rewrite set_address_history_spec. cbn [snd with_pubkey_address pubkey_address].
    now apply P_history.
  - destruct (save_transaction_io_addresses save_tx t height is_verified addr txhash
                history db) as [E|[_ E]]; rewrite E; [exact H|now apply P_history].
  - exact H.
  - now apply ensure_address_gap_preserves.
  - now apply get_or_create_preserves.
Qed.

Lemma run_calls_preserves (calls : list db_call) (db : DB) :
  P (pubkey_address db) -> P (pubkey_address (run_calls calls db)).
Proof.
  unfold run_calls. revert db. induction calls as [|c calls IH]; intros db H.
  - exact H.
  - cbn [fold_left]. apply IH. now apply run_call_preserves.
Qed.
End Preservation.

(** ** Inserted keys *)

Lemma insert_keys_rows (account : string) (chain : Z) (keys : list (Z * PubKey))
    (rows rows' : list pubkey_address_row) :
  insert_keys account chain keys rows = Some rows' ->
  rows' = rows ++ map (key_row account chain) keys.
Proof.
  revert rows. induction keys as [|key keys IH]; intros rows; cbn [insert_keys map].
  - intros [= <-]. now rewrite app_nil_r.
  - unfold insert_key. destruct (has_address _ rows); [discriminate|].
    intros H. apply IH in H. now rewrite H, <- app_assoc.
Qed.

(** ** History and used_times *)

Lemma set_history_consistent (addr history : string) (r : pubkey_address_row) :
  history_consistent r -> history_consistent (set_history addr history r).
Proof.
  unfold set_history. destruct (String.eqb _ _); [reflexivity|auto].
Qed.

Lemma set_history_written (addr history : string) (rows : list pubkey_address_row)
    (r : pubkey_address_row) :
  In r (map (set_history addr history) rows) -> pa_address r = addr ->
  pa_history r = Some history /\ pa_used_times r = count_colon history / 2.
Proof.
  intros Hin Ha. apply in_map_iff in Hin. destruct Hin as (r0 & <- & _).
  unfold set_history in *. destruct (String.eqb_spec (pa_address r0) addr).
  - now split.
  - contradiction.
Qed.

Lemma set_history_has_address (addr history a : string) (rows : list pubkey_address_row) :
  has_address a (map (set_history addr history) rows) = has_address a rows.
Proof.
  unfold has_address. induction rows as [|r rows IH]; cbn [map existsb]; [reflexivity|].
  rewrite IH. f_equal. unfold set_history. now destruct (String.eqb (pa_address r) addr).
Qed.

(** C6: after [set_address_history], and after a [save_transaction_io] that
    committed, the row of the address holds the given history and a
    used_times of [count(':') // 2] of it; every call that writes the store
    keeps all rows in that relation (a row without history has 0). *)
Theorem used_times_follows_history :
  (forall addr history db,
     fst (set_address_history addr history db) = Ok tt /\
     has_address addr (pubkey_address (snd (set_address_history addr history db)))
     = has_address addr (pubkey_address db) /\
     forall r,
       In r (pubkey_address (snd (set_address_history addr history db))) ->
       pa_address r = addr ->
       pa_history r = Some history /\ pa_used_times r = count_colon history / 2) /\
  (forall save_tx t height is_verified addr txhash history db db',
     save_transaction_io save_tx t height is_verified addr txhash history db
     = (Ok tt, db') ->
     has_address addr (pubkey_address db') = has_address addr (pubkey_address db) /\
     forall r,
       In r (pubkey_address db') -> pa_address r = addr ->
       pa_history r = Some history /\ pa_used_times r = count_colon history / 2) /\
  (forall c db,
     Forall history_consistent (pubkey_address db) ->
     Forall history_consistent (pubkey_address (run_call c db))).
Proof.
  split; [|split].
  - intros addr history db. rewrite set_address_history_spec.
    cbn [fst snd with_pubkey_address pubkey_address].
    split; [reflexivity|]. split; [apply set_history_has_address|].
    intros r. apply set_history_written.
  - intros save_tx t height v addr txhash history db db' H.
    destruct (save_transaction_io_addresses save_tx t height v addr txhash history db)
      as [E|[_ E]]; rewrite H in E; cbn [snd] in E.
    + unfold save_transaction_io, runInteraction in H.
      destruct (_steps save_tx t height v addr txhash history db) as [[[]|e] d] eqn:Es;
        [|discriminate].
      injection H as ->. apply steps_last in Es. destruct Es as (db3 & K & Es).
      unfold _set_address_history in Es. injection Es as <-.
      cbn [with_pubkey_address pubkey_address]. rewrite K.
      split; [apply set_history_has_address|]. intros r. apply set_history_written.
    + rewrite E. split; [apply set_history_has_address|].
      intros r. apply set_history_written.
  - intros c db. apply run_call_preserves.
    + intros account chain keys rows rows' E H. apply insert_keys_rows in E. subst rows'.
      apply Forall_app. split; [exact H|].
      apply Forall_forall. intros r Hr. apply in_map_iff in Hr.
      now destruct Hr as (k & <- & _).
    + intros addr history rows H. apply Forall_forall. intros r Hr.
      apply in_map_iff in Hr. destruct Hr as (r0 & <- & Hr0).
      apply set_history_consistent. eapply Forall_forall in H; eassumption.
Qed.

(** ** Ingesting a transaction twice *)

Lemma with_txo_same (db : DB) : with_txo (txo db) db = db.
Proof. now destruct db. Qed.

Lemma with_txi_same (db : DB) : with_txi (txi db) db = db.
Proof. now destruct db. Qed.

Lemma with_tx_same (db : DB) : with_tx (tx db) db = db.
Proof. now destruct db. Qed.

Lemma with_pubkey_address_same (db : DB) : with_pubkey_address (pubkey_address db) db = db.
Proof. now destruct db. Qed.

Lemma for_each_skip {A} (l : list A) (body : A -> M unit) (db : DB) :
  (forall a, In a l -> body a db = (Ok tt, db)) -> for_each l body db = (Ok tt, db).
Proof.
  induction l as [|a l IH]; intros H; cbn [for_each]; [reflexivity|].
  erewrite bind_ok by (apply H; now left).
  apply IH. intros b Hb. apply H. now right.
Qed.

Lemma set_history_twice (addr history : string) (rows : list pubkey_address_row) :
  map (set_history addr history) (map (set_history addr history) rows)
  = map (set_history addr history) rows.
Proof.
  rewrite map_map. apply map_ext. intros r. unfold set_history.
  destruct (String.eqb (pa_address r) addr) eqn:E; cbn [pa_address]; now rewrite E.
Qed.

Lemma save_outputs_rows (t : Transaction) (addr : string) (txhash : bytes)
    (existing : list Z) (outs : list Output) (db db' : DB) :
  for_each outs (save_output t addr txhash existing) db = (Ok tt, db') ->
  db' = with_txo (txo db ++ map (txo_to_row t addr)
                                (filter (stores_output txhash existing) outs)) db.
Proof.
  revert db. induction outs as [|o outs IH]; intros db; cbn [for_each filter map].
  - intros [= <-]. now rewrite app_nil_r, with_txo_same.
  - intros H. bind_inv H. apply IH in H. subst db'.
    unfold save_output in E. unfold stores_output at 2.
    destruct (mem_Z (out_position o) existing); cbn [negb andb].
    + injection E as _ <-. reflexivity.
    + destruct (is_pay_pubkey_hash (out_script o) &&
                bytes_eqb (pubkey_hash (out_script o)) txhash).
      * unfold insert_txo in E. destruct (existsb _ (txo db)); [discriminate|].
        injection E as _ <-. cbn [with_txo txo pubkey_address tx txi map].
        now rewrite <- app_assoc.
      * destruct (is_pay_script_hash (out_script o)); injection E as _ <-; reflexivity.
Qed.

Lemma save_inputs_rows (t : Transaction) (addr : string)
    (to_address : list (string * string)) (existing : list string)
    (ins : list Input) (db : DB) :
  for_each ins (save_input t addr to_address existing) db
  = (Ok tt, with_txi (txi db ++ map (input_row t addr)
                                    (filter (links_input addr to_address existing) ins)) db).
Proof.
  revert db. induction ins as [|i ins IH]; intros db; cbn [for_each filter map].
  - now rewrite app_nil_r, with_txi_same.
  - unfold save_input at 1. cbn zeta. fold (links_input addr to_address existing i).
    destruct (links_input addr to_address existing i).
    + erewrite bind_ok by reflexivity. rewrite IH.
      cbn [with_txi txi txo pubkey_address tx map]. now rewrite <- app_assoc.
    + erewrite bind_ok by reflexivity. apply IH.
Qed.

Lemma mem_Z_In (z : Z) (l : list Z) : In z l -> mem_Z z l = true.
Proof.
  intros H. apply existsb_exists. exists z. split; [exact H|apply Z.eqb_refl].
Qed.

Lemma mem_string_In (s : string) (l : list string) : In s l -> mem_string s l = true.
Proof.
  intros H. apply existsb_exists. exists s. split; [exact H|apply String.eqb_refl].
Qed.

(** The first statement of [_steps], run again after it succeeded: the
    insert meets its own row, the update and the skip change nothing. *)
Lemma save_tx_row_again (save_tx : string) (t : Transaction) (height : Z) (v : bool)
    (db d1 : DB) :
  save_tx_row save_tx t height v db = (Ok tt, d1) ->
  forall db1, tx db1 = tx d1 ->
  save_tx_row save_tx t height v db1
  = (if String.eqb save_tx "insert" then Raise IntegrityError else Ok tt, db1).
Proof.
  unfold save_tx_row. intros H db1 Htx.
  destruct (String.eqb save_tx "insert").
  - unfold insert_tx in *. destruct (existsb _ (tx db)); [discriminate|].
    injection H as <-. cbn [tx with_tx] in Htx. rewrite Htx, existsb_app.
    cbn [existsb tx_txid]. now rewrite String.eqb_refl, orb_true_r.
  - destruct (String.eqb save_tx "update"); [|reflexivity].
    unfold update_tx in *. injection H as <-. cbn [tx with_tx] in Htx. f_equal.
    match goal with |- with_tx (map ?f _) _ = _ =>
      assert (E : map f (tx db1) = tx db1) end.
    { rewrite Htx, map_map. apply map_ext. intros r.
      destruct (String.eqb (tx_txid r) (id t)) eqn:E; cbn [tx_txid]; now rewrite E. }
    rewrite E. apply with_tx_same.
Qed.

Lemma save_output_again (t : Transaction) (addr : string) (txhash : bytes)
    (stored : list txo_row) (db1 : DB) (o : Output) :
  let existing := map txo_position
                    (filter (fun r => String.eqb (txo_txid r) (id t)) stored) in
  txo db1 = stored ++ map (txo_to_row t addr)
                          (filter (stores_output txhash existing) (outputs t)) ->
  In o (outputs t) ->
  save_output t addr txhash
    (map txo_position (filter (fun r => String.eqb (txo_txid r) (id t)) (txo db1)))
    o db1 = (Ok tt, db1).
Proof.
  intros existing Htxo Ho. unfold save_output.
  destruct (mem_Z (out_position o) _) eqn:Emem; [reflexivity|].
  destruct (is_pay_pubkey_hash (out_script o) &&
            bytes_eqb (pubkey_hash (out_script o)) txhash) eqn:Epay.
  - exfalso. rewrite Htxo, filter_app, map_app in Emem.
    unfold mem_Z in Emem. rewrite existsb_app in Emem.
    apply orb_false_iff in Emem. destruct Emem as [E1 E2].
    assert (Hsel : stores_output txhash existing o = true).
    { unfold stores_output, mem_Z, existing. now rewrite E1, Epay. }
    assert (Hin : In (out_position o)
                    (map txo_position
                       (filter (fun r => String.eqb (txo_txid r) (id t))
                          (map (txo_to_row t addr)
                             (filter (stores_output txhash existing) (outputs t)))))).
    { apply in_map_iff. exists (txo_to_row t addr o). split; [reflexivity|].
      apply filter_In. split.
      - apply in_map. apply filter_In. now split.
      - cbn [txo_to_row txo_txid]. apply String.eqb_refl. }
    apply mem_Z_In in Hin. unfold mem_Z in Hin. congruence.
  - now destruct (is_pay_script_hash (out_script o)).
Qed.

Lemma save_input_again (t : Transaction) (addr : string)
    (to_address : list (string * string)) (linked : list txi_row) (db1 : DB) (i : Input) :
  let existing := map txi_txoid
                    (filter (fun r => String.eqb (txi_txid r) (id t)) linked) in
  txi db1 = linked ++ map (input_row t addr)
                          (filter (links_input addr to_address existing) (inputs t)) ->
  In i (inputs t) ->
  save_input t addr to_address
    (map txi_txoid (filter (fun r => String.eqb (txi_txid r) (id t)) (txi db1)))
    i db1 = (Ok tt, db1).
Proof.
  intros existing Htxi Hi. unfold save_input. cbn zeta.
  destruct (negb _ && _) eqn:Econd; [|reflexivity].
  exfalso. apply andb_true_iff in Econd. destruct Econd as [Enew Ematch].
  apply negb_true_iff in Enew.
  rewrite Htxi, filter_app, map_app in Enew.
  unfold mem_string in Enew. rewrite existsb_app in Enew.
  apply orb_false_iff in Enew. destruct Enew as [E1 E2].
  assert (Hsel : links_input addr to_address existing i = true).
  { unfold links_input, mem_string, existing. now rewrite E1, Ematch. }
  assert (Hin : In (txo_ref_id i)
                  (map txi_txoid
                     (filter (fun r => String.eqb (txi_txid r) (id t))
                        (map (input_row t addr)
                           (filter (links_input addr to_address existing) (inputs t)))))).
  { apply in_map_iff. exists (input_row t addr i). split; [reflexivity|].
    apply filter_In. split.
    - apply in_map. apply filter_In. now split.
    - cbn [input_row txi_txid]. apply String.eqb_refl. }
  apply mem_string_In in Hin. unfold mem_string in Hin. congruence.
Qed.

(** What a committed [_steps] leaves in the four tables. *)
Lemma steps_tables (save_tx : string) (t : Transaction) (height : Z) (v : bool)
    (addr : string) (txhash : bytes) (history : string) (db db1 : DB) :
  _steps save_tx t height v addr txhash history db = (Ok tt, db1) ->
  exists d1,
    save_tx_row save_tx t height v db = (Ok tt, d1) /\
    tx db1 = tx d1 /\
    (let existing := map txo_position
                       (filter (fun r => String.eqb (txo_txid r) (id t)) (txo d1)) in
     txo db1 = txo d1 ++ map (txo_to_row t addr)
                             (filter (stores_output txhash existing) (outputs t))) /\
    (let existing := map txi_txoid
                       (filter (fun r => String.eqb (txi_txid r) (id t)) (txi d1)) in
     let to_address := map (fun r => (txo_txoid r, txo_address r))
                         (filter (fun r => mem_string (txo_txoid r)
                                             (map txo_ref_id (inputs t))) (txo db1)) in
     txi db1 = txi d1 ++ map (input_row t addr)
                             (filter (links_input addr to_address existing) (inputs t))) /\
    pubkey_address db1 = map (set_history addr history) (pubkey_address d1).
Proof.
  unfold _steps. intros E.
  apply bind_ok_inv in E. destruct E as ([] & d1 & E1 & E).
  apply bind_ok_inv in E. destruct E as (existing & d1' & E2 & E).
  unfold select_txo_positions in E2. injection E2 as <- <-.
  apply bind_ok_inv in E. destruct E as ([] & d2 & E3 & E).
  apply save_outputs_rows in E3.
  apply bind_ok_inv in E. destruct E as (to_address & d2' & E4 & E).
  unfold select_txoid_address in E4. injection E4 as <- <-.
  apply bind_ok_inv in E. destruct E as (linked & d2' & E5 & E).
  unfold select_txi_txoids in E5. injection E5 as <- <-.
  apply bind_ok_inv in E. destruct E as ([] & d3 & E6 & E).
  rewrite save_inputs_rows in E6. injection E6 as <-.
  unfold _set_address_history in E. injection E as <-.
  exists d1. subst d2. split; [exact E1|]. now repeat split.
Qed.

(** C2, as the code has it: after a [save_transaction_io] that committed, the
    same call again leaves the store as the first call left it.  With
    [save_tx = 'insert'] it fails on the primary key of the tx row it meets
    and is rolled back; with any other [save_tx] it succeeds and adds no
    row. *)
Theorem save_transaction_io_again :
  forall save_tx t height is_verified addr txhash history db db1,
    save_transaction_io save_tx t height is_verified addr txhash history db
    = (Ok tt, db1) ->
    save_transaction_io save_tx t height is_verified addr txhash history db1
    = (if String.eqb save_tx "insert" then Raise IntegrityError else Ok tt, db1).
Proof.
  intros save_tx t height v addr txhash history db db1 H.
  unfold save_transaction_io, runInteraction in *.
  destruct (_steps save_tx t height v addr txhash history db) as [[[]|e] d] eqn:E;
    [|discriminate].
  injection H as ->.
  apply steps_tables in E. destruct E as (d1 & E1 & Htx & Htxo & Htxi & Hpa).
  pose proof (save_tx_row_again save_tx t height v db d1 E1 db1 Htx) as K.
  destruct (String.eqb save_tx "insert").
  - unfold _steps. erewrite bind_raise by exact K. reflexivity.
  - assert (Again : _steps save_tx t height v addr txhash history db1 = (Ok tt, db1));
      [|now rewrite Again].
    unfold _steps. erewrite bind_ok by exact K.
    erewrite bind_ok by reflexivity.
    erewrite bind_ok
      by (apply for_each_skip; intros o Ho; eapply save_output_again; eassumption).
    cbn zeta. erewrite bind_ok by reflexivity. erewrite bind_ok by reflexivity.
    erewrite bind_ok
      by (apply for_each_skip; intros i Hi; eapply save_input_again; eassumption).
    unfold _set_address_history. f_equal.
    rewrite Hpa, set_history_twice, <- Hpa. apply with_pubkey_address_same.
Qed.

(** ** Inserting fresh keys *)

Lemma has_address_app (a : string) (rows rows' : list pubkey_address_row) :
  has_address a (rows ++ rows') = has_address a rows || has_address a rows'.
Proof. apply existsb_app. Qed.

Lemma insert_keys_fresh (account : string) (chain : Z) (keys : list (Z * PubKey))
    (rows : list pubkey_address_row) :
  fresh_keys keys rows = true ->
  insert_keys account chain keys rows = Some (rows ++ map (key_row account chain) keys).
Proof.
  unfold fresh_keys. revert rows.
  induction keys as [|key keys IH]; intros rows H; cbn [insert_keys map].
  - now rewrite app_nil_r.
  - cbn [map distinct forallb] in H.
    apply andb_true_iff in H. destruct H as [H1 H2].
    apply andb_true_iff in H1. destruct H1 as [Hnew Hdist].
    apply andb_true_iff in H2. destruct H2 as [Hkey Hrest].
    apply negb_true_iff in Hkey. unfold insert_key. rewrite Hkey.
    rewrite IH.
    + now rewrite <- app_assoc.
    + rewrite Hdist. cbn [andb]. apply forallb_forall. intros k Hk.
      rewrite has_address_app. cbn [has_address existsb key_row pa_address].
      rewrite forallb_forall in Hrest. specialize (Hrest k Hk).
      apply negb_true_iff in Hrest. rewrite Hrest. cbn [orb]. rewrite orb_false_r.
      apply negb_true_iff in Hnew. apply negb_true_iff.
      destruct (String.eqb_spec (address (snd key)) (address (snd k))) as [Heq|]; [|reflexivity].
      rewrite <- Hnew. symmetry. apply mem_string_In.
      rewrite Heq. apply in_map_iff. now exists k.
Qed.

Lemma insert_keys_not_fresh (account : string) (chain : Z) (keys : list (Z * PubKey))
    (rows : list pubkey_address_row) :
  fresh_keys keys rows = false -> insert_keys account chain keys rows = None.
Proof.
  unfold fresh_keys. revert rows.
  induction keys as [|key keys IH]; intros rows H; cbn [insert_keys].
  - discriminate.
  - unfold insert_key. destruct (has_address (address (snd key)) rows) eqn:Hkey;
      [reflexivity|].
    apply IH. cbn [map distinct forallb] in H. rewrite Hkey in H. cbn [negb andb] in H.
    destruct (mem_string (address (snd key)) (map (fun k => address (snd k)) keys)) eqn:Hnew.
    + apply andb_false_iff. right. unfold mem_string in Hnew.
      apply existsb_exists in Hnew. destruct Hnew as (a & Ha & Eq).
      apply String.eqb_eq in Eq. subst a. apply in_map_iff in Ha.
      destruct Ha as (k & Ek & Hk).
      apply not_true_iff_false. intros Hall. rewrite forallb_forall in Hall.
      specialize (Hall k Hk). apply negb_true_iff in Hall.
      rewrite has_address_app in Hall. apply orb_false_iff in Hall.
      destruct Hall as [_ Hall]. cbn [has_address existsb key_row pa_address] in Hall.
      rewrite Ek, String.eqb_refl in Hall. discriminate.
    + cbn [negb andb] in H. apply andb_false_iff in H. destruct H as [H|H].
      * now rewrite H.
      * apply andb_false_iff. right. apply not_true_iff_false. intros Hall.
        apply not_true_iff_false in H. apply H. apply forallb_forall. intros k Hk.
        rewrite forallb_forall in Hall. specialize (Hall k Hk).
        apply negb_true_iff in Hall. rewrite has_address_app in Hall.
        apply orb_false_iff in Hall. apply negb_true_iff. tauto.
Qed.

(** [add_keys] on a list of keys that is not empty. *)
Lemma add_keys_spec (account : string) (chain : Z) (keys : list (Z * PubKey)) (db : DB) :
  keys <> [] ->
  add_keys account chain keys db
  = if fresh_keys keys (pubkey_address db)
    then (Ok tt, with_pubkey_address
                   (pubkey_address db ++ map (key_row account chain) keys) db)
    else (Raise IntegrityError, db).
Proof.
  intros Hne. unfold add_keys. destruct keys as [|key keys]; [contradiction|].
  destruct (fresh_keys (key :: keys) (pubkey_address db)) eqn:E.
  - now rewrite insert_keys_fresh.
  - now rewrite insert_keys_not_fresh.
Qed.

(** ** The gap of a deterministic chain *)

Lemma range_length (a b : Z) : length (range a b) = Z.to_nat (b - a).
Proof. unfold range. now rewrite length_map, length_seq. Qed.

Lemma range_In (a b i : Z) : In i (range a b) <-> a <= i < b.
Proof.
  unfold range. rewrite in_map_iff. split.
  - intros (k & <- & Hk). apply in_seq in Hk. lia.
  - intros H. exists (Z.to_nat (i - a)). split; [lia|]. apply in_seq. lia.
Qed.

Lemma new_keys_length (m : HierarchicalDeterministic.t) (start end_ : Z) :
  length (HierarchicalDeterministic.new_keys m start end_) = Z.to_nat (end_ + 1 - start).
Proof. unfold HierarchicalDeterministic.new_keys. now rewrite length_map, range_length. Qed.

Lemma existing_gap_all_unused (l : list pubkey_address_row) :
  Forall unused l -> HierarchicalDeterministic.existing_gap l = Z.of_nat (length l).
Proof.
  induction 1 as [|a l Ha _ IH]; [reflexivity|].
  cbn [HierarchicalDeterministic.existing_gap]. unfold unused in Ha. rewrite Ha.
  cbn [Z.eqb]. rewrite IH. simpl List.length. lia.
Qed.

Lemma existing_gap_first_used (u : pubkey_address_row) (l : list pubkey_address_row) :
  ~ unused u -> HierarchicalDeterministic.existing_gap (u :: l) = 0.
Proof.
  unfold unused. intros H. cbn [HierarchicalDeterministic.existing_gap].
  destruct (Z.eqb_spec (pa_used_times u) 0); [contradiction|reflexivity].
Qed.

Lemma existing_gap_bounds (l : list pubkey_address_row) :
  0 <= HierarchicalDeterministic.existing_gap l <= Z.of_nat (length l).
Proof.
  induction l as [|a l IH]; cbn [HierarchicalDeterministic.existing_gap]; [simpl; lia|].
  simpl List.length. destruct (pa_used_times a =? 0); lia.
Qed.

(** [ensure_address_gap] of a deterministic chain, with the query replaced
    by its result. *)
Lemma hd_ensure_address_gap_spec (m : HierarchicalDeterministic.t) (db : DB) :
  HierarchicalDeterministic.ensure_address_gap m db
  = let addresses :=
      sql_limit (Some (HierarchicalDeterministic.gap m))
        (sort_by (row_le PositionDesc) (chain_rows m db)) in
    let existing := HierarchicalDeterministic.existing_gap addresses in
    if existing =? HierarchicalDeterministic.gap m then (Ok [], db)
    else
      let start := match addresses with
                   | a :: _ => pa_position a + 1
                   | [] => 0
                   end in
      HierarchicalDeterministic.generate_keys m start
        (start + (HierarchicalDeterministic.gap m - existing) - 1) db.
Proof.
  unfold HierarchicalDeterministic.ensure_address_gap, bind.
  rewrite query_chain. cbn zeta.
  destruct (_ =? _); reflexivity.
Qed.

(** [generate_keys] for a range that is not empty. *)
Lemma generate_keys_spec (m : HierarchicalDeterministic.t) (start end_ : Z) (db : DB) :
  start <= end_ ->
  HierarchicalDeterministic.generate_keys m start end_ db
  = if fresh_keys (HierarchicalDeterministic.new_keys m start end_) (pubkey_address db)
    then (Ok (map (fun key => address (snd key))
                (HierarchicalDeterministic.new_keys m start end_)),
          with_pubkey_address
            (pubkey_address db ++
             map (key_row (HierarchicalDeterministic.account m)
                    (HierarchicalDeterministic.chain_number m))
               (HierarchicalDeterministic.new_keys m start end_)) db)
    else (Raise IntegrityError, db).
Proof.
  intros Hle. unfold HierarchicalDeterministic.generate_keys, bind.
  rewrite add_keys_spec.
  - now destruct (fresh_keys _ _).
  - intros E. apply (f_equal (@List.length _)) in E.
    rewrite new_keys_length in E. simpl in E. lia.
Qed.

Lemma chain_rows_app (m : HierarchicalDeterministic.t) (db : DB)
    (keys : list (Z * PubKey)) :
  chain_rows m
    (with_pubkey_address
       (pubkey_address db ++
        map (key_row (HierarchicalDeterministic.account m)
               (HierarchicalDeterministic.chain_number m)) keys) db)
  = chain_rows m db ++
    map (key_row (HierarchicalDeterministic.account m)
           (HierarchicalDeterministic.chain_number m)) keys.
Proof.
  unfold chain_rows. cbn [with_pubkey_address pubkey_address].
  rewrite filter_app. f_equal.
  induction keys as [|key keys IH]; [reflexivity|].
  cbn [map filter key_row pa_account pa_chain].
  rewrite String.eqb_refl, Z.eqb_refl. cbn [andb]. now rewrite IH.
Qed.

Lemma new_keys_positions (m : HierarchicalDeterministic.t) (start end_ : Z) :
  map pa_position
    (map (key_row (HierarchicalDeterministic.account m)
            (HierarchicalDeterministic.chain_number m))
       (HierarchicalDeterministic.new_keys m start end_))
  = range start (end_ + 1).
Proof.
  unfold HierarchicalDeterministic.new_keys. rewrite !map_map.
  cbn [key_row pa_position fst]. apply map_id.
Qed.

Lemma new_keys_unused (account : string) (chain : Z) (keys : list (Z * PubKey)) :
  Forall unused (map (key_row account chain) keys).
Proof.
  apply Forall_forall. intros r Hr. apply in_map_iff in Hr.
  now destruct Hr as (k & <- & _).
Qed.

Lemma sql_limit_nil {A} (limit : option Z) : sql_limit limit (@nil A) = [].
Proof.
  destruct limit as [n|]; [|reflexivity]. cbn [sql_limit].
  destruct (n <? 0); [reflexivity|apply firstn_nil].
Qed.

Lemma sql_limit_all {A} (n : Z) (l : list A) :
  Z.of_nat (length l) <= n -> sql_limit (Some n) l = l.
Proof.
  intros H. cbn [sql_limit]. destruct (n <? 0); [reflexivity|].
  apply firstn_all2. lia.
Qed.

(** C3: on a deterministic chain with no row yet and a gap of at least 1
    (20 for a fresh receiving chain), [ensure_address_gap] returns the
    addresses of the children 0..gap-1, stores one unused row for each of
    these positions, and the next call returns [[]] and changes nothing.
    The derived addresses are assumed new to the table, as the INSERT
    requires. *)
Theorem ensure_address_gap_fresh_chain :
  forall (m : HierarchicalDeterministic.t) (db : DB),
    1 <= HierarchicalDeterministic.gap m ->
    chain_rows m db = [] ->
    fresh_keys
      (HierarchicalDeterministic.new_keys m 0 (HierarchicalDeterministic.gap m - 1))
      (pubkey_address db) = true ->
    exists db1,
      HierarchicalDeterministic.ensure_address_gap m db
      = (Ok (map (fun i => address (HierarchicalDeterministic.child m i))
               (range 0 (HierarchicalDeterministic.gap m))), db1) /\
      Z.of_nat (length (range 0 (HierarchicalDeterministic.gap m)))
      = HierarchicalDeterministic.gap m /\
      pubkey_address db1
      = pubkey_address db ++
        map (fun i => key_row (HierarchicalDeterministic.account m)
                        (HierarchicalDeterministic.chain_number m)
                        (i, HierarchicalDeterministic.child m i))
          (range 0 (HierarchicalDeterministic.gap m)) /\
      map pa_position (chain_rows m db1) = range 0 (HierarchicalDeterministic.gap m) /\
      Forall unused (chain_rows m db1) /\
      HierarchicalDeterministic.ensure_address_gap m db1 = (Ok [], db1).
Proof.
  intros m db Hgap Hempty Hfresh.
  set (keys := HierarchicalDeterministic.new_keys m 0 (HierarchicalDeterministic.gap m - 1))
    in *.
  assert (Hkeys : keys = map (fun i => (i, HierarchicalDeterministic.child m i))
                           (range 0 (HierarchicalDeterministic.gap m))).
  { unfold keys, HierarchicalDeterministic.new_keys. do 2 f_equal. lia. }
  exists (with_pubkey_address
            (pubkey_address db ++
             map (key_row (HierarchicalDeterministic.account m)
                    (HierarchicalDeterministic.chain_number m)) keys) db).
  assert (Hlen : Z.of_nat (length (range 0 (HierarchicalDeterministic.gap m)))
                 = HierarchicalDeterministic.gap m)
    by (rewrite range_length; lia).
  assert (Hrows : chain_rows m
                    (with_pubkey_address
                       (pubkey_address db ++
                        map (key_row (HierarchicalDeterministic.account m)
                               (HierarchicalDeterministic.chain_number m)) keys) db)
                  = map (key_row (HierarchicalDeterministic.account m)
                           (HierarchicalDeterministic.chain_number m)) keys)
    by (now rewrite chain_rows_app, Hempty).
  split; [|split; [exact Hlen|split; [|split; [|split]]]].
  - rewrite hd_ensure_address_gap_spec, Hempty. cbn [sort_by]. rewrite sql_limit_nil.
    cbn zeta. cbn [HierarchicalDeterministic.existing_gap].
    destruct (Z.eqb_spec 0 (HierarchicalDeterministic.gap m)) as [E|_]; [lia|].
    replace (0 + (HierarchicalDeterministic.gap m - 0) - 1)
      with (HierarchicalDeterministic.gap m - 1) by lia.
    rewrite generate_keys_spec by lia. fold keys. rewrite Hfresh.
    f_equal. f_equal. rewrite Hkeys, map_map. reflexivity.
  - cbn [with_pubkey_address pubkey_address]. f_equal. rewrite Hkeys, map_map.
    reflexivity.
  - rewrite Hrows. unfold keys. rewrite new_keys_positions. f_equal. lia.
  - rewrite Hrows. apply new_keys_unused.
  - rewrite hd_ensure_address_gap_spec, Hrows. cbn zeta.
    rewrite sql_limit_all.
    + rewrite existing_gap_all_unused
        by (apply sort_by_Forall, new_keys_unused).
      rewrite sort_by_length, length_map. unfold keys. rewrite new_keys_length.
      destruct (Z.eqb_spec (Z.of_nat (Z.to_nat (HierarchicalDeterministic.gap m - 1 + 1 - 0)))
                  (HierarchicalDeterministic.gap m)) as [_|E]; [reflexivity|lia].
    + rewrite sort_by_length, length_map. unfold keys. rewrite new_keys_length. lia.
Qed.

Lemma ensure_address_gap_fresh_chain_witness :
  exists db1,
    HierarchicalDeterministic.ensure_address_gap demo_receiving empty_db
    = (Ok (map (fun i => address (demo_child i)) (range 0 20)), db1) /\
    map pa_position (chain_rows demo_receiving db1) = range 0 20 /\
    HierarchicalDeterministic.ensure_address_gap demo_receiving db1 = (Ok [], db1).
Proof.
  destruct (ensure_address_gap_fresh_chain demo_receiving empty_db)
    as (db1 & H1 & _ & _ & H2 & _ & H3).
  - simpl. lia.
  - reflexivity.
  - vm_compute. reflexivity.
  - exists db1. now repeat split.
Defined.

(** ** The single-address manager *)

Lemma single_query (m : SingleKey.t) (limit : option Z) (only_usable : bool) (db : DB) :
  SingleKey.get_address_records m limit only_usable db = (Ok (single_rows m db), db).
Proof.
  unfold SingleKey.get_address_records, SingleKey._query_addresses, get_addresses,
    single_rows.
  cbn [opt_test sql_limit]. do 2 f_equal.
  apply filter_ext. intros r. now rewrite andb_true_r.
Qed.

Lemma single_ensure_address_gap_spec (m : SingleKey.t) (db : DB) :
  SingleKey.ensure_address_gap m db
  = match single_rows m db with
    | [] =>
        if has_address (address (SingleKey.public_key m)) (pubkey_address db)
        then (Raise IntegrityError, db)
        else (Ok [address (SingleKey.public_key m)],
              with_pubkey_address (pubkey_address db ++ [single_row m]) db)
    | _ :: _ => (Ok [], db)
    end.
Proof.
  unfold SingleKey.ensure_address_gap.
  erewrite bind_ok by apply single_query.
  destruct (single_rows m db); [|reflexivity].
  unfold bind, add_keys. cbn [insert_keys]. unfold insert_key. cbn [snd].
  now destruct (has_address _ _).
Qed.

Lemma single_rows_kept (m : SingleKey.t) (calls : list db_call) (db : DB) :
  single_rows m db <> [] -> single_rows m (run_calls calls db) <> [].
Proof.
  unfold single_rows.
  apply (run_calls_preserves
           (fun rows =>
              filter (fun r => String.eqb (pa_account r) (SingleKey.account m) &&
                               (pa_chain r =? SingleKey.chain_number m)) rows <> [])).
  - intros account chain keys rows rows' E H. apply insert_keys_rows in E. subst rows'.
    rewrite filter_app. intros E. apply app_eq_nil in E. tauto.
  - intros addr history rows H E. apply H. clear H.
    induction rows as [|r rows IH]; [reflexivity|].
    cbn [map filter] in *.
    assert (Er : (String.eqb (pa_account (set_history addr history r)) (SingleKey.account m) &&
                  (pa_chain (set_history addr history r) =? SingleKey.chain_number m))
                 = (String.eqb (pa_account r) (SingleKey.account m) &&
                    (pa_chain r =? SingleKey.chain_number m)))
      by (unfold set_history; now destruct (String.eqb (pa_address r) addr)).
    rewrite Er in E. destruct (_ && _); [discriminate|]. now apply IH.
Qed.

(** C7: a call of [ensure_address_gap] on a single-address manager returns
    the address of the key, with its row at position 0 appended, or returns
    [[]] and changes nothing; once a call returned the address, whatever
    calls write the store afterwards, every later call returns [[]] and
    changes nothing.  The first call on a store that has neither a row of
    the account nor the address does return the address. *)
Theorem single_ensure_address_gap_once :
  forall (m : SingleKey.t) (db : DB),
    (forall addresses db1,
       SingleKey.ensure_address_gap m db = (Ok addresses, db1) ->
       (addresses = [] /\ db1 = db) \/
       (addresses = [address (SingleKey.public_key m)] /\
        pubkey_address db1 = pubkey_address db ++ [single_row m] /\
        pa_position (single_row m) = 0 /\
        pa_address (single_row m) = address (SingleKey.public_key m) /\
        forall calls,
          SingleKey.ensure_address_gap m (run_calls calls db1)
          = (Ok [], run_calls calls db1))) /\
    (single_rows m db = [] ->
     has_address (address (SingleKey.public_key m)) (pubkey_address db) = false ->
     exists db1,
       SingleKey.ensure_address_gap m db = (Ok [address (SingleKey.public_key m)], db1)).
Proof.
  intros m db. split.
  - intros addresses db1. rewrite single_ensure_address_gap_spec.
    destruct (single_rows m db) eqn:Erows.
    + destruct (has_address _ _); [discriminate|].
      intros [= <- <-]. right. repeat split.
      intros calls. rewrite single_ensure_address_gap_spec.
      destruct (single_rows m (run_calls calls _)) eqn:E; [|reflexivity].
      exfalso. revert E. apply single_rows_kept.
      unfold single_rows. cbn [with_pubkey_address pubkey_address].
      rewrite filter_app. cbn [filter single_row key_row pa_account pa_chain].
      rewrite String.eqb_refl, Z.eqb_refl. cbn [andb].
      intros E. apply app_eq_nil in E. destruct E as [_ E]. discriminate.
    + intros [= <- <-]. now left.
  - intros Hrows Haddr. rewrite single_ensure_address_gap_spec, Hrows, Haddr.
    eexists. reflexivity.
Qed.

Lemma single_ensure_address_gap_once_witness :
  exists db1,
    SingleKey.ensure_address_gap demo_single empty_db = (Ok ["master"%string], db1) /\
    SingleKey.ensure_address_gap demo_single
      (run_calls [SetAddressHistory "master" "a:1:"; EnsureAddressGap (AddressManager.Single demo_single)] db1)
    = (Ok [], run_calls [SetAddressHistory "master" "a:1:"; EnsureAddressGap (AddressManager.Single demo_single)] db1).
Proof.
  destruct (single_ensure_address_gap_once demo_single empty_db) as [H1 H2].
  destruct H2 as (db1 & E); [reflexivity|reflexivity|].
  exists db1. split; [exact E|].
  destruct (H1 _ _ E) as [[Hnil _]|(_ & _ & _ & _ & Hlater)]; [discriminate|].
  apply Hlater.
Defined.

(** C10: [SingleKey.get_address_records] returns the same rows whatever
    [limit] and [only_usable] are, so with a row of the account in the store
    [get_addresses(limit=1, only_usable=True)] returns the addresses of all
    its rows and [get_or_create_usable_address] returns the first of them,
    whatever its used_times. *)
Theorem single_ignores_limit_and_usable :
  forall (m : SingleKey.t) (db : DB),
    (forall limit only_usable,
       SingleKey.get_address_records m limit only_usable db
       = SingleKey.get_address_records m None false db) /\
    (forall r rest,
       single_rows m db = r :: rest ->
       AddressManager.get_addresses (AddressManager.Single m) (Some 1) true db
       = (Ok (pa_address r :: map pa_address rest), db) /\
       AddressManager.get_or_create_usable_address (AddressManager.Single m) db
       = (Ok (pa_address r), db)).
Proof.
  intros m db. split.
  - intros limit only_usable. reflexivity.
  - intros r rest Hrows.
    assert (E : AddressManager.get_addresses (AddressManager.Single m) (Some 1) true db
                = (Ok (pa_address r :: map pa_address rest), db)).
    { unfold AddressManager.get_addresses.
      cbn [AddressManager.get_address_records].
      erewrite bind_ok by apply single_query. now rewrite Hrows. }
    split; [exact E|].
    unfold AddressManager.get_or_create_usable_address.
    erewrite bind_ok by exact E. reflexivity.
Qed.

(** ** Usable addresses *)

Lemma filter_andb {A} (p q : A -> bool) (l : list A) :
  filter (fun a => p a && q a) l = filter q (filter p l).
Proof.
  induction l as [|a l IH]; [reflexivity|]. cbn [filter].
  destruct (p a); cbn [andb filter]; [destruct (q a)|]; now rewrite IH.
Qed.

Lemma query_usable (m : HierarchicalDeterministic.t) (limit : option Z) (db : DB) :
  HierarchicalDeterministic.get_address_records m limit true db
  = (Ok (sql_limit limit
           (sort_by (row_le UsedTimesAscPositionAsc)
              (filter (fun r => pa_used_times r <=?
                                HierarchicalDeterministic.maximum_uses_per_address m)
                 (chain_rows m db)))), db).
Proof.
  unfold HierarchicalDeterministic.get_address_records,
    HierarchicalDeterministic._query_addresses, get_addresses, chain_rows.
  cbn [opt_test]. now rewrite <- filter_andb.
Qed.

Lemma sql_limit_incl {A} (limit : option Z) (l : list A) (a : A) :
  In a (sql_limit limit l) -> In a l.
Proof.
  destruct limit as [n|]; cbn [sql_limit]; [|auto].
  destruct (n <? 0); [auto|]. intros H.
  rewrite <- (firstn_skipn (Z.to_nat n) l). apply in_or_app. now left.
Qed.

Lemma sort_by_In {A} (le : A -> A -> bool) (l : list A) (a : A) :
  In a (sort_by le l) -> In a l.
Proof. apply Permutation_in, sort_by_perm. Qed.

Lemma no_usable_all_used (h : HierarchicalDeterministic.t) (db : DB) :
  0 <= HierarchicalDeterministic.maximum_uses_per_address h ->
  AddressManager.get_addresses (AddressManager.Deterministic h) (Some 1) true db
  = (Ok [], db) ->
  Forall (fun r => ~ unused r) (chain_rows h db).
Proof.
  intros Hmax. unfold AddressManager.get_addresses.
  cbn [AddressManager.get_address_records].
  erewrite bind_ok by apply query_usable. unfold ret. intros [= E].
  apply map_eq_nil in E. cbn [sql_limit Z.ltb Z.compare] in E.
  change (Z.to_nat 1) with 1%nat in E.
  assert (Es : sort_by (row_le UsedTimesAscPositionAsc)
                 (filter (fun r => pa_used_times r <=?
                                   HierarchicalDeterministic.maximum_uses_per_address h)
                    (chain_rows h db)) = []).
  { destruct (sort_by _ _); [reflexivity|discriminate]. }
  apply (f_equal (@List.length _)) in Es. rewrite sort_by_length in Es.
  apply length_zero_iff_nil in Es.
  apply Forall_forall. intros r Hr Hunused.
  assert (Hin : In r (filter (fun r => pa_used_times r <=?
                                       HierarchicalDeterministic.maximum_uses_per_address h)
                        (chain_rows h db))).
  { apply filter_In. split; [exact Hr|]. unfold unused in Hunused.
    apply Z.leb_le. lia. }
  rewrite Es in Hin. contradiction.
Qed.

(** With every row of the chain used and a gap of at least 1, the gap fill
    derives [gap] keys after the highest position. *)
Lemma hd_ensure_address_gap_all_used (h : HierarchicalDeterministic.t) (db : DB) :
  1 <= HierarchicalDeterministic.gap h ->
  Forall (fun r => ~ unused r) (chain_rows h db) ->
  HierarchicalDeterministic.ensure_address_gap h db
  = let keys := next_keys (AddressManager.Deterministic h) db in
    if fresh_keys keys (pubkey_address db)
    then (Ok (map (fun key => address (snd key)) keys),
          with_pubkey_address
            (pubkey_address db ++
             map (key_row (HierarchicalDeterministic.account h)
                    (HierarchicalDeterministic.chain_number h)) keys) db)
    else (Raise IntegrityError, db).
Proof.
  intros Hgap Hused. rewrite hd_ensure_address_gap_spec. cbn zeta. cbn [next_keys].
  set (addresses := sql_limit (Some (HierarchicalDeterministic.gap h))
                      (sort_by (row_le PositionDesc) (chain_rows h db))).
  assert (E0 : HierarchicalDeterministic.existing_gap addresses = 0).
  { destruct addresses as [|a rest] eqn:E; [reflexivity|].
    apply existing_gap_first_used.
    eapply Forall_forall in Hused; [exact Hused|].
    apply sort_by_In with (le := row_le PositionDesc).
    apply sql_limit_incl with (limit := Some (HierarchicalDeterministic.gap h)).
    fold addresses. rewrite E. now left. }
  rewrite E0.
  destruct (Z.eqb_spec 0 (HierarchicalDeterministic.gap h)) as [E|_]; [lia|].
  rewrite Z.sub_0_r. rewrite generate_keys_spec by lia. reflexivity.
Qed.

Lemma next_keys_not_empty (m : AddressManager.t) (db : DB) :
  well_configured m -> next_keys m db <> [].
Proof.
  destruct m as [h|s]; cbn [well_configured next_keys]; [|discriminate].
  intros [Hgap _] E. apply (f_equal (@List.length _)) in E.
  rewrite new_keys_length in E. simpl in E. lia.
Qed.

Lemma ensure_address_gap_no_usable (m : AddressManager.t) (db : DB) :
  well_configured m ->
  AddressManager.get_addresses m (Some 1) true db = (Ok [], db) ->
  AddressManager.ensure_address_gap m db
  = if fresh_keys (next_keys m db) (pubkey_address db)
    then (Ok (map (fun key => address (snd key)) (next_keys m db)),
          with_pubkey_address
            (pubkey_address db ++
             map (key_row (account_of m) (chain_of m)) (next_keys m db)) db)
    else (Raise IntegrityError, db).
Proof.
  destruct m as [h|s]; cbn [well_configured AddressManager.ensure_address_gap].
  - intros [Hgap Hmax] Hnone.
    apply hd_ensure_address_gap_all_used; [exact Hgap|].
    now apply no_usable_all_used.
  - intros _. unfold AddressManager.get_addresses.
    cbn [AddressManager.get_address_records].
    erewrite bind_ok by apply single_query. unfold ret. intros [= E].
    apply map_eq_nil in E. rewrite single_ensure_address_gap_spec, E.
    cbn [next_keys]. unfold fresh_keys.
    cbn [map distinct mem_string existsb forallb snd negb andb].
    rewrite andb_true_r.
    now destruct (has_address _ _).
Qed.

(** C9, as the code has it: for a single-address manager, and for a
    deterministic manager with gap >= 1 and maximum_uses_per_address >= 0,
    when the usable-address query returns no row [ensure_address_gap]
    inserts the keys after the highest position and returns their
    addresses, a list that is not empty, so [addresses[0]] is in bounds and
    [get_or_create_usable_address] returns it.  The call returns whenever
    the derived addresses are new to the table; otherwise the INSERT
    raises. *)
Theorem get_or_create_usable_address_in_bounds :
  forall (m : AddressManager.t) (db : DB),
    well_configured m ->
    AddressManager.get_addresses m (Some 1) true db = (Ok [], db) ->
    (forall addresses db1,
       AddressManager.ensure_address_gap m db = (Ok addresses, db1) ->
       addresses <> []) /\
    (forall e db1,
       AddressManager.get_or_create_usable_address m db = (Raise e, db1) ->
       e = IntegrityError /\ fresh_keys (next_keys m db) (pubkey_address db) = false) /\
    (fresh_keys (next_keys m db) (pubkey_address db) = true ->
     exists a rest db1,
       AddressManager.ensure_address_gap m db = (Ok (a :: rest), db1) /\
       AddressManager.get_or_create_usable_address m db = (Ok a, db1)).
Proof.
  intros m db Hwf Hnone.
  pose proof (ensure_address_gap_no_usable m db Hwf Hnone) as E.
  pose proof (next_keys_not_empty m db Hwf) as Hne.
  assert (G : AddressManager.get_or_create_usable_address m db
              = bind (AddressManager.ensure_address_gap m)
                  AddressManager.first_address db).
  { unfold AddressManager.get_or_create_usable_address.
    erewrite bind_ok by exact Hnone. reflexivity. }
  destruct (next_keys m db) as [|key keys] eqn:Ekeys; [contradiction|].
  destruct (fresh_keys (key :: keys) (pubkey_address db)).
  - split; [|split].
    + intros addresses db1. rewrite E. intros [= <- _]. discriminate.
    + intros e db1. rewrite G. erewrite bind_ok by exact E. discriminate.
    + intros _. eexists _, _, _. split; [exact E|].
      rewrite G. erewrite bind_ok by exact E. reflexivity.
  - split; [|split].
    + intros addresses db1. rewrite E. discriminate.
    + intros e db1. rewrite G. erewrite bind_raise by exact E.
      intros [= <- _]. now split.
    + discriminate.
Qed.

Lemma get_or_create_usable_address_in_bounds_witness :
  exists a rest db1,
    AddressManager.ensure_address_gap (AddressManager.Deterministic demo_receiving) empty_db
    = (Ok (a :: rest), db1) /\
    AddressManager.get_or_create_usable_address
      (AddressManager.Deterministic demo_receiving) empty_db = (Ok a, db1).
Proof.
  destruct (get_or_create_usable_address_in_bounds
              (AddressManager.Deterministic demo_receiving) empty_db)
    as (_ & _ & H).
  - simpl. lia.
  - reflexivity.
  - apply H. vm_compute. reflexivity.
Defined.

(** C9 as stated fails for a manager whose maximum_uses_per_address is
    negative: on the filled chain no address is usable, the gap is complete,
    [ensure_address_gap] returns [[]] and [addresses[0]] raises. *)
Lemma get_or_create_usable_address_index_error :
  AddressManager.get_addresses (AddressManager.Deterministic demo_never_usable)
    (Some 1) true demo_db_filled = (Ok [], demo_db_filled) /\
  AddressManager.ensure_address_gap (AddressManager.Deterministic demo_never_usable)
    demo_db_filled = (Ok [], demo_db_filled) /\
  AddressManager.get_or_create_usable_address
    (AddressManager.Deterministic demo_never_usable) demo_db_filled
  = (Raise IndexError, demo_db_filled).
Proof. vm_compute. repeat split. Qed.

(** ** The gap after an address in the middle of the chain was used *)

Lemma desc_sorted_unique (l1 l2 : list Z) :
  StronglySorted (fun a b => b <= a) l1 ->
  StronglySorted (fun a b => b <= a) l2 ->
  Permutation l1 l2 -> l1 = l2.
Proof.
  revert l2. induction l1 as [|a l1 IH]; intros l2 S1 S2 P.
  - apply Permutation_nil in P. now subst.
  - destruct l2 as [|b l2].
    { apply Permutation_sym, Permutation_nil in P. discriminate. }
    inversion S1 as [|? ? S1' F1]; inversion S2 as [|? ? S2' F2]; subst.
    assert (E : a = b).
    { assert (Ha : In a (b :: l2)) by (eapply Permutation_in; [exact P|now left]).
      assert (Hb : In b (a :: l1))
        by (eapply Permutation_in; [apply Permutation_sym; exact P|now left]).
      rewrite Forall_forall in F1, F2.
      destruct Ha as [Ha|Ha]; [now symmetry|]. destruct Hb as [Hb|Hb]; [exact Hb|].
      specialize (F1 b Hb). specialize (F2 a Ha). lia. }
    subst b. f_equal. apply IH; try assumption.
    eapply Permutation_cons_inv. exact P.
Qed.

Lemma sorted_positions (rows : list pubkey_address_row) :
  StronglySorted (fun a b => pa_position b <= pa_position a) rows ->
  StronglySorted (fun a b => b <= a) (map pa_position rows).
Proof.
  induction 1 as [|a rows Hs IH Ha]; cbn [map]; constructor.
  - exact IH.
  - apply Forall_forall. intros p Hp. apply in_map_iff in Hp.
    destruct Hp as (r & <- & Hr). rewrite Forall_forall in Ha. now apply Ha.
Qed.

(** The positions of the rows a "position DESC" query returns, when the
    chain holds each of the positions 0..n-1 once. *)
Lemma positions_descending (rows : list pubkey_address_row) (n : Z) :
  Permutation (map pa_position rows) (range 0 n) ->
  map pa_position (sort_by (row_le PositionDesc) rows)
  = sort_by (fun a b => b <=? a) (range 0 n).
Proof.
  intros P. apply desc_sorted_unique.
  - apply sorted_positions.
    apply StronglySorted_weaken with (R := fun a b => row_le PositionDesc a b = true).
    + intros a b. apply Z.leb_le.
    + apply sort_by_sorted; [apply row_le_total|apply row_le_trans].
  - apply StronglySorted_weaken with (R := fun a b => (b <=? a) = true).
    + intros a b. apply Z.leb_le.
    + apply sort_by_sorted.
      * intros a b. rewrite !Z.leb_le. lia.
      * intros a b c. rewrite !Z.leb_le. lia.
  - eapply Permutation_trans; [apply Permutation_map, sort_by_perm|].
    eapply Permutation_trans; [exact P|]. apply Permutation_sym, sort_by_perm.
Qed.

Lemma existing_gap_lead (p : Z) (rows : list pubkey_address_row) :
  (forall r, In r rows -> (pa_position r = p -> ~ unused r) /\
                          (pa_position r <> p -> unused r)) ->
  HierarchicalDeterministic.existing_gap rows = lead p (map pa_position rows).
Proof.
  induction rows as [|r rows IH]; intros H; [reflexivity|].
  cbn [HierarchicalDeterministic.existing_gap map lead].
  destruct (H r (or_introl eq_refl)) as [Hused Hunused].
  destruct (Z.eqb_spec (pa_position r) p) as [E|E].
  - specialize (Hused E). unfold unused in Hused.
    destruct (Z.eqb_spec (pa_used_times r) 0); [contradiction|reflexivity].
  - specialize (Hunused E). unfold unused in Hunused. rewrite Hunused.
    cbn [Z.eqb]. rewrite IH; [reflexivity|]. intros r' Hr'. apply H. now right.
Qed.

Lemma chain_rows_set_history (m : HierarchicalDeterministic.t) (addr history : string)
    (db : DB) :
  chain_rows m (snd (set_address_history addr history db))
  = map (set_history addr history) (chain_rows m db).
Proof.
  rewrite set_address_history_spec. unfold chain_rows.
  cbn [snd with_pubkey_address pubkey_address].
  induction (pubkey_address db) as [|r rows IH]; [reflexivity|].
  cbn [map filter].
  assert (E : (String.eqb (pa_account (set_history addr history r))
                 (HierarchicalDeterministic.account m) &&
               (pa_chain (set_history addr history r) =?
                HierarchicalDeterministic.chain_number m))
              = (String.eqb (pa_account r) (HierarchicalDeterministic.account m) &&
                 (pa_chain r =? HierarchicalDeterministic.chain_number m)))
    by (unfold set_history; now destruct (String.eqb (pa_address r) addr)).
  rewrite E. clear E.
  destruct (String.eqb (pa_account r) _ && _); cbn [map]; now rewrite IH.
Qed.

Lemma set_history_position (addr history : string) (r : pubkey_address_row) :
  pa_position (set_history addr history r) = pa_position r.
Proof. unfold set_history. now destruct (String.eqb (pa_address r) addr). Qed.

Lemma fresh_keys_set_history (keys : list (Z * PubKey)) (addr history : string)
    (rows : list pubkey_address_row) :
  fresh_keys keys (map (set_history addr history) rows) = fresh_keys keys rows.
Proof.
  unfold fresh_keys. f_equal.
  induction keys as [|key keys IH]; [reflexivity|].
  cbn [forallb]. now rewrite set_history_has_address, IH.
Qed.

(** C1, as the code has it: on a deterministic chain with gap = 20 that
    holds the positions 0..19, all unused, after [set_address_history] gave
    the address at position 5 a used_times of 2, [ensure_address_gap] counts
    the 14 unused rows 19..6 and generates 20 - 14 = 6 new keys, at the
    positions 20..25.  The derived addresses are assumed new to the table. *)
Theorem ensure_address_gap_after_use_at_5 :
  forall (m : HierarchicalDeterministic.t) (db : DB) (a5 history : string),
    HierarchicalDeterministic.gap m = 20 ->
    Permutation (map pa_position (chain_rows m db)) (range 0 20) ->
    Forall unused (chain_rows m db) ->
    (forall r, In r (chain_rows m db) -> (pa_address r = a5 <-> pa_position r = 5)) ->
    count_colon history / 2 = 2 ->
    fresh_keys (HierarchicalDeterministic.new_keys m 20 25) (pubkey_address db) = true ->
    let db1 := snd (set_address_history a5 history db) in
    (forall r, In r (chain_rows m db1) -> pa_position r = 5 -> pa_used_times r = 2) /\
    exists db2,
      HierarchicalDeterministic.ensure_address_gap m db1
      = (Ok (map (fun i => address (HierarchicalDeterministic.child m i)) (range 20 26)),
         db2) /\
      length (range 20 26) = 6%nat /\
      pubkey_address db2
      = pubkey_address db1 ++
        map (fun i => key_row (HierarchicalDeterministic.account m)
                        (HierarchicalDeterministic.chain_number m)
                        (i, HierarchicalDeterministic.child m i))
          (range 20 26).
Proof.
  intros m db a5 history Hgap Hpos Hunused Ha5 Hhist Hfresh db1.
  assert (Hrows1 : chain_rows m db1 = map (set_history a5 history) (chain_rows m db))
    by apply chain_rows_set_history.
  assert (Hclass : forall r1, In r1 (chain_rows m db1) ->
                     (pa_position r1 = 5 -> pa_used_times r1 = 2) /\
                     (pa_position r1 <> 5 -> unused r1)).
  { intros r1 Hr1. rewrite Hrows1 in Hr1. apply in_map_iff in Hr1.
    destruct Hr1 as (r & <- & Hr). specialize (Ha5 r Hr).
    rewrite Forall_forall in Hunused. specialize (Hunused r Hr).
    unfold set_history. destruct (String.eqb_spec (pa_address r) a5) as [E|E].
    - cbn [pa_position pa_used_times]. split; [now intros _|]. tauto.
    - split; [tauto|now intros _]. }
  split; [intros r Hr; now apply Hclass|].
  assert (Hsorted : map pa_position (sort_by (row_le PositionDesc) (chain_rows m db1))
                    = [19; 18; 17; 16; 15; 14; 13; 12; 11; 10;
                       9; 8; 7; 6; 5; 4; 3; 2; 1; 0]).
  { rewrite positions_descending with (n := 20); [reflexivity|].
    now rewrite Hrows1, map_map, (map_ext _ pa_position (set_history_position a5 history)). }
  assert (Hlen : length (sort_by (row_le PositionDesc) (chain_rows m db1)) = 20%nat).
  { apply (f_equal (@List.length _)) in Hsorted. now rewrite length_map in Hsorted. }
  assert (Hexisting : HierarchicalDeterministic.existing_gap
                        (sort_by (row_le PositionDesc) (chain_rows m db1)) = 14).
  { rewrite existing_gap_lead with (p := 5); [now rewrite Hsorted|].
    intros r Hr. apply sort_by_In in Hr. destruct (Hclass r Hr) as [H5 Hother].
    split; [|exact Hother]. intros E. unfold unused. rewrite (H5 E). discriminate. }
  assert (Hfresh1 : fresh_keys (HierarchicalDeterministic.new_keys m 20 25)
                      (pubkey_address db1) = true).
  { unfold db1. rewrite set_address_history_spec.
    cbn [snd with_pubkey_address pubkey_address]. now rewrite fresh_keys_set_history. }
  eexists. split; [|split; [reflexivity|]].
  - rewrite hd_ensure_address_gap_spec, Hgap. cbn zeta.
    rewrite sql_limit_all by (rewrite Hlen; simpl; lia).
    rewrite Hexisting. cbn [Z.eqb Pos.eqb].
    destruct (sort_by (row_le PositionDesc) (chain_rows m db1)) as [|a rest];
      [discriminate|].
    injection Hsorted as Ha _. rewrite Ha.
    change (19 + 1 + (20 - 14) - 1) with 25. change (19 + 1) with 20.
    rewrite generate_keys_spec by lia. rewrite Hfresh1.
    unfold HierarchicalDeterministic.new_keys. rewrite map_map. cbn [snd].
    reflexivity.
  - cbn [with_pubkey_address pubkey_address]. f_equal.
Qed.

Lemma ensure_address_gap_after_use_at_5_witness :
  exists db2,
    HierarchicalDeterministic.ensure_address_gap demo_receiving demo_db_used5
    = (Ok ["addr20"; "addr21"; "addr22"; "addr23"; "addr24"; "addr25"]%string, db2).
Proof.
  destruct (ensure_address_gap_after_use_at_5 demo_receiving demo_db_filled
              "addr5" "a:1:b:2:") as (_ & db2 & H & _).
  - reflexivity.
  - vm_compute. apply Permutation_refl.
  - vm_compute. repeat constructor.
  - intros r Hr. vm_compute in Hr.
    repeat (destruct Hr as [<-|Hr]; [vm_compute; split; intros E; congruence|]).
    contradiction.
  - reflexivity.
  - vm_compute. reflexivity.
  - exists db2. exact H.
Defined.

(** C1 as stated fails: the call after position 5 was used returns six
    addresses, those of the positions 20..25, not one. *)
Lemma ensure_address_gap_after_use_at_5_not_one :
  pa_used_times (nth 5 (pubkey_address demo_db_used5) (key_row "" 0 (0, demo_child 0))) = 2 /\
  fst (HierarchicalDeterministic.ensure_address_gap demo_receiving demo_db_used5)
  = Ok ["addr20"; "addr21"; "addr22"; "addr23"; "addr24"; "addr25"]%string /\
  map pa_position
    (skipn 20 (pubkey_address
                 (snd (HierarchicalDeterministic.ensure_address_gap
                         demo_receiving demo_db_used5))))
  = [20; 21; 22; 23; 24; 25] /\
  forall a, fst (HierarchicalDeterministic.ensure_address_gap demo_receiving demo_db_used5)
            <> Ok [a].
Proof.
  vm_compute. repeat split. discriminate.
Qed.

(** ** The constraint compiler *)

Lemma column_operator_unknown (key : string) :
  recognized_suffix key = false -> column_operator key = Some (key, "=").
Proof.
  unfold recognized_suffix, column_operator. intros H.
  repeat (apply orb_false_iff in H; destruct H as [H ?]).
  repeat match goal with E : endswith _ _ = false |- _ => rewrite E; clear E end.
  reflexivity.
Qed.

Lemma column_operator_any (key : string) :
  column_operator key = None -> endswith key "__any" = true.
Proof.
  unfold column_operator.
  repeat match goal with
         | |- context [if endswith key ?s then _ else _] =>
             destruct (endswith key s) eqn:?; try discriminate
         end.
  reflexivity.
Qed.

Lemma loop_without_any
    (rec : dict -> string -> string -> string -> option (result (string * dict)))
    (prepend_key : string) (keys extras : list string) (constraints : dict) :
  Forall (fun key => endswith key "__any" = false) keys ->
  loop rec prepend_key keys extras constraints
  = Some (Ok (extras ++ map (key_fragment prepend_key) keys, constraints)).
Proof.
  intros H. revert extras. induction H as [|key keys Hkey _ IH]; intros extras.
  - cbn [loop map]. now rewrite app_nil_r.
  - cbn [loop map]. unfold key_fragment at 1.
    destruct (column_operator key) as [[col op]|] eqn:E.
    + rewrite IH, <- app_assoc. reflexivity.
    + apply column_operator_any in E. congruence.
Qed.

(** C5, as the code has it: the compiler rejects no key for its suffix.  A
    key that ends in none of the six suffixes is taken whole as the column
    with the operator [=]; a dict without [__any] keys always compiles, to
    the joined fragments of its keys, and is left as it was;
    [{'height__gte': 5}] gives [' AND height__gte = :height__gte']. *)
Theorem unknown_suffix_is_equality :
  (forall key,
     recognized_suffix key = false ->
     column_operator key = Some (key, "=") /\
     key_fragment "" key = (key ++ " = :" ++ key)%string) /\
  (forall constraints,
     constraints <> [] ->
     Forall (fun kv => endswith (fst kv) "__any" = false) constraints ->
     constraints_to_sql constraints
     = Some (Ok ((" AND " ++
                  String.concat " AND " (map (fun kv => key_fragment "" (fst kv)) constraints))%string,
                 constraints))) /\
  constraints_to_sql [("height__gte", VInt 5)]
  = Some (Ok (" AND height__gte = :height__gte", [("height__gte", VInt 5)])).
Proof.
  split; [|split; [|reflexivity]].
  - intros key H. apply column_operator_unknown in H.
    split; [exact H|]. unfold key_fragment. now rewrite H.
  - intros constraints Hne Hany. unfold constraints_to_sql.
    cbn [constraints_to_sql_fuel].
    destruct constraints as [|kv constraints]; [contradiction|].
    rewrite loop_without_any.
    + cbn [app]. rewrite map_map.
      destruct (map _ (kv :: constraints)) eqn:E; [discriminate|reflexivity].
    + apply Forall_forall. intros key Hkey. apply in_map_iff in Hkey.
      destruct Hkey as (kv' & <- & Hkv). rewrite Forall_forall in Hany. now apply Hany.
Qed.

Lemma unknown_suffix_is_equality_witness :
  key_fragment "" "height__gte" = "height__gte = :height__gte" /\
  constraints_to_sql [("height__gte", VInt 5); ("txid__like", VStr "ab%")]
  = Some (Ok (" AND height__gte = :height__gte AND txid LIKE :txid__like",
              [("height__gte", VInt 5); ("txid__like", VStr "ab%")])).
Proof.
  destruct unknown_suffix_is_equality as (H1 & H2 & _). split.
  - apply (H1 "height__gte"). reflexivity.
  - apply (H2 [("height__gte", VInt 5); ("txid__like", VStr "ab%")]).
    + discriminate.
    + repeat constructor.
Defined.

(** C5 as stated fails: a key ending in [__gte], which is not a recognized
    suffix, is not rejected. *)
Lemma unknown_suffix_not_rejected :
  recognized_suffix "height__gte" = false /\
  ~ rejects [("height__gte", VInt 5)].
Proof.
  split; [reflexivity|]. intros [e H]. vm_compute in H. discriminate.
Qed.

(** *** The fuel of [constraints_to_sql] is enough *)

Lemma depth_VDict (d : dict) : depth (VDict d) = S (dict_depth d).
Proof.
  reflexivity.
Qed.

Lemma dict_pop_depth (key : string) (d d' : dict) (v : value) :
  dict_pop key d = Some (v, d') ->
  (depth v <= dict_depth d /\ dict_depth d' <= dict_depth d)%nat.
Proof.
  revert d'. induction d as [|[k w] d IH]; intros d'; cbn [dict_pop dict_depth].
  - discriminate.
  - destruct (String.eqb k key).
    + intros [= <- <-]. lia.
    + destruct (dict_pop key d) as [[v' d'']|]; [|discriminate].
      intros [= <- <-]. destruct (IH d'' eq_refl). cbn [dict_depth]. lia.
Qed.

Lemma dict_set_depth (key : string) (v : value) (d : dict) :
  (dict_depth (dict_set key v d) <= Nat.max (depth v) (dict_depth d))%nat.
Proof.
  induction d as [|[k w] d IH]; cbn [dict_set dict_depth].
  - lia.
  - destruct (String.eqb k key); cbn [dict_depth]; lia.
Qed.

Lemma promote_depth (f : string * value -> string) (sub c : dict) :
  (dict_depth (fold_left (fun c kv => dict_set (f kv) (snd kv) c) sub c)
   <= Nat.max (dict_depth sub) (dict_depth c))%nat.
Proof.
  revert c. induction sub as [|[k w] sub IH]; intros c; cbn [fold_left dict_depth].
  - lia.
  - specialize (IH (dict_set (f (k, w)) w c)). cbn [snd].
    pose proof (dict_set_depth (f (k, w)) w c). lia.
Qed.

Lemma loop_total
    (rec : dict -> string -> string -> string -> option (result (string * dict)))
    (n : nat) :
  (forall sub joiner prepend_sql prepend_key,
     (S (dict_depth sub) <= n)%nat ->
     exists r, rec sub joiner prepend_sql prepend_key = Some r /\
               forall sql c', r = Ok (sql, c') -> (S (dict_depth c') <= n)%nat) ->
  forall keys prepend_key extras c,
    (dict_depth c <= n)%nat ->
    exists r, loop rec prepend_key keys extras c = Some r /\
              forall e c', r = Ok (e, c') -> (dict_depth c' <= n)%nat.
Proof.
  intros Hrec keys prepend_key.
  induction keys as [|key keys IH]; intros extras c Hc; cbn [loop].
  - eexists. split; [reflexivity|]. now intros e c' [= _ <-].
  - destruct (column_operator key) as [[col op]|]; [now apply IH|].
    destruct (dict_pop key c) as [[v c1]|] eqn:Epop.
    + apply dict_pop_depth in Epop. destruct Epop as [Hv Hc1].
      destruct v as [z|s|sub].
      * eexists. split; [reflexivity|discriminate].
      * eexists. split; [reflexivity|discriminate].
      * rewrite depth_VDict in Hv.
        destruct (Hrec sub " OR " "" (key ++ "_")%string) as (r & Er & Hr); [lia|].
        rewrite Er. destruct r as [[sql sub']|e].
        -- apply IH. specialize (Hr sql sub' eq_refl).
           pose proof (promote_depth (fun kv => (key ++ "_" ++ fst kv)%string) sub' c1).
           lia.
        -- eexists. split; [reflexivity|discriminate].
    + eexists. split; [reflexivity|discriminate].
Qed.

Lemma constraints_to_sql_fuel_S (fuel : nat) (c : dict)
    (joiner prepend_sql prepend_key : string) :
  constraints_to_sql_fuel (S fuel) c joiner prepend_sql prepend_key
  = match c with
    | [] => Some (Ok ("", c))
    | _ =>
        match loop (constraints_to_sql_fuel fuel) prepend_key (map fst c) [] c with
        | None => None
        | Some (Raise e) => Some (Raise e)
        | Some (Ok (extras, c')) =>
            Some (Ok (match extras with
                      | [] => ""
                      | _ => (prepend_sql ++ String.concat joiner extras)%string
                      end, c'))
        end
    end.
Proof. reflexivity. Qed.

Lemma fuel_enough (n : nat) :
  forall c joiner prepend_sql prepend_key,
    (dict_depth c <= n)%nat ->
    exists r, constraints_to_sql_fuel (S n) c joiner prepend_sql prepend_key = Some r /\
              forall sql c', r = Ok (sql, c') -> (dict_depth c' <= n)%nat.
Proof.
  induction n as [|n IH]; intros c joiner prepend_sql prepend_key Hc;
    rewrite constraints_to_sql_fuel_S; (destruct c as [|kv c];
      [eexists; split; [reflexivity|intros sql c' [= _ <-]; cbn; lia]|]).
  - destruct (loop_total (constraints_to_sql_fuel 0) 0) with
      (keys := map fst (kv :: c)) (prepend_key := prepend_key)
      (extras := @nil string) (c := kv :: c) as (r & Er & Hr); [intros; lia|exact Hc|].
    rewrite Er. destruct r as [[extras c']|e].
    + eexists. split; [reflexivity|]. intros sql c'' [= _ <-]. now apply (Hr extras).
    + eexists. split; [reflexivity|discriminate].
  - destruct (loop_total (constraints_to_sql_fuel (S n)) (S n)) with
      (keys := map fst (kv :: c)) (prepend_key := prepend_key)
      (extras := @nil string) (c := kv :: c) as (r & Er & Hr); [|exact Hc|].
    + intros sub j ps pk Hsub.
      destruct (IH sub j ps pk) as (r & Er & Hr); [lia|].
      exists r. split; [exact Er|]. intros sql c' E. specialize (Hr sql c' E). lia.
    + rewrite Er. destruct r as [[extras c']|e].
      * eexists. split; [reflexivity|]. intros sql c'' [= _ <-]. now apply (Hr extras).
      * eexists. split; [reflexivity|discriminate].
Qed.

(** [constraints_to_sql] always comes to a result: the SQL or an exception. *)
Lemma fuel_suffices (constraints : dict) : constraints_to_sql constraints <> None.
Proof.
  unfold constraints_to_sql.
  destruct (fuel_enough (dict_depth constraints) constraints " AND " " AND " "")
    as (r & E & _); [lia|].
  now rewrite E.
Qed.

(** ** Funding without an amount *)

Lemma add_keys_exn (account : string) (chain : Z) (keys : list (Z * PubKey))
    (db db1 : DB) (e : exn) :
  add_keys account chain keys db = (Raise e, db1) -> store_exn e.
Proof.
  unfold add_keys, store_exn. destruct keys as [|key keys].
  - intros [= <- _]. tauto.
  - destruct (insert_keys _ _ _ _); [discriminate|]. intros [= <- _]. tauto.
Qed.

Lemma ensure_address_gap_exn (m : AddressManager.t) (db db1 : DB) (e : exn) :
  AddressManager.ensure_address_gap m db = (Raise e, db1) -> store_exn e.
Proof.
  destruct m as [h|s]; cbn [AddressManager.ensure_address_gap].
  - rewrite hd_ensure_address_gap_spec. cbn zeta.
    destruct (_ =? _); [discriminate|].
    unfold HierarchicalDeterministic.generate_keys, bind.
    match goal with |- context [add_keys ?a ?c ?k db] =>
      destruct (add_keys a c k db) as [[[]|e'] d] eqn:E end; [discriminate|].
    intros [= <- _]. eapply add_keys_exn. exact E.
  - rewrite single_ensure_address_gap_spec.
    destruct (single_rows s db); [|discriminate].
    destruct (has_address _ _); [|discriminate].
    intros [= <- _]. unfold store_exn. tauto.
Qed.

Lemma get_addresses_ok (m : AddressManager.t) (limit : option Z) (only_usable : bool)
    (db : DB) :
  exists addresses, AddressManager.get_addresses m limit only_usable db = (Ok addresses, db).
Proof.
  unfold AddressManager.get_addresses. destruct m as [h|s].
  - eexists. reflexivity.
  - eexists. reflexivity.
Qed.

Lemma get_or_create_exn (m : AddressManager.t) (db db1 : DB) (e : exn) :
  AddressManager.get_or_create_usable_address m db = (Raise e, db1) -> store_exn e.
Proof.
  unfold AddressManager.get_or_create_usable_address.
  destruct (get_addresses_ok m (Some 1) true db) as (addresses & E).
  erewrite bind_ok by exact E.
  destruct addresses as [|a rest]; [|discriminate].
  unfold bind.
  destruct (AddressManager.ensure_address_gap m db) as [[[|a rest]|e'] d] eqn:G.
  - intros [= <- _]. unfold store_exn. tauto.
  - discriminate.
  - intros [= <- _]. eapply ensure_address_gap_exn. exact G.
Qed.

Lemma bind_raise_inv {A B} (m : M A) (k : A -> M B) (db db1 : DB) (e : exn) :
  bind m k db = (Raise e, db1) ->
  m db = (Raise e, db1) \/ exists a d, m db = (Ok a, d) /\ k a d = (Raise e, db1).
Proof.
  unfold bind. destruct (m db) as [[a|e'] d]; intros H.
  - right. exists a, d. split; [reflexivity|exact H].
  - left. injection H as -> ->. reflexivity.
Qed.

Lemma call_raise {A} (c : collaborator A) (db db1 : DB) (e : exn) :
  call c db = (Raise e, db1) -> exists tag, e = CollaboratorError tag.
Proof.
  unfold call. destruct (c db) as [[tag|a] d]; intros [= <- _]. now exists tag.
Qed.

(** Follows an exception back to the call that raised it and discards the
    calls that cannot raise a ValueError. *)
Ltac raised H :=
  lazymatch type of H with
  | bind _ _ _ = (Raise _, _) =>
      apply bind_raise_inv in H; destruct H as [H|(? & ? & _ & H)]; raised H
  | call _ _ = (Raise _, _) =>
      apply call_raise in H; destruct H as [? H]; discriminate H
  | (if ?b then _ else _) _ = _ => destruct b; raised H
  | ret _ _ = _ => discriminate H
  | _ => idtac
  end.

(** C8: with [everything=False] and [amount] left at [None], [fund] raises
    TypeError (once the ledgers of the two accounts are the same) and touches
    nothing; it raises its ValueError exactly when [everything] is false and
    [amount] is an int that is 0 or negative. *)
Theorem fund_without_amount :
  forall (TxOutput TxInput Tx Utxo : Type)
         (get_unspent_outputs : Account -> dict -> collaborator (list Utxo))
         (ledger_reserve_outputs : list Utxo -> collaborator unit)
         (ledger_release_outputs ledger_broadcast : Tx -> collaborator unit)
         (address_to_hash160 : string -> collaborator bytes)
         (spend : Utxo -> TxInput)
         (pay_pubkey_hash : Z -> bytes -> TxOutput)
         (create : list TxInput -> list TxOutput -> list Account -> Account ->
                   collaborator Tx)
         (self to_account : Account) (outputs : Z) (broadcast : bool)
         (constraints : dict) (db : DB),
    ledger self = ledger to_account ->
    let fund_ :=
      fund get_unspent_outputs ledger_reserve_outputs ledger_release_outputs
        ledger_broadcast address_to_hash160 spend pay_pubkey_hash create
        self to_account in
    fund_ None false outputs broadcast constraints db = (Raise TypeError, db) /\
    forall amount everything db1,
      fund_ amount everything outputs broadcast constraints db = (Raise ValueError, db1)
      <-> (everything = false /\ db1 = db /\ exists n, amount = Some n /\ n <= 0).
Proof.
  intros TxOutput TxInput Tx Utxo get_unspent_outputs ledger_reserve_outputs
    ledger_release_outputs ledger_broadcast address_to_hash160 spend pay_pubkey_hash
    create self to_account outputs broadcast constraints db Hledger fund_.
  assert (Hsame : negb (String.eqb (ledger self) (ledger to_account)) = false)
    by (rewrite Hledger, String.eqb_refl; reflexivity).
  unfold fund_, fund. rewrite Hsame. split; [reflexivity|].
  intros amount everything db1. split.
  - destruct everything;
      [|destruct amount as [n|]; [destruct (Z.ltb_spec 0 n) as [Hpos|Hneg]|]];
      lazy iota; intros Hr.
    + raised Hr.
    + raised Hr. apply get_or_create_exn in Hr.
      destruct Hr as [Hr|[Hr|Hr]]; discriminate Hr.
    + injection Hr as <-. repeat split. now exists n.
    + discriminate Hr.
  - intros (-> & -> & n & -> & Hn).
    destruct (Z.ltb_spec 0 n) as [Hpos|_]; [lia|reflexivity].
Qed.

Lemma fund_without_amount_witness :
  let fund_ :=
    fund (fun _ _ db => (inr (@nil unit), db)) (fun _ db => (inr tt, db))
      (fun _ db => (inr tt, db)) (fun _ db => (inr tt, db))
      (fun _ db => (inr (@nil byte), db)) (fun _ : unit => tt) (fun _ _ => tt)
      (fun (_ : list unit) (_ : list unit) _ _ db => (inr tt, db))
      {| ledger := "btc"; receiving := AddressManager.Single demo_single;
         change := AddressManager.Single demo_single |}
      {| ledger := "btc"; receiving := AddressManager.Deterministic demo_receiving;
         change := AddressManager.Deterministic demo_receiving |} in
  fund_ None false 1 false [] empty_db = (Raise TypeError, empty_db) /\
  fund_ (Some 0) false 1 false [] empty_db = (Raise ValueError, empty_db).
Proof.
  intros fund_.
  destruct (fund_without_amount unit unit unit unit
              (fun _ _ db => (inr (@nil unit), db)) (fun _ db => (inr tt, db))
              (fun _ db => (inr tt, db)) (fun _ db => (inr tt, db))
              (fun _ db => (inr (@nil byte), db)) (fun _ : unit => tt) (fun _ _ => tt)
              (fun (_ : list unit) (_ : list unit) _ _ db => (inr tt, db))
              {| ledger := "btc"; receiving := AddressManager.Single demo_single;
                 change := AddressManager.Single demo_single |}
              {| ledger := "btc"; receiving := AddressManager.Deterministic demo_receiving;
                 change := AddressManager.Deterministic demo_receiving |}
              1 false [] empty_db eq_refl) as [H1 H2].
  split; [exact H1|].
  apply H2. repeat split. exists 0. split; [reflexivity|lia].
Defined.

(** ** The scenarios on the demo store *)

(** C2 as stated fails for [save_tx = 'insert']: the first call commits, the
    same call again raises IntegrityError (and leaves the store as it was). *)
Lemma save_transaction_io_insert_twice_raises :
  save_transaction_io "insert" demo_tx 7 true "addr0" [xa0] "tx1:7:" demo_db_filled
  = (Ok tt, demo_db_ingested) /\
  save_transaction_io "insert" demo_tx 7 true "addr0" [xa0] "tx1:7:" demo_db_ingested
  = (Raise IntegrityError, demo_db_ingested).
Proof. vm_compute. split; reflexivity. Qed.

Lemma save_transaction_io_again_witness :
  save_transaction_io "update" demo_tx 8 true "addr0" [xa0] "tx1:8:"
    (snd (save_transaction_io "update" demo_tx 8 true "addr0" [xa0] "tx1:8:"
            demo_db_ingested))
  = (Ok tt,
     snd (save_transaction_io "update" demo_tx 8 true "addr0" [xa0] "tx1:8:"
            demo_db_ingested)).
Proof.
  apply (save_transaction_io_again "update" demo_tx 8 true "addr0" [xa0] "tx1:8:"
           demo_db_ingested).
  vm_compute. reflexivity.
Defined.

Lemma used_times_follows_history_witness :
  pa_used_times (nth 5 (pubkey_address demo_db_used5) (key_row "" 0 (0, demo_child 0)))
  = count_colon "a:1:b:2:" / 2 /\
  pa_used_times (nth 0 (pubkey_address demo_db_ingested) (key_row "" 0 (0, demo_child 0)))
  = count_colon "tx1:7:" / 2 /\
  Forall history_consistent
    (pubkey_address (run_call (SetAddressHistory "addr5" "a:1:b:2:") demo_db_filled)).
Proof.
  destruct used_times_follows_history as (H1 & H2 & H3). split; [|split].
  - destruct (H1 "addr5" "a:1:b:2:" demo_db_filled) as (_ & _ & K).
    apply K; [|reflexivity]. vm_compute. tauto.
  - destruct (H2 "insert" demo_tx 7 true "addr0" [xa0] "tx1:7:" demo_db_filled
                demo_db_ingested) as (_ & K); [vm_compute; reflexivity|].
    apply K; [|reflexivity]. vm_compute. tauto.
  - apply H3. vm_compute. repeat constructor.
Defined.

Lemma single_ignores_limit_and_usable_witness :
  AddressManager.get_addresses (AddressManager.Single demo_single) (Some 1) true
    demo_db_single_used = (Ok ["master"%string], demo_db_single_used) /\
  AddressManager.get_or_create_usable_address (AddressManager.Single demo_single)
    demo_db_single_used = (Ok "master"%string, demo_db_single_used) /\
  map pa_used_times (pubkey_address demo_db_single_used) = [4].
Proof.
  destruct (single_ignores_limit_and_usable demo_single demo_db_single_used) as [_ H].
  destruct (H (nth 0 (pubkey_address demo_db_single_used) (single_row demo_single)) [])
    as [H1 H2]; [reflexivity|].
  split; [exact H1|]. split; [exact H2|reflexivity].
Defined.


(** * More of the database and of the managers *)

(** ** Properties kept by every call *)

Lemma inv_ret {A} (I : DB -> Prop) (a : A) : keeps I (ret a).
Proof. intros db H. exact H. Qed.


Lemma inv_bind {A B} (I : DB -> Prop) (m : M A) (k : A -> M B) :
  keeps I m -> (forall a, keeps I (k a)) -> keeps I (bind m k).
Proof.
  intros Hm Hk db H. unfold bind. specialize (Hm db H).
  destruct (m db) as [[a|e] db1]; cbn [snd] in *.
  - now apply Hk.
  - exact Hm.
Qed.

Lemma inv_for_each {A} (I : DB -> Prop) (l : list A) (body : A -> M unit) :
  (forall a, keeps I (body a)) -> keeps I (for_each l body).
Proof.
  intros Hb. induction l as [|a l IH]; cbn [for_each].
  - apply inv_ret.
  - apply inv_bind; [apply Hb|]. intros _. exact IH.
Qed.

Lemma inv_if {A} (I : DB -> Prop) (b : bool) (m1 m2 : M A) :
  keeps I m1 -> keeps I m2 -> keeps I (if b then m1 else m2).
Proof. now destruct b. Qed.

Lemma inv_runInteraction {A} (I : DB -> Prop) (m : M A) :
  keeps I m -> keeps I (runInteraction m).
Proof.
  intros Hm db H. unfold runInteraction. specialize (Hm db H).
  destruct (m db) as [[a|e] db1]; cbn [snd] in *; assumption.
Qed.


Lemma existsb_key_false {A} (key : A -> string) (k : string) (l : list A) :
  existsb (fun r => String.eqb (key r) k) l = false -> ~ In k (map key l).
Proof.
  intros H Hin. apply in_map_iff in Hin. destruct Hin as (r & E & Hr).
  assert (K : existsb (fun r => String.eqb (key r) k) l = true).
  { apply existsb_exists. exists r. split; [exact Hr|]. rewrite E. apply String.eqb_refl. }
  congruence.
Qed.

Lemma NoDup_snoc {A} (a : A) (l : list A) : ~ In a l -> NoDup l -> NoDup (l ++ [a]).
Proof.
  intros Ha Hl. apply NoDup_app.
  - exact Hl.
  - repeat constructor. intros [].
  - intros x Hx [<-|[]]. contradiction.
Qed.



Lemma set_history_address (addr history : string) (r : pubkey_address_row) :
  pa_address (set_history addr history r) = pa_address r.
Proof. unfold set_history. now destruct (String.eqb (pa_address r) addr). Qed.

Lemma keys_set_address_history (addr history : string) :
  keeps keys_unique (_set_address_history addr history).
Proof.
  intros db (Ha & Ht & Ho). unfold _set_address_history. cbn [snd].
  repeat split; cbn [with_pubkey_address pubkey_address tx txo]; try assumption.
  now rewrite map_map, (map_ext _ pa_address (set_history_address addr history)).
Qed.

Lemma keys_insert_tx (row : tx_row) : keeps keys_unique (insert_tx row).
Proof.
  intros db (Ha & Ht & Ho). unfold insert_tx.
  destruct (existsb _ (tx db)) eqn:E; [now repeat split|].
  cbn [snd]. repeat split; cbn [with_tx pubkey_address tx txo]; try assumption.
  rewrite map_app. apply NoDup_snoc; [|exact Ht].
  now apply (existsb_key_false tx_txid).
Qed.

Lemma keys_update_tx (txid : string) (height : Z) (v : bool) :
  keeps keys_unique (update_tx txid height v).
Proof.
  intros db (Ha & Ht & Ho). unfold update_tx. cbn [snd].
  repeat split; cbn [with_tx pubkey_address tx txo]; try assumption.
  rewrite map_map. erewrite map_ext; [exact Ht|].
  intros r. cbn beta. now destruct (String.eqb (tx_txid r) txid).
Qed.

Lemma keys_insert_txo (row : txo_row) : keeps keys_unique (insert_txo row).
Proof.
  intros db (Ha & Ht & Ho). unfold insert_txo.
  destruct (existsb _ (txo db)) eqn:E; [now repeat split|].
  cbn [snd]. repeat split; cbn [with_txo pubkey_address tx txo]; try assumption.
  rewrite map_app. apply NoDup_snoc; [|exact Ho].
  now apply (existsb_key_false txo_txoid).
Qed.

Lemma keys_insert_txi (row : txi_row) : keeps keys_unique (insert_txi row).
Proof. intros db H. exact H. Qed.


Lemma keys_steps (save_tx : string) (t : Transaction) (height : Z) (v : bool)
    (addr : string) (txhash : bytes) (history : string) :
  keeps keys_unique (_steps save_tx t height v addr txhash history).
Proof.
  unfold _steps. apply inv_bind.
  { unfold save_tx_row. repeat apply inv_if;
      first [apply keys_insert_tx|apply keys_update_tx|apply inv_ret]. }
  intros _. apply inv_bind; [intros db H; exact H|]. intros existing.
  apply inv_bind.
  { apply inv_for_each. intros o. unfold save_output.
    repeat apply inv_if; first [apply keys_insert_txo|apply inv_ret]. }
  intros _. cbn zeta. apply inv_bind; [intros db H; exact H|]. intros to_address.
  apply inv_bind; [intros db H; exact H|]. intros linked.
  apply inv_bind.
  { apply inv_for_each. intros i. unfold save_input. cbn zeta.
    apply inv_if; first [apply keys_insert_txi|apply inv_ret]. }
  intros _. apply keys_set_address_history.
Qed.





(** ** What an ingestion appends *)


Lemma save_tx_row_other_tables (save_tx : string) (t : Transaction) (height : Z)
    (v : bool) (db d1 : DB) :
  save_tx_row save_tx t height v db = (Ok tt, d1) ->
  txo d1 = txo db /\ txi d1 = txi db /\ pubkey_address d1 = pubkey_address db.
Proof.
  unfold save_tx_row, insert_tx, update_tx, ret.
  destruct (String.eqb save_tx "insert").
  - destruct (existsb _ (tx db)); [discriminate|]. now intros [= <-].
  - destruct (String.eqb save_tx "update"); now intros [= <-].
Qed.

(** The tables after a [save_transaction_io] that committed. *)
Lemma commit_tables (save_tx : string) (t : Transaction) (height : Z) (v : bool)
    (addr : string) (txhash : bytes) (history : string) (db db1 : DB) :
  save_transaction_io save_tx t height v addr txhash history db = (Ok tt, db1) ->
  txo db1
  = txo db ++
    map (txo_to_row t addr)
      (filter (stores_output txhash
                 (map txo_position
                    (filter (fun r => String.eqb (txo_txid r) (id t)) (txo db))))
         (outputs t)) /\
  txi db1
  = txi db ++
    map (input_row t addr)
      (filter (links_input addr
                 (map (fun r => (txo_txoid r, txo_address r))
                    (filter (fun r => mem_string (txo_txoid r) (map txo_ref_id (inputs t)))
                       (txo db1)))
                 (map txi_txoid
                    (filter (fun r => String.eqb (txi_txid r) (id t)) (txi db))))
         (inputs t)) /\
  pubkey_address db1 = map (set_history addr history) (pubkey_address db) /\
  exists d1, save_tx_row save_tx t height v db = (Ok tt, d1) /\ tx db1 = tx d1.
Proof.
  unfold save_transaction_io, runInteraction. intros H.
  destruct (_steps save_tx t height v addr txhash history db) as [[[]|e] d] eqn:E;
    [|discriminate].
  injection H as ->. apply steps_tables in E.
  destruct E as (d1 & E1 & Htx & Htxo & Htxi & Hpa).
  destruct (save_tx_row_other_tables _ _ _ _ _ _ E1) as (Eo & Ei & Ea).
  cbn zeta in Htxo, Htxi. rewrite Eo in Htxo. rewrite Ei in Htxi. rewrite Ea in Hpa.
  repeat split; try assumption. now exists d1.
Qed.

Lemma dict_get_In {V} (key : string) (rows : list (string * V)) (v : V) :
  dict_get key rows = Some v -> In (key, v) rows.
Proof.
  unfold dict_get.
  destruct (find (fun kv => String.eqb (fst kv) key) (rev rows)) as [[k w]|] eqn:E;
    [|discriminate].
  intros [= <-]. apply find_some in E. destruct E as [Hin Hk].
  apply String.eqb_eq in Hk. cbn [fst snd] in *. subst k. now apply in_rev.
Qed.

Lemma NoDup_fst_unique {V} (rows : list (string * V)) (k : string) (v w : V) :
  NoDup (map fst rows) -> In (k, v) rows -> In (k, w) rows -> v = w.
Proof.
  induction rows as [|[k0 v0] rows IH]; cbn [map fst]; [contradiction|].
  intros Hnd Hv Hw. inversion Hnd as [|? ? Hnotin Hnd']; subst.
  destruct Hv as [Hv|Hv]; destruct Hw as [Hw|Hw].
  - congruence.
  - exfalso. injection Hv as -> _. apply Hnotin. apply in_map_iff. now exists (k, w).
  - exfalso. injection Hw as -> _. apply Hnotin. apply in_map_iff. now exists (k, v).
  - now apply IH.
Qed.

Lemma dict_get_unique {V} (key : string) (rows : list (string * V)) (v : V) :
  NoDup (map fst rows) -> In (key, v) rows -> dict_get key rows = Some v.
Proof.
  intros Hnd Hin. unfold dict_get.
  destruct (find (fun kv => String.eqb (fst kv) key) (rev rows)) as [[k w]|] eqn:E.
  - apply find_some in E. destruct E as [Hin' Hk].
    apply String.eqb_eq in Hk. cbn [fst snd] in *. subst k.
    apply in_rev in Hin'. f_equal. now apply (NoDup_fst_unique rows key).
  - exfalso. apply in_rev in Hin.
    pose proof (find_none _ _ E (key, v) Hin) as K. cbn [fst] in K.
    rewrite String.eqb_refl in K. discriminate.
Qed.



Lemma NoDup_txoid_filter (p : txo_row -> bool) (l : list txo_row) :
  NoDup (map txo_txoid l) -> NoDup (map txo_txoid (filter p l)).
Proof.
  induction l as [|x l IH]; cbn [map filter]; [auto|].
  intros Hx. inversion Hx as [|? ? Hn Hl]; subst.
  destruct (p x); cbn [map]; [|now apply IH].
  constructor; [|now apply IH]. intros Hin. apply Hn.
  apply in_map_iff in Hin. destruct Hin as (y & Ey & Hy).
  apply filter_In in Hy. apply in_map_iff. exists y. tauto.
Qed.

(** An input that spends an output stored under the ingesting address is
    linked once the call committed. *)
Lemma spent_input_linked (save_tx : string) (t : Transaction) (height : Z) (v : bool)
    (addr : string) (txhash : bytes) (history : string) (db db1 : DB)
    (i : Input) (row : txo_row) :
  save_transaction_io save_tx t height v addr txhash history db = (Ok tt, db1) ->
  NoDup (map txo_txoid (txo db1)) ->
  In i (inputs t) -> In row (txo db1) ->
  txo_txoid row = txo_ref_id i -> txo_address row = addr ->
  exists r, In r (txi db1) /\ txi_txid r = id t /\ txi_txoid r = txo_ref_id i.
Proof.
  intros H Hnd Hi Hrow Eid Eaddr.
  apply commit_tables in H. destruct H as (_ & Htxi & _).
  set (to_address := map (fun r => (txo_txoid r, txo_address r))
                       (filter (fun r => mem_string (txo_txoid r)
                                           (map txo_ref_id (inputs t))) (txo db1))) in *.
  set (existing := map txi_txoid
                     (filter (fun r => String.eqb (txi_txid r) (id t)) (txi db))) in *.
  destruct (mem_string (txo_ref_id i) existing) eqn:Eex.
  - unfold mem_string in Eex. apply existsb_exists in Eex.
    destruct Eex as (x & Hx & Exi). apply String.eqb_eq in Exi. subst x.
    unfold existing in Hx. apply in_map_iff in Hx. destruct Hx as (r & Er & Hr).
    apply filter_In in Hr. destruct Hr as [Hr Htx].
    exists r. rewrite Htxi. split; [apply in_or_app; now left|].
    split; [now apply String.eqb_eq|exact Er].
  - exists (input_row t addr i). rewrite Htxi. split; [|now split].
    apply in_or_app. right. apply in_map. apply filter_In. split; [exact Hi|].
    unfold links_input. rewrite Eex. cbn [negb andb].
    rewrite (dict_get_unique (txo_ref_id i) to_address addr).
    + cbn [option_string_eqb]. apply String.eqb_refl.
    + unfold to_address. rewrite map_map. cbn [fst]. now apply NoDup_txoid_filter.
    + unfold to_address. apply in_map_iff. exists row. split; [now rewrite Eid, Eaddr|].
      apply filter_In. split; [exact Hrow|]. rewrite Eid.
      apply mem_string_In. now apply in_map.
Qed.

(** X3: ingestion links an input only to an output of our own.  After a
    call that committed, the txi table is the old table followed by rows
    under the txid of the transaction and the ingesting address, each for an
    input whose txoid is stored in txo under that address; and, the txoids of
    txo being unique, every input that spends an output stored under the
    address has a txi row of the transaction. *)
Theorem ingestion_links_only_own_inputs :
  forall save_tx t height is_verified addr txhash history db db1,
    save_transaction_io save_tx t height is_verified addr txhash history db
    = (Ok tt, db1) ->
    (exists new,
       txi db1 = txi db ++ new /\
       forall r, In r new ->
         txi_txid r = id t /\ txi_address r = addr /\
         exists i row, In i (inputs t) /\ txi_txoid r = txo_ref_id i /\
                       In row (txo db1) /\ txo_txoid row = txo_ref_id i /\
                       txo_address row = addr) /\
    (NoDup (map txo_txoid (txo db1)) ->
     forall i row,
       In i (inputs t) -> In row (txo db1) ->
       txo_txoid row = txo_ref_id i -> txo_address row = addr ->
       exists r, In r (txi db1) /\ txi_txid r = id t /\ txi_txoid r = txo_ref_id i).
Proof.
  intros save_tx t height v addr txhash history db db1 H.
  split.
  - apply commit_tables in H. destruct H as (_ & Htxi & _).
    eexists. split; [exact Htxi|]. intros r Hr.
    apply in_map_iff in Hr. destruct Hr as (i & <- & Hi).
    apply filter_In in Hi. destruct Hi as [Hi Hl].
    unfold links_input in Hl. apply andb_true_iff in Hl. destruct Hl as [_ Hm].
    unfold option_string_eqb in Hm.
    match type of Hm with context [dict_get ?k ?d] =>
      destruct (dict_get k d) as [a|] eqn:Eget; [|discriminate] end.
    apply String.eqb_eq in Hm. subst a. apply dict_get_In in Eget.
    apply in_map_iff in Eget.
    destruct Eget as (row & [= E1 E2] & Hrow). apply filter_In in Hrow.
    repeat split. exists i, row. repeat split; try assumption. tauto.
  - intros Hnd i row. now apply (spent_input_linked save_tx t height v addr txhash history db).
Qed.

Lemma ingestion_links_only_own_inputs_witness :
  map txi_txoid (txi demo_db_spent) = ["tx1:0"%string] /\
  exists r, In r (txi demo_db_spent) /\ txi_txid r = "tx2"%string /\
            txi_txoid r = "tx1:0"%string.
Proof.
  destruct (ingestion_links_only_own_inputs "insert" demo_spend_tx 9 false "addr0" [xa0]
              "tx1:7:tx2:9:" demo_db_ingested demo_db_spent) as [_ H].
  - vm_compute. reflexivity.
  - split; [reflexivity|].
    apply (H ltac:(vm_compute; repeat constructor; simpl; tauto)
             {| txo_ref_id := "tx1:0" |}
             (nth 0 (txo demo_db_spent) (txo_to_row demo_tx "" (nth 0 (outputs demo_tx)
                {| out_id := ""; out_position := 0; out_amount := 0;
                   out_script := {| is_pay_pubkey_hash := false;
                                    is_pay_script_hash := false;
                                    pubkey_hash := []; source := [] |} |}))));
      [now left|now left|reflexivity|reflexivity].
Defined.


(** ** Looking up what was written *)

Lemma existsb_false_filter {A} (p : A -> bool) (l : list A) :
  existsb p l = false -> filter p l = [].
Proof.
  induction l as [|a l IH]; cbn [existsb filter]; [reflexivity|].
  intros H. apply orb_false_iff in H. destruct H as [Ha Hl]. rewrite Ha. now apply IH.
Qed.

Lemma filter_map_commute {A} (p : A -> bool) (f : A -> A) (l : list A) :
  (forall a, p (f a) = p a) -> filter p (map f l) = map f (filter p l).
Proof.
  intros H. induction l as [|a l IH]; cbn [map filter]; [reflexivity|].
  rewrite H. destruct (p a); cbn [map]; now rewrite IH.
Qed.

Lemma map_filter_fixed {A} (p : A -> bool) (f : A -> A) (l : list A) :
  (forall a, p a = true -> f a = a) -> map f (filter p l) = filter p l.
Proof.
  intros H. induction l as [|a l IH]; cbn [filter]; [reflexivity|].
  destruct (p a) eqn:E; cbn [map]; [|exact IH]. now rewrite IH, H.
Qed.

(** X4: [get_transaction] reads back what an ingestion wrote.  After a
    committed call with [save_tx = 'insert'] it returns the raw bytes, the
    height and the flag of the call; with ['update'] it returns the stored
    raw bytes with the new height and flag, or the triple
    [(None, None, False)] when the txid was not stored; with any other
    [save_tx] and for every other txid the answer is the one it gave
    before. *)
Theorem get_transaction_after_ingestion :
  forall save_tx t height is_verified addr txhash history db db1,
    save_transaction_io save_tx t height is_verified addr txhash history db
    = (Ok tt, db1) ->
    (save_tx = "insert" ->
     get_transaction (id t) db = (Ok (None, None, false), db) /\
     get_transaction (id t) db1 = (Ok (Some (raw t), Some height, is_verified), db1)) /\
    (save_tx = "update" ->
     get_transaction (id t) db1
     = (Ok (match fst (get_transaction (id t) db) with
            | Ok (Some stored, _, _) => (Some stored, Some height, is_verified)
            | _ => (None, None, false)
            end), db1)) /\
    (save_tx <> "insert" -> save_tx <> "update" ->
     fst (get_transaction (id t) db1) = fst (get_transaction (id t) db)) /\
    (forall txid, txid <> id t ->
     fst (get_transaction txid db1) = fst (get_transaction txid db)).
Proof.
  intros save_tx t height v addr txhash history db db1 H.
  apply commit_tables in H. destruct H as (_ & _ & _ & d1 & E1 & Htx).
  unfold save_tx_row, insert_tx, update_tx, ret in E1.
  unfold get_transaction. rewrite Htx. clear Htx.
  split; [|split; [|split]].
  - intros ->. cbn [String.eqb Ascii.eqb Bool.eqb] in E1.
    destruct (existsb _ (tx db)) eqn:Ex; [discriminate|]. injection E1 as <-.
    cbn [tx_txid] in Ex.
    cbn [tx with_tx]. rewrite filter_app, (existsb_false_filter _ _ Ex).
    cbn [app filter tx_txid]. rewrite String.eqb_refl. now split.
  - intros ->. cbn [String.eqb Ascii.eqb Bool.eqb] in E1. injection E1 as <-.
    cbn [tx with_tx]. rewrite filter_map_commute.
    + destruct (filter _ (tx db)) as [|r rest] eqn:Ef; cbn [map fst]; [reflexivity|].
      assert (Hr : In r (filter (fun r => String.eqb (tx_txid r) (id t)) (tx db)))
        by (rewrite Ef; now left).
      apply filter_In in Hr. destruct Hr as [_ Hr]. now rewrite Hr.
    + intros r. now destruct (String.eqb (tx_txid r) (id t)) eqn:E.
  - intros Hi Hu. apply String.eqb_neq in Hi. apply String.eqb_neq in Hu.
    rewrite Hi, Hu in E1. injection E1 as <-.
    now destruct (filter _ (tx db)).
  - intros txid Hne.
    assert (Ef : filter (fun r => String.eqb (tx_txid r) txid) (tx d1)
                 = filter (fun r => String.eqb (tx_txid r) txid) (tx db)).
    { destruct (String.eqb save_tx "insert").
      - destruct (existsb _ (tx db)); [discriminate|]. injection E1 as <-.
        cbn [tx with_tx]. rewrite filter_app. cbn [filter tx_txid].
        apply String.eqb_neq in Hne. rewrite String.eqb_sym, Hne. apply app_nil_r.
      - destruct (String.eqb save_tx "update"); injection E1 as <-; [|reflexivity].
        cbn [tx with_tx]. rewrite filter_map_commute.
        + apply map_filter_fixed. intros r Hr. apply String.eqb_eq in Hr.
          destruct (String.eqb_spec (tx_txid r) (id t)); [congruence|reflexivity].
        + intros r. now destruct (String.eqb (tx_txid r) (id t)). }
    rewrite Ef. now destruct (filter _ (tx db)).
Qed.

Lemma get_transaction_after_ingestion_witness :
  get_transaction "tx1" demo_db_ingested = (Ok (Some [x01; x02], Some 7, true), demo_db_ingested) /\
  fst (get_transaction "tx0" demo_db_ingested) = Ok (None, None, false).
Proof.
  destruct (get_transaction_after_ingestion "insert" demo_tx 7 true "addr0" [xa0] "tx1:7:"
              demo_db_filled demo_db_ingested) as (H1 & _ & _ & H4).
  - vm_compute. reflexivity.
  - split; [now apply H1|]. rewrite (H4 "tx0"); [reflexivity|discriminate].
Defined.

Lemma hd_filter_fresh (a : string) (rows new : list pubkey_address_row)
    (r : pubkey_address_row) :
  has_address a rows = false ->
  hd_error (filter (fun x => String.eqb (pa_address x) a) new) = Some r ->
  hd_error (filter (fun x => String.eqb (pa_address x) a) (rows ++ new)) = Some r.
Proof.
  unfold has_address. intros H Hr. now rewrite filter_app, (existsb_false_filter _ _ H).
Qed.

Lemma fresh_keys_rows (account : string) (chain : Z) (keys : list (Z * PubKey))
    (key : Z * PubKey) :
  distinct (map (fun k => address (snd k)) keys) = true ->
  In key keys ->
  hd_error (filter (fun x => String.eqb (pa_address x) (address (snd key)))
              (map (key_row account chain) keys))
  = Some (key_row account chain key).
Proof.
  induction keys as [|k keys IH]; [contradiction|].
  cbn [map distinct filter key_row pa_address]. intros Hd Hin.
  apply andb_true_iff in Hd. destruct Hd as [Hk Hd]. apply negb_true_iff in Hk.
  destruct Hin as [->|Hin].
  - now rewrite String.eqb_refl.
  - destruct (String.eqb_spec (address (snd k)) (address (snd key))) as [E|E].
    + exfalso. assert (K : mem_string (address (snd k))
                              (map (fun k => address (snd k)) keys) = true).
      { apply mem_string_In. rewrite E. apply in_map_iff. now exists key. }
      congruence.
    + now apply IH.
Qed.

(** X5: [get_address] reads back what [add_keys] inserted.  After an
    [add_keys] that returned, every key of the call is found under its
    address with the account, chain, position and public key of the call, no
    history and a used_times of 0, and the answer for every other address
    is the one given before; an address that is in no row gives [None]. *)
Theorem get_address_after_add_keys :
  forall account chain keys db db1,
    add_keys account chain keys db = (Ok tt, db1) ->
    (forall key, In key keys ->
       get_address (address (snd key)) db1
       = (Ok (Some {| pa_address := address (snd key);
                      pa_account := account;
                      pa_chain := chain;
                      pa_position := fst key;
                      pa_pubkey := pubkey_bytes (snd key);
                      pa_history := None;
                      pa_used_times := 0 |}), db1) /\
       get_address (address (snd key)) db = (Ok None, db)) /\
    (forall a, ~ In a (map (fun key => address (snd key)) keys) ->
       fst (get_address a db1) = fst (get_address a db)).
Proof.
  intros account chain keys db db1 H.
  assert (Hne : keys <> []) by (intros ->; discriminate H).
  rewrite add_keys_spec in H by exact Hne.
  destruct (fresh_keys keys (pubkey_address db)) eqn:Ef; [|discriminate].
  injection H as <-. unfold fresh_keys in Ef. apply andb_true_iff in Ef.
  destruct Ef as [Hd Hall]. rewrite forallb_forall in Hall.
  unfold get_address. cbn [with_pubkey_address pubkey_address fst]. split.
  - intros key Hin. specialize (Hall key Hin). apply negb_true_iff in Hall. split.
    + f_equal. f_equal.
      apply hd_filter_fresh; [exact Hall|].
      now apply fresh_keys_rows.
    + unfold has_address in Hall. now rewrite (existsb_false_filter _ _ Hall).
  - intros a Ha. f_equal. f_equal. rewrite filter_app.
    rewrite (existsb_false_filter _ (map _ _)); [apply app_nil_r|].
    apply not_true_iff_false. intros E. apply existsb_exists in E.
    destruct E as (r & Hr & Er). apply in_map_iff in Hr. destruct Hr as (k & <- & Hk).
    cbn [key_row pa_address] in Er. apply String.eqb_eq in Er. apply Ha.
    apply in_map_iff. now exists k.
Qed.

Lemma get_address_after_add_keys_witness :
  fst (get_address "addr3" demo_db_filled)
  = Ok (Some (key_row "master" 0 (3, demo_child 3))) /\
  fst (get_address "addr3" empty_db) = Ok None.
Proof.
  destruct (get_address_after_add_keys "master" 0
              (HierarchicalDeterministic.new_keys demo_receiving 0 19)
              empty_db demo_db_filled) as [H _].
  - vm_compute. reflexivity.
  - destruct (H (3, demo_child 3)) as [H1 H2].
    + vm_compute. tauto.
    + split; [exact (f_equal fst H1)|exact (f_equal fst H2)].
Defined.


(** ** Reserving, releasing and listing outputs *)

(** The UPDATE of [reserve_outputs] on one row. *)
Lemma reserve_outputs_spec (txoids : list string) (flag : bool) (db : DB) :
  reserve_outputs txoids flag db
  = (Ok tt,
     with_txo
       (map (fun r =>
          if mem_string (txo_txoid r) txoids
          then {| txo_txid := txo_txid r; txo_txoid := txo_txoid r;
                  txo_address := txo_address r; txo_position := txo_position r;
                  txo_amount := txo_amount r; txo_script := txo_script r;
                  txo_is_reserved := flag |}
          else r) (txo db)) db).
Proof. reflexivity. Qed.

(** X6: [release_outputs] undoes [reserve_outputs].  Releasing a set of
    outputs after reserving it leaves the store as releasing alone does, and
    when none of the outputs was reserved before, the store is the one
    before the reservation; neither call touches an output outside the
    set. *)
Theorem release_undoes_reserve :
  forall (txoids : list string) (db : DB),
    snd (release_outputs txoids (snd (reserve_outputs txoids true db)))
    = snd (release_outputs txoids db) /\
    ((forall r, In r (txo db) -> mem_string (txo_txoid r) txoids = true ->
                txo_is_reserved r = false) ->
     snd (release_outputs txoids (snd (reserve_outputs txoids true db))) = db) /\
    (forall flag r,
       In r (txo db) -> mem_string (txo_txoid r) txoids = false ->
       In r (txo (snd (reserve_outputs txoids flag db)))).
Proof.
  intros txoids db. unfold release_outputs. rewrite !reserve_outputs_spec.
  cbn [snd with_txo txo tx txi pubkey_address].
  assert (E : forall l,
             map (fun r =>
                    if mem_string (txo_txoid r) txoids
                    then {| txo_txid := txo_txid r; txo_txoid := txo_txoid r;
                            txo_address := txo_address r; txo_position := txo_position r;
                            txo_amount := txo_amount r; txo_script := txo_script r;
                            txo_is_reserved := false |}
                    else r)
               (map (fun r =>
                       if mem_string (txo_txoid r) txoids
                       then {| txo_txid := txo_txid r; txo_txoid := txo_txoid r;
                               txo_address := txo_address r;
                               txo_position := txo_position r;
                               txo_amount := txo_amount r; txo_script := txo_script r;
                               txo_is_reserved := true |}
                       else r) l)
             = map (fun r =>
                      if mem_string (txo_txoid r) txoids
                      then {| txo_txid := txo_txid r; txo_txoid := txo_txoid r;
                              txo_address := txo_address r;
                              txo_position := txo_position r;
                              txo_amount := txo_amount r; txo_script := txo_script r;
                              txo_is_reserved := false |}
                      else r) l).
  { intros l. rewrite map_map. apply map_ext. intros r.
    destruct (mem_string (txo_txoid r) txoids) eqn:Em; cbn [txo_txoid]; now rewrite Em. }
  split; [|split].
  - unfold with_txo. cbn [txo tx txi pubkey_address]. now rewrite E.
  - intros Hfree. unfold with_txo. cbn [txo tx txi pubkey_address]. rewrite E.
    destruct db as [pa txs txos txis]. cbn [txo tx txi pubkey_address] in *. f_equal.
    rewrite <- (map_id txos) at 2. apply map_ext_in. intros r Hr.
    destruct (mem_string (txo_txoid r) txoids) eqn:Em; [|reflexivity].
    specialize (Hfree r Hr Em). destruct r. cbn in *. now subst.
  - intros flag r Hr Em. apply in_map_iff. exists r. split; [now rewrite Em|exact Hr].
Qed.

Lemma release_undoes_reserve_witness :
  snd (release_outputs ["tx1:0"%string]
         (snd (reserve_outputs ["tx1:0"%string] true demo_db_ingested)))
  = demo_db_ingested.
Proof.
  destruct (release_undoes_reserve ["tx1:0"%string] demo_db_ingested) as (_ & H & _).
  apply H. intros r Hr _. vm_compute in Hr. destruct Hr as [<-|[]]. reflexivity.
Defined.

Lemma flat_map_In_if {A B} (l : list A) (c : A -> bool) (f : A -> B) (b : B) :
  In b (flat_map (fun a => if c a then [f a] else []) l)
  <-> exists a, In a l /\ c a = true /\ b = f a.
Proof.
  rewrite in_flat_map. split.
  - intros (a & Ha & Hb). exists a. destruct (c a); [|contradiction].
    destruct Hb as [<-|[]]. now repeat split.
  - intros (a & Ha & Hc & ->). exists a. split; [exact Ha|]. rewrite Hc. now left.
Qed.

(** Membership in the rows [get_utxos_for_account] selects. *)
Lemma unspent_rows_In (account : string) (where_ : txo_row -> pubkey_address_row -> bool)
    (db : DB) (o : txo_row) (a : pubkey_address_row) :
  In (o, a) (unspent_rows account where_ db)
  <-> In o (txo db) /\ In a (pubkey_address db) /\
      pa_address a = txo_address o /\ pa_account a = account /\
      txo_is_reserved o = false /\
      mem_string (txo_txoid o) (map txi_txoid (txi db)) = false /\
      where_ o a = true.
Proof.
  unfold unspent_rows. rewrite in_flat_map. split.
  - intros (o' & Ho & Hin).
    apply (flat_map_In_if (pubkey_address db) _ (fun a => (o', a))) in Hin.
    destruct Hin as (a' & Ha & Hc & [= -> ->]).
    repeat (apply andb_true_iff in Hc; destruct Hc as [Hc ?]).
    repeat split; try assumption.
    + now apply String.eqb_eq.
    + now apply String.eqb_eq.
    + now apply negb_true_iff.
    + now apply negb_true_iff.
  - intros (Ho & Ha & E1 & E2 & E3 & E4 & E5). exists o. split; [exact Ho|].
    apply (flat_map_In_if (pubkey_address db) _ (fun a => (o, a))).
    exists a. split; [exact Ha|]. split; [|reflexivity].
    rewrite E1, E2, E3, E4, E5, !String.eqb_refl. reflexivity.
Qed.

(** X7: an output that is reserved or spent is not offered for funding.
    After [reserve_outputs] the rows [get_utxos_for_account] selects are
    those it selected before whose txoid is not in the reserved set.  After
    an ingestion that committed, on a store with unique primary keys, an
    output stored under the ingesting address that an input of the
    transaction references is not selected for any account, whatever the
    caller's constraints. *)
Theorem reserved_and_spent_not_listed :
  (forall account where_ txoids db o a,
     In (o, a) (unspent_rows account where_ (snd (reserve_outputs txoids true db)))
     <-> In (o, a) (unspent_rows account where_ db) /\
         mem_string (txo_txoid o) txoids = false) /\
  (forall account where_ save_tx t height is_verified addr txhash history db db1 i o a,
     keys_unique db ->
     save_transaction_io save_tx t height is_verified addr txhash history db
     = (Ok tt, db1) ->
     In i (inputs t) -> In o (txo db1) ->
     txo_txoid o = txo_ref_id i -> txo_address o = addr ->
     ~ In (o, a) (unspent_rows account where_ db1)).
Proof.
  split.
  - intros account where_ txoids db o a. rewrite !unspent_rows_In.
    rewrite reserve_outputs_spec. cbn [snd with_txo txo txi pubkey_address]. split.
    + intros (Ho & Ha & E1 & E2 & E3 & E4 & E5).
      apply in_map_iff in Ho. destruct Ho as (o0 & Eo & Ho0).
      destruct (mem_string (txo_txoid o0) txoids) eqn:Em.
      * subst o. cbn [txo_is_reserved] in E3. discriminate.
      * subst o0. now repeat split.
    + intros ((Ho & Ha & E1 & E2 & E3 & E4 & E5) & Em).
      repeat split; try assumption.
      apply in_map_iff. exists o. split; [now rewrite Em|exact Ho].
  - intros account where_ save_tx t height v addr txhash history db db1 i o a
      Hkeys H Hi Ho Eid Eaddr Hin.
    apply unspent_rows_In in Hin. destruct Hin as (_ & _ & _ & _ & _ & Hfree & _).
    assert (Hnd : NoDup (map txo_txoid (txo db1))).
    { pose proof (inv_runInteraction keys_unique _
                    (keys_steps save_tx t height v addr txhash history) db Hkeys) as K.
      fold (save_transaction_io save_tx t height v addr txhash history) in K.
      rewrite H in K. apply K. }
    destruct (spent_input_linked save_tx t height v addr txhash history db db1 i o
                H Hnd Hi Ho Eid Eaddr) as (r & Hr & _ & Er).
    assert (K : mem_string (txo_txoid o) (map txi_txoid (txi db1)) = true).
    { apply mem_string_In. rewrite Eid, <- Er. now apply in_map. }
    congruence.
Qed.

Lemma reserved_and_spent_not_listed_witness :
  fst (get_utxos_for_account "master" (fun _ _ => true) demo_db_ingested)
  = Ok [{| u_amount := 1000; u_script := [x76; xa9]; u_txid := "tx1"; u_position := 0 |}] /\
  ~ In (txo_to_row demo_tx "addr0" (nth 0 (outputs demo_tx)
          {| out_id := ""; out_position := 0; out_amount := 0;
             out_script := {| is_pay_pubkey_hash := false; is_pay_script_hash := false;
                              pubkey_hash := []; source := [] |} |}),
        set_history "addr0" "tx1:7:tx2:9:" (key_row "master" 0 (0, demo_child 0)))
       (unspent_rows "master" (fun _ _ => true) demo_db_spent) /\
  unspent_rows "master" (fun _ _ => true)
    (snd (reserve_outputs ["tx1:0"%string] true demo_db_ingested)) = [].
Proof.
  destruct reserved_and_spent_not_listed as [H1 H2].
  split; [reflexivity|]. split.
  - apply (H2 "master" (fun _ _ => true) "insert" demo_spend_tx 9 false "addr0" [xa0]
             "tx1:7:tx2:9:" demo_db_ingested demo_db_spent {| txo_ref_id := "tx1:0" |}).
    + vm_compute. repeat split; repeat constructor; simpl; intuition discriminate.
    + vm_compute. reflexivity.
    + now left.
    + now left.
    + reflexivity.
    + reflexivity.
  - destruct (unspent_rows "master" (fun _ _ => true)
                (snd (reserve_outputs ["tx1:0"%string] true demo_db_ingested)))
      as [|[o a] rest] eqn:E; [reflexivity|].
    exfalso.
    assert (Hin : In (o, a)
                    (unspent_rows "master" (fun _ _ => true)
                       (snd (reserve_outputs ["tx1:0"%string] true demo_db_ingested))))
      by (rewrite E; now left).
    apply H1 in Hin. destruct Hin as [Hin Hm]. vm_compute in Hin.
    destruct Hin as [[= <- _]|[]]. discriminate.
Defined.


(** ** The balance and the unspent outputs *)









(** ** When an ingestion commits *)








(** ** The gap after a fill *)

Lemma sql_limit_firstn {A} (n : Z) (l : list A) :
  0 <= n -> sql_limit (Some n) l = firstn (Z.to_nat n) l.
Proof.
  intros H. cbn [sql_limit]. destruct (Z.ltb_spec n 0); [lia|reflexivity].
Qed.

Lemma insert_by_past {A} (le : A -> A -> bool) (x : A) (l1 l2 : list A) :
  (forall y, In y l1 -> le x y = false) ->
  insert_by le x (l1 ++ l2) = l1 ++ insert_by le x l2.
Proof.
  induction l1 as [|y l1 IH]; intros H; cbn [app insert_by]; [reflexivity|].
  rewrite (H y (or_introl eq_refl)), IH; [reflexivity|].
  intros z Hz. apply H. now right.
Qed.

(** Rows that all sort before the rows of a table come first, as a block. *)
Lemma sort_by_app_sep {A} (le : A -> A -> bool) (old new : list A) :
  (forall x y, In x old -> In y new -> le x y = false) ->
  sort_by le (old ++ new) = sort_by le new ++ sort_by le old.
Proof.
  induction old as [|x old IH]; intros H; cbn [app sort_by].
  - now rewrite app_nil_r.
  - rewrite IH by (intros x' y Hx' Hy; apply H; [now right|exact Hy]).
    apply insert_by_past. intros y Hy. apply H; [now left|].
    eapply Permutation_in; [apply sort_by_perm|exact Hy].
Qed.

Lemma existing_gap_app_unused (l1 l2 : list pubkey_address_row) :
  Forall unused l1 ->
  HierarchicalDeterministic.existing_gap (l1 ++ l2)
  = Z.of_nat (length l1) + HierarchicalDeterministic.existing_gap l2.
Proof.
  induction 1 as [|a l1 Ha _ IH]; [reflexivity|].
  cbn [app HierarchicalDeterministic.existing_gap]. unfold unused in Ha. rewrite Ha.
  cbn [Z.eqb]. rewrite IH. simpl List.length. lia.
Qed.

Lemma existing_gap_firstn_self (l : list pubkey_address_row) :
  HierarchicalDeterministic.existing_gap
    (firstn (Z.to_nat (HierarchicalDeterministic.existing_gap l)) l)
  = HierarchicalDeterministic.existing_gap l /\
  Forall unused (firstn (Z.to_nat (HierarchicalDeterministic.existing_gap l)) l).
Proof.
  induction l as [|a l [IH1 IH2]]; [split; [reflexivity|constructor]|].
  cbn [HierarchicalDeterministic.existing_gap].
  destruct (Z.eqb_spec (pa_used_times a) 0) as [E|E].
  - pose proof (existing_gap_bounds l) as [Hb _].
    replace (Z.to_nat (1 + HierarchicalDeterministic.existing_gap l))
      with (S (Z.to_nat (HierarchicalDeterministic.existing_gap l))) by lia.
    cbn [firstn HierarchicalDeterministic.existing_gap]. rewrite E. cbn [Z.eqb].
    split; [now rewrite IH1|]. constructor; [exact E|exact IH2].
  - cbn [Z.to_nat firstn]. split; [reflexivity|constructor].
Qed.

Lemma sorted_head_highest (a : pubkey_address_row) (rest : list pubkey_address_row)
    (r : pubkey_address_row) :
  StronglySorted (fun x y => row_le PositionDesc x y = true) (a :: rest) ->
  In r (a :: rest) -> pa_position r <= pa_position a.
Proof.
  intros Hs [<-|Hr]; [lia|].
  inversion Hs as [|? ? _ Hall]; subst. rewrite Forall_forall in Hall.
  specialize (Hall r Hr). cbn [row_le] in Hall. now apply Z.leb_le.
Qed.

(** The position after the highest position of the chain, as
    [ensure_address_gap] computes it for a gap of at least 1. *)
Lemma start_above_chain (m : HierarchicalDeterministic.t) (db : DB)
    (r : pubkey_address_row) :
  1 <= HierarchicalDeterministic.gap m ->
  In r (chain_rows m db) ->
  pa_position r <
  match sql_limit (Some (HierarchicalDeterministic.gap m))
          (sort_by (row_le PositionDesc) (chain_rows m db)) with
  | a :: _ => pa_position a + 1
  | [] => 0
  end.
Proof.
  intros Hgap Hr. rewrite sql_limit_firstn by lia.
  assert (Hs : StronglySorted (fun x y => row_le PositionDesc x y = true)
                 (sort_by (row_le PositionDesc) (chain_rows m db)))
    by (apply sort_by_sorted; [apply row_le_total|apply row_le_trans]).
  assert (Hin : In r (sort_by (row_le PositionDesc) (chain_rows m db)))
    by (eapply Permutation_in; [apply Permutation_sym, sort_by_perm|exact Hr]).
  destruct (sort_by (row_le PositionDesc) (chain_rows m db)) as [|a rest];
    [contradiction|].
  replace (Z.to_nat (HierarchicalDeterministic.gap m))
    with (S (Z.to_nat (HierarchicalDeterministic.gap m - 1))) by lia.
  cbn [firstn]. pose proof (sorted_head_highest a rest r Hs Hin). lia.
Qed.

(** The gap fill of a deterministic chain with a gap of at least 1. *)
Lemma hd_fill_spec :
  forall (m : HierarchicalDeterministic.t) (db db1 : DB) (addresses : list string),
    1 <= HierarchicalDeterministic.gap m ->
    HierarchicalDeterministic.ensure_address_gap m db = (Ok addresses, db1) ->
    Z.of_nat (length addresses)
    = HierarchicalDeterministic.gap m -
      HierarchicalDeterministic.existing_gap
        (sql_limit (Some (HierarchicalDeterministic.gap m))
           (sort_by (row_le PositionDesc) (chain_rows m db))) /\
    (exists new,
       pubkey_address db1 = pubkey_address db ++ new /\
       map pa_address new = addresses /\
       forall r, In r new ->
         pa_account r = HierarchicalDeterministic.account m /\
         pa_chain r = HierarchicalDeterministic.chain_number m /\
         pa_used_times r = 0 /\ pa_history r = None /\
         forall r0, In r0 (chain_rows m db) -> pa_position r0 < pa_position r) /\
    Z.of_nat (length (sql_limit (Some (HierarchicalDeterministic.gap m))
                        (sort_by (row_le PositionDesc) (chain_rows m db1))))
    = HierarchicalDeterministic.gap m /\
    Forall unused (sql_limit (Some (HierarchicalDeterministic.gap m))
                     (sort_by (row_le PositionDesc) (chain_rows m db1))) /\
    HierarchicalDeterministic.ensure_address_gap m db1 = (Ok [], db1).
Proof.
  intros m db db1 addresses Hgap H.
  pose proof H as H0. rewrite hd_ensure_address_gap_spec in H. cbn zeta in H.
  set (g := HierarchicalDeterministic.gap m) in *.
  set (S0 := sort_by (row_le PositionDesc) (chain_rows m db)) in *.
  assert (Htop : sql_limit (Some g) S0 = firstn (Z.to_nat g) S0)
    by (apply sql_limit_firstn; lia).
  set (e := HierarchicalDeterministic.existing_gap (sql_limit (Some g) S0)) in *.
  assert (Hlt : Z.of_nat (length (sql_limit (Some g) S0)) <= g).
  { rewrite Htop. pose proof (firstn_le_length (Z.to_nat g) S0). lia. }
  assert (He : 0 <= e <= Z.of_nat (length (sql_limit (Some g) S0)))
    by apply existing_gap_bounds.
  destruct (Z.eqb_spec e g) as [Eeg|Eeg].
  - (* nothing to generate *)
    injection H as <- <-. fold S0.
    split; [simpl; lia|]. split.
    { exists []. rewrite app_nil_r.
      split; [reflexivity|split; [reflexivity|intros r []]]. }
    split; [lia|]. split.
    + destruct (existing_gap_firstn_self (sql_limit (Some g) S0)) as [_ Hall].
      fold e in Hall. rewrite firstn_all2 in Hall by lia. exact Hall.
    + exact H0.
  - (* g - e keys after the highest position *)
    set (start := match sql_limit (Some g) S0 with
                  | a :: _ => pa_position a + 1
                  | [] => 0
                  end) in *.
    rewrite generate_keys_spec in H by lia.
    set (keys := HierarchicalDeterministic.new_keys m start (start + (g - e) - 1)) in *.
    destruct (fresh_keys keys (pubkey_address db)); [|discriminate].
    injection H as <- <-.
    set (N := map (key_row (HierarchicalDeterministic.account m)
                     (HierarchicalDeterministic.chain_number m)) keys).
    assert (HlenN : Z.of_nat (length N) = g - e).
    { unfold N, keys. rewrite length_map, new_keys_length. lia. }
    assert (Habove : forall r0 r, In r0 (chain_rows m db) -> In r N ->
                       pa_position r0 < pa_position r).
    { intros r0 r Hr0 Hr.
      pose proof (start_above_chain m db r0 Hgap Hr0) as Hlt'.
      fold g S0 start in Hlt'.
      assert (Hp : In (pa_position r) (map pa_position N)) by now apply in_map.
      unfold N, keys in Hp. rewrite new_keys_positions in Hp.
      apply range_In in Hp. lia. }
    assert (HunN : Forall unused N) by apply new_keys_unused.
    assert (Hrows1 : chain_rows m
                       (with_pubkey_address (pubkey_address db ++ N) db)
                     = chain_rows m db ++ N) by apply chain_rows_app.
    assert (Hsort1 : sort_by (row_le PositionDesc) (chain_rows m db ++ N)
                     = sort_by (row_le PositionDesc) N ++ S0).
    { apply sort_by_app_sep. intros x y Hx Hy. cbn [row_le].
      apply Z.leb_gt. now apply Habove. }
    assert (Htop1 : sql_limit (Some g) (sort_by (row_le PositionDesc) N ++ S0)
                    = sort_by (row_le PositionDesc) N ++ firstn (Z.to_nat e) S0).
    { rewrite sql_limit_firstn by lia. rewrite firstn_app, sort_by_length.
      rewrite firstn_all2 by (rewrite sort_by_length; lia).
      do 2 f_equal. lia. }
    assert (Hfe : firstn (Z.to_nat e) S0
                  = firstn (Z.to_nat e) (sql_limit (Some g) S0)).
    { rewrite Htop, firstn_firstn. f_equal. lia. }
    destruct (existing_gap_firstn_self (sql_limit (Some g) S0)) as [Heg Hun].
    fold e in Heg, Hun. rewrite <- Hfe in Heg, Hun.
    assert (HlenE : length (firstn (Z.to_nat e) S0) = Z.to_nat e).
    { rewrite Hfe. apply firstn_length_le. lia. }
    split; [rewrite length_map; unfold keys; rewrite new_keys_length; lia|].
    split.
    { exists N. cbn [with_pubkey_address pubkey_address]. split; [reflexivity|].
      split; [unfold N; now rewrite map_map|].
      intros r Hr. assert (Hr' := Hr). unfold N in Hr'. apply in_map_iff in Hr'.
      destruct Hr' as (k & Ek & Hk). rewrite <- Ek.
      do 4 (split; [reflexivity|]).
      intros r0 Hr0. rewrite Ek. exact (Habove r0 r Hr0 Hr). }
    rewrite Hrows1, Hsort1, Htop1. split; [|split].
    + rewrite length_app, sort_by_length, HlenE. lia.
    + apply Forall_app. split; [now apply sort_by_Forall|exact Hun].
    + rewrite hd_ensure_address_gap_spec. cbn zeta. fold g.
      rewrite Hrows1, Hsort1, Htop1.
      rewrite existing_gap_app_unused by now apply sort_by_Forall.
      rewrite sort_by_length, Heg.
      destruct (Z.eqb_spec (Z.of_nat (length N) + e) g) as [_|Hne]; [reflexivity|lia].
Qed.

(** X10: a gap fill restores the gap and the next fill has nothing to do.
    For a deterministic manager with gap >= 1, when [ensure_address_gap]
    returns, it returned gap minus the number of trailing unused addresses it
    counted, it appended one unused row of its own chain for each, at
    positions above every position of the chain, and changed no other row;
    afterwards the [gap] highest positions of the chain are all unused and an
    immediate second call returns [[]] and changes nothing. *)
Theorem ensure_address_gap_restores_gap :
  forall (m : HierarchicalDeterministic.t) (db db1 : DB) (addresses : list string),
    1 <= HierarchicalDeterministic.gap m ->
    HierarchicalDeterministic.ensure_address_gap m db = (Ok addresses, db1) ->
    Z.of_nat (length addresses)
    = HierarchicalDeterministic.gap m -
      HierarchicalDeterministic.existing_gap
        (sql_limit (Some (HierarchicalDeterministic.gap m))
           (sort_by (row_le PositionDesc) (chain_rows m db))) /\
    (exists new,
       pubkey_address db1 = pubkey_address db ++ new /\
       map pa_address new = addresses /\
       forall r, In r new ->
         pa_account r = HierarchicalDeterministic.account m /\
         pa_chain r = HierarchicalDeterministic.chain_number m /\
         pa_used_times r = 0 /\ pa_history r = None /\
         forall r0, In r0 (chain_rows m db) -> pa_position r0 < pa_position r) /\
    Z.of_nat (length (sql_limit (Some (HierarchicalDeterministic.gap m))
                        (sort_by (row_le PositionDesc) (chain_rows m db1))))
    = HierarchicalDeterministic.gap m /\
    Forall unused (sql_limit (Some (HierarchicalDeterministic.gap m))
                     (sort_by (row_le PositionDesc) (chain_rows m db1))) /\
    HierarchicalDeterministic.ensure_address_gap m db1 = (Ok [], db1).
Proof. exact hd_fill_spec. Qed.

Lemma ensure_address_gap_restores_gap_witness :
  exists db1,
    HierarchicalDeterministic.ensure_address_gap demo_receiving demo_db_used5
    = (Ok ["addr20"; "addr21"; "addr22"; "addr23"; "addr24"; "addr25"]%string, db1) /\
    HierarchicalDeterministic.ensure_address_gap demo_receiving db1 = (Ok [], db1).
Proof.
  exists (snd (HierarchicalDeterministic.ensure_address_gap demo_receiving demo_db_used5)).
  split; [vm_compute; reflexivity|].
  apply (ensure_address_gap_restores_gap demo_receiving demo_db_used5 _
           ["addr20"; "addr21"; "addr22"; "addr23"; "addr24"; "addr25"]%string).
  - simpl. lia.
  - vm_compute. reflexivity.
Defined.


(** ** Which address is handed out *)

Lemma sorted_head_least (o : order_by) (a : pubkey_address_row)
    (rest : list pubkey_address_row) (r : pubkey_address_row) :
  StronglySorted (fun x y => row_le o x y = true) (a :: rest) ->
  In r (a :: rest) -> row_le o a r = true.
Proof.
  intros Hs [<-|Hr].
  - destruct (row_le_total o a a); assumption.
  - inversion Hs as [|? ? _ Hall]; subst. rewrite Forall_forall in Hall. now apply Hall.
Qed.

(** X11: the address a deterministic chain hands out.  When some address of
    the chain has been used at most [maximum_uses_per_address] times,
    [get_or_create_usable_address] returns the address of such a row, the
    one used least and, among those, at the lowest position, and leaves the
    store as it is: no key is generated while a usable address exists. *)
Theorem get_or_create_usable_address_least_used :
  forall (h : HierarchicalDeterministic.t) (db : DB) (r0 : pubkey_address_row),
    In r0 (chain_rows h db) ->
    pa_used_times r0 <= HierarchicalDeterministic.maximum_uses_per_address h ->
    exists r,
      In r (chain_rows h db) /\
      pa_used_times r <= HierarchicalDeterministic.maximum_uses_per_address h /\
      AddressManager.get_or_create_usable_address (AddressManager.Deterministic h) db
      = (Ok (pa_address r), db) /\
      forall r', In r' (chain_rows h db) ->
        pa_used_times r' <= HierarchicalDeterministic.maximum_uses_per_address h ->
        pa_used_times r < pa_used_times r' \/
        (pa_used_times r = pa_used_times r' /\ pa_position r <= pa_position r').
Proof.
  intros h db r0 Hr0 Hu0.
  set (U := filter (fun r => pa_used_times r <=?
                             HierarchicalDeterministic.maximum_uses_per_address h)
              (chain_rows h db)).
  assert (HU : forall r, In r U <->
                 In r (chain_rows h db) /\
                 pa_used_times r <= HierarchicalDeterministic.maximum_uses_per_address h).
  { intros r. unfold U. rewrite filter_In, Z.leb_le. reflexivity. }
  assert (Hs : StronglySorted (fun x y => row_le UsedTimesAscPositionAsc x y = true)
                 (sort_by (row_le UsedTimesAscPositionAsc) U))
    by (apply sort_by_sorted; [apply row_le_total|apply row_le_trans]).
  assert (Hperm := sort_by_perm _ (row_le UsedTimesAscPositionAsc) U).
  assert (Hin0 : In r0 (sort_by (row_le UsedTimesAscPositionAsc) U)).
  { eapply Permutation_in; [apply Permutation_sym, Hperm|]. now apply HU. }
  assert (Hq := query_usable h (Some 1) db). fold U in Hq.
  destruct (sort_by (row_le UsedTimesAscPositionAsc) U) as [|a rest] eqn:ES;
    [contradiction|].
  assert (Ha : In a U) by (eapply Permutation_in; [exact Hperm|now left]).
  exists a. apply HU in Ha. destruct Ha as [Ha1 Ha2].
  split; [exact Ha1|]. split; [exact Ha2|]. split.
  - unfold AddressManager.get_or_create_usable_address, AddressManager.get_addresses.
    cbn [AddressManager.get_address_records].
    erewrite bind_ok; [|erewrite bind_ok by exact Hq; reflexivity].
    reflexivity.
  - intros r' Hr1 Hr2.
    assert (Hin : In r' (a :: rest)).
    { eapply Permutation_in; [apply Permutation_sym, Hperm|]. now apply HU. }
    pose proof (sorted_head_least _ a rest r' Hs Hin) as Hle. cbn [row_le] in Hle.
    rewrite orb_true_iff, andb_true_iff, Z.ltb_lt, Z.eqb_eq, Z.leb_le in Hle.
    exact Hle.
Qed.

Lemma get_or_create_usable_address_least_used_witness :
  exists r,
    In r (chain_rows demo_receiving demo_db_used5) /\
    pa_used_times r <= 2 /\
    AddressManager.get_or_create_usable_address
      (AddressManager.Deterministic demo_receiving) demo_db_used5
    = (Ok (pa_address r), demo_db_used5) /\
    forall r', In r' (chain_rows demo_receiving demo_db_used5) ->
      pa_used_times r' <= 2 ->
      pa_used_times r < pa_used_times r' \/
      (pa_used_times r = pa_used_times r' /\ pa_position r <= pa_position r').
Proof.
  apply (get_or_create_usable_address_least_used demo_receiving demo_db_used5
           (key_row "master" 0 (0, demo_child 0))).
  - vm_compute. left. reflexivity.
  - simpl. lia.
Defined.

(** ** The addresses of an account *)

Lemma add_keys_ok_inv (account : string) (chain : Z) (keys : list (Z * PubKey))
    (db db1 : DB) :
  add_keys account chain keys db = (Ok tt, db1) ->
  db1 = with_pubkey_address (pubkey_address db ++ map (key_row account chain) keys) db.
Proof.
  unfold add_keys. destruct keys as [|key keys]; [discriminate|].
  destruct (insert_keys _ _ _ _) as [rows|] eqn:E; [|discriminate].
  intros [= <-]. apply insert_keys_rows in E. now rewrite E.
Qed.

(** What a gap fill that returned did to the address table. *)
Lemma ensure_address_gap_appends (m : AddressManager.t) (db db1 : DB)
    (addresses : list string) :
  AddressManager.ensure_address_gap m db = (Ok addresses, db1) ->
  exists keys,
    db1 = with_pubkey_address
            (pubkey_address db ++ map (key_row (account_of m) (chain_of m)) keys) db /\
    addresses = map (fun key => address (snd key)) keys.
Proof.
  destruct m as [h|s]; cbn [AddressManager.ensure_address_gap account_of chain_of].
  - rewrite hd_ensure_address_gap_spec. cbn zeta. destruct (_ =? _).
    + intros [= <- <-]. exists []. cbn [map].
      now rewrite app_nil_r, with_pubkey_address_same.
    + unfold HierarchicalDeterministic.generate_keys. intros H. bind_inv H.
      destruct a. apply add_keys_ok_inv in E. unfold ret in H. injection H as <- <-.
      eexists. split; [exact E|reflexivity].
  - rewrite single_ensure_address_gap_spec. destruct (single_rows s db).
    + destruct (has_address _ _); [discriminate|]. intros [= <- <-].
      exists [(0, SingleKey.public_key s)]. split; reflexivity.
    + intros [= <- <-]. exists []. cbn [map].
      now rewrite app_nil_r, with_pubkey_address_same.
Qed.

Lemma get_addresses_of_account (acct : string) (chain limit max : option Z)
    (order : option order_by) (db db1 : DB) (rows : list pubkey_address_row) :
  get_addresses (Some acct) chain limit max order db = (Ok rows, db1) ->
  db1 = db /\
  forall r, In r rows -> In r (pubkey_address db) /\ pa_account r = acct.
Proof.
  unfold get_addresses. intros [= <- <-]. split; [reflexivity|]. intros r Hr.
  apply sql_limit_incl in Hr.
  assert (Hf : In r (filter (fun r =>
                  opt_test (Some acct) (fun a => String.eqb (pa_account r) a) &&
                  opt_test chain (fun c => pa_chain r =? c) &&
                  opt_test max (fun m => pa_used_times r <=? m)) (pubkey_address db)))
    by (destruct order; [apply sort_by_In in Hr|]; exact Hr).
  apply filter_In in Hf. destruct Hf as [Hin Hp]. cbn [opt_test] in Hp.
  apply andb_true_iff in Hp. destruct Hp as [Hp _].
  apply andb_true_iff in Hp. destruct Hp as [Hp _].
  apply String.eqb_eq in Hp. now split.
Qed.

Lemma manager_records_of_account (m : AddressManager.t) (limit : option Z)
    (only_usable : bool) (db db1 : DB) (rows : list pubkey_address_row) :
  AddressManager.get_address_records m limit only_usable db = (Ok rows, db1) ->
  db1 = db /\
  forall r, In r rows -> In r (pubkey_address db) /\ pa_account r = account_of m.
Proof.
  destruct m as [h|s]; cbn [AddressManager.get_address_records account_of];
    apply get_addresses_of_account.
Qed.

Lemma account_get_addresses_spec (acct : string) (db : DB) :
  account_get_addresses acct None None db
  = (Ok (map pa_address
           (filter (fun r => String.eqb (pa_account r) acct) (pubkey_address db))), db).
Proof.
  unfold account_get_addresses, account_get_address_records, get_addresses, bind, ret.
  cbn [sql_limit opt_test]. do 3 f_equal.
  apply filter_ext. intros r. now rewrite !andb_true_r.
Qed.

(** X12: the account lists what its managers hand out.  After a gap fill
    of one of its address managers returned, [BaseAccount.get_addresses]
    lists every address it listed before and every address the fill
    returned; and the address [get_or_create_usable_address] returns is
    listed afterwards, whether it was found or generated. *)
Theorem account_lists_manager_addresses :
  forall (m : AddressManager.t) (db : DB),
    (forall addresses db1,
       AddressManager.ensure_address_gap m db = (Ok addresses, db1) ->
       exists before listed,
         account_get_addresses (account_of m) None None db = (Ok before, db) /\
         account_get_addresses (account_of m) None None db1 = (Ok listed, db1) /\
         listed = before ++ addresses) /\
    (forall a db1,
       AddressManager.get_or_create_usable_address m db = (Ok a, db1) ->
       exists listed,
         account_get_addresses (account_of m) None None db1 = (Ok listed, db1) /\
         In a listed).
Proof.
  intros m db.
  assert (Hfill : forall addresses db1,
            AddressManager.ensure_address_gap m db = (Ok addresses, db1) ->
            map pa_address
              (filter (fun r => String.eqb (pa_account r) (account_of m))
                 (pubkey_address db1))
            = map pa_address
                (filter (fun r => String.eqb (pa_account r) (account_of m))
                   (pubkey_address db)) ++ addresses).
  { intros addresses db1 H. apply ensure_address_gap_appends in H.
    destruct H as (keys & -> & ->). cbn [with_pubkey_address pubkey_address].
    rewrite filter_app, map_app. f_equal.
    induction keys as [|key keys IH]; [reflexivity|].
    cbn [map filter key_row pa_account]. rewrite String.eqb_refl.
    cbn [map pa_address]. now rewrite IH. }
  split.
  - intros addresses db1 H. do 2 eexists.
    rewrite !account_get_addresses_spec.
    split; [reflexivity|]. split; [reflexivity|]. now apply Hfill.
  - intros a db1 H. eexists. rewrite account_get_addresses_spec.
    split; [reflexivity|].
    unfold AddressManager.get_or_create_usable_address in H.
    apply bind_ok_inv in H. destruct H as (found & d0 & Eg & H).
    unfold AddressManager.get_addresses in Eg.
    apply bind_ok_inv in Eg. destruct Eg as (rows & d1 & Er & Eg).
    apply manager_records_of_account in Er. destruct Er as [-> Hrows].
    unfold ret in Eg. injection Eg as <- <-.
    destruct rows as [|r rows]; cbn [map] in H.
    + apply bind_ok_inv in H. destruct H as (addresses & d2 & Ef & H).
      destruct addresses as [|a' rest]; [discriminate|].
      cbn [AddressManager.first_address] in H. unfold ret in H.
      injection H as <- <-. rewrite (Hfill _ _ Ef). apply in_or_app. right. now left.
    + unfold ret in H. injection H as <- <-.
      destruct (Hrows r (or_introl eq_refl)) as [Hin Hacc].
      apply in_map. apply filter_In. split; [exact Hin|].
      now apply String.eqb_eq.
Qed.

Lemma account_lists_manager_addresses_witness :
  exists listed,
    account_get_addresses "master" None None demo_db_filled = (Ok listed, demo_db_filled) /\
    In "addr0"%string listed.
Proof.
  destruct (account_lists_manager_addresses
              (AddressManager.Deterministic demo_receiving) empty_db) as [_ H].
  apply (H "addr0"%string demo_db_filled). vm_compute. reflexivity.
Defined.


(** ** The largest gap and the gap fill *)

Lemma insert_by_before {A} (le : A -> A -> bool) (x : A) (l1 l2 : list A) :
  (forall y, In y l2 -> le x y = true) ->
  insert_by le x (l1 ++ l2) = insert_by le x l1 ++ l2.
Proof.
  intros H. induction l1 as [|z l1 IH]; cbn [app insert_by].
  - destruct l2 as [|y l2]; [reflexivity|]. cbn [insert_by].
    now rewrite (H y (or_introl eq_refl)).
  - destruct (le x z); [reflexivity|]. now rewrite IH.
Qed.

(** Rows that all sort after the rows of a table come last, as a block. *)
Lemma sort_by_app_after {A} (le : A -> A -> bool) (old new : list A) :
  (forall x y, In x old -> In y new -> le x y = true) ->
  sort_by le (old ++ new) = sort_by le old ++ sort_by le new.
Proof.
  induction old as [|x old IH]; intros H; cbn [app sort_by]; [reflexivity|].
  rewrite IH by (intros x' y Hx' Hy; apply H; [now right|exact Hy]).
  apply insert_by_before. intros y Hy. apply H; [now left|].
  eapply Permutation_in; [apply sort_by_perm|exact Hy].
Qed.

(** What a gap fill that returned did: the keys it inserted lie above every
    position of the chain. *)
Lemma fill_shape (m : AddressManager.t) (db db1 : DB) (addresses : list string) :
  AddressManager.ensure_address_gap m db = (Ok addresses, db1) ->
  exists keys,
    db1 = with_pubkey_address
            (pubkey_address db ++ map (key_row (account_of m) (chain_of m)) keys) db /\
    addresses = map (fun key => address (snd key)) keys /\
    forall r0 k,
      In r0 (pubkey_address db) ->
      pa_account r0 = account_of m -> pa_chain r0 = chain_of m ->
      In k keys -> pa_position r0 < fst k.
Proof.
  destruct m as [h|s]; cbn [AddressManager.ensure_address_gap account_of chain_of].
  - rewrite hd_ensure_address_gap_spec. cbn zeta.
    destruct (_ =? _) eqn:Eg.
    + intros [= <- <-]. exists []. cbn [map].
      rewrite app_nil_r, with_pubkey_address_same.
      split; [reflexivity|]. split; [reflexivity|]. intros r0 k _ _ _ [].
    + apply Z.eqb_neq in Eg.
      unfold HierarchicalDeterministic.generate_keys. intros H.
      apply bind_ok_inv in H. destruct H as ([] & d & E & H).
      apply add_keys_ok_inv in E. unfold ret in H. injection H as <- <-.
      eexists. split; [exact E|]. split; [reflexivity|].
      intros r0 k Hr0 Hacc Hch Hk.
      unfold HierarchicalDeterministic.new_keys in Hk. apply in_map_iff in Hk.
      destruct Hk as (i & <- & Hi). apply range_In in Hi. cbn [fst].
      pose proof (existing_gap_bounds
                    (sql_limit (Some (HierarchicalDeterministic.gap h))
                       (sort_by (row_le PositionDesc) (chain_rows h db)))) as [Hb _].
      assert (Hgap : 1 <= HierarchicalDeterministic.gap h) by lia.
      assert (Hin : In r0 (chain_rows h db)).
      { apply filter_In. split; [exact Hr0|].
        rewrite Hacc, Hch, String.eqb_refl, Z.eqb_refl. reflexivity. }
      pose proof (start_above_chain h db r0 Hgap Hin). lia.
  - rewrite single_ensure_address_gap_spec. destruct (single_rows s db) eqn:Es.
    + destruct (has_address _ _); [discriminate|]. intros [= <- <-].
      exists [(0, SingleKey.public_key s)].
      split; [reflexivity|]. split; [reflexivity|].
      intros r0 k Hr0 Hacc Hch _.
      assert (Hin : In r0 (single_rows s db)).
      { apply filter_In. split; [exact Hr0|].
        rewrite Hacc, Hch, String.eqb_refl, Z.eqb_refl. reflexivity. }
      rewrite Es in Hin. contradiction.
    + intros [= <- <-]. exists []. cbn [map].
      rewrite app_nil_r, with_pubkey_address_same.
      split; [reflexivity|]. split; [reflexivity|]. intros r0 k _ _ _ [].
Qed.

Lemma ensure_address_gap_raise_state (m : AddressManager.t) (db db1 : DB) (e : exn) :
  AddressManager.ensure_address_gap m db = (Raise e, db1) -> db1 = db.
Proof.
  destruct m as [h|s]; cbn [AddressManager.ensure_address_gap].
  - rewrite hd_ensure_address_gap_spec. cbn zeta.
    destruct (_ =? _); [discriminate|].
    unfold HierarchicalDeterministic.generate_keys, bind, add_keys.
    destruct (HierarchicalDeterministic.new_keys _ _ _); [now intros [= _ <-]|].
    destruct (insert_keys _ _ _ _); [discriminate|]. now intros [= _ <-].
  - rewrite single_ensure_address_gap_spec. destruct (single_rows s db); [|discriminate].
    destruct (has_address _ _); [|discriminate]. now intros [= _ <-].
Qed.

Lemma get_or_create_state (m : AddressManager.t) (db : DB) :
  snd (AddressManager.get_or_create_usable_address m db) = db \/
  snd (AddressManager.get_or_create_usable_address m db)
  = snd (AddressManager.ensure_address_gap m db).
Proof.
  unfold AddressManager.get_or_create_usable_address.
  destruct (get_addresses_ok m (Some 1) true db) as (found & E).
  erewrite bind_ok by exact E. destruct found as [|a rest]; [right|now left].
  unfold bind. destruct (AddressManager.ensure_address_gap m db) as [[[|a rest]|e] d];
    reflexivity.
Qed.

Lemma hd_get_max_gap_spec (h : HierarchicalDeterministic.t) (db : DB) :
  HierarchicalDeterministic.get_max_gap h db
  = (Ok (max_gap_of (sort_by (row_le PositionAsc) (chain_rows h db))), db).
Proof.
  unfold HierarchicalDeterministic.get_max_gap, bind. rewrite query_chain. reflexivity.
Qed.

Lemma max_gap_after_append (h : HierarchicalDeterministic.t) (db : DB)
    (acct : string) (ch : Z) (keys : list (Z * PubKey)) :
  (forall r0 k,
     In r0 (pubkey_address db) -> pa_account r0 = acct -> pa_chain r0 = ch ->
     In k keys -> pa_position r0 < fst k) ->
  max_gap_of (sort_by (row_le PositionAsc)
                (chain_rows h (with_pubkey_address
                                 (pubkey_address db ++ map (key_row acct ch) keys) db)))
  = max_gap_of (sort_by (row_le PositionAsc) (chain_rows h db)).
Proof.
  intros Habove. unfold chain_rows. cbn [with_pubkey_address pubkey_address].
  rewrite filter_app.
  set (p := fun r => String.eqb (pa_account r) (HierarchicalDeterministic.account h) &&
                     (pa_chain r =? HierarchicalDeterministic.chain_number h)).
  rewrite sort_by_app_after.
  - apply max_gap_of_trailing. apply sort_by_Forall.
    apply Forall_forall. intros r Hr. apply filter_In in Hr. destruct Hr as [Hr _].
    apply in_map_iff in Hr. now destruct Hr as (k & <- & _).
  - intros x y Hx Hy. apply filter_In in Hx. destruct Hx as [Hx Hpx].
    apply filter_In in Hy. destruct Hy as [Hy Hpy].
    apply in_map_iff in Hy. destruct Hy as (k & <- & Hk).
    unfold p in Hpx, Hpy. cbn [key_row pa_account pa_chain] in Hpy.
    apply andb_true_iff in Hpx. destruct Hpx as [Hx1 Hx2].
    apply andb_true_iff in Hpy. destruct Hpy as [Hy1 Hy2].
    apply String.eqb_eq in Hx1, Hy1. apply Z.eqb_eq in Hx2, Hy2.
    cbn [row_le key_row pa_position]. apply Z.leb_le.
    assert (pa_position x < fst k) by (apply Habove; congruence). lia.
Qed.

(** X13: generating addresses never changes the largest gap.  Whatever
    manager runs [ensure_address_gap] or [get_or_create_usable_address],
    and whether the call returns or raises, [get_max_gap] of every manager
    answers afterwards what it answered before: the rows a fill appends
    are unused and lie at the end of their chain, where no used row closes
    them. *)
Theorem get_max_gap_unchanged_by_fill :
  forall (m m' : AddressManager.t) (db : DB),
    exists g,
      AddressManager.get_max_gap m db = (Ok g, db) /\
      AddressManager.get_max_gap m (snd (AddressManager.ensure_address_gap m' db))
      = (Ok g, snd (AddressManager.ensure_address_gap m' db)) /\
      AddressManager.get_max_gap m
        (snd (AddressManager.get_or_create_usable_address m' db))
      = (Ok g, snd (AddressManager.get_or_create_usable_address m' db)).
Proof.
  intros m m' db. destruct m as [h|s]; cbn [AddressManager.get_max_gap].
  - exists (max_gap_of (sort_by (row_le PositionAsc) (chain_rows h db))).
    assert (Hfill : HierarchicalDeterministic.get_max_gap h
                      (snd (AddressManager.ensure_address_gap m' db))
                    = (Ok (max_gap_of (sort_by (row_le PositionAsc) (chain_rows h db))),
                       snd (AddressManager.ensure_address_gap m' db))).
    { rewrite hd_get_max_gap_spec. f_equal. f_equal.
      destruct (AddressManager.ensure_address_gap m' db) as [[addresses|e] d] eqn:E;
        cbn [snd].
      - apply fill_shape in E. destruct E as (keys & -> & _ & Habove).
        now apply max_gap_after_append.
      - apply ensure_address_gap_raise_state in E. now subst d. }
    split; [apply hd_get_max_gap_spec|]. split; [exact Hfill|].
    destruct (get_or_create_state m' db) as [E|E]; rewrite E;
      [apply hd_get_max_gap_spec|exact Hfill].
  - exists 0. repeat split.
Qed.


(** ** The managers of an account *)

Lemma hd_new_ok (key : AccountKey) (chain : Z) (kwargs : list (string * Z))
    (h : HierarchicalDeterministic.t) :
  hd_new key chain kwargs = Ok h ->
  HierarchicalDeterministic.account h = address (ak_public_key key) /\
  HierarchicalDeterministic.chain_number h = chain /\
  HierarchicalDeterministic.child h = ak_child key chain /\
  dict_get "gap" kwargs = Some (HierarchicalDeterministic.gap h) /\
  dict_get "maximum_uses_per_address" kwargs
  = Some (HierarchicalDeterministic.maximum_uses_per_address h).
Proof.
  unfold hd_new. destruct (forallb _ _); [|discriminate].
  destruct (dict_get "gap" kwargs) as [g|]; [|discriminate].
  destruct (dict_get "maximum_uses_per_address" kwargs) as [u|]; [|discriminate].
  intros [= <-]. repeat split.
Qed.

(** The two shapes of an account that [__init__] builds. *)
Lemma new_account_shape (ledger_id : string) (key : AccountKey) (d : generator_dict)
    (self : Account) :
  new_account ledger_id key d = Ok self ->
  (or_default (g_name d) "deterministic-chain" = "single-address" /\
   exists s,
     receiving self = AddressManager.Single s /\
     change self = AddressManager.Single s /\
     SingleKey.public_key s = ak_public_key key) \/
  (or_default (g_name d) "deterministic-chain" = "deterministic-chain" /\
   exists r c,
     receiving self = AddressManager.Deterministic r /\
     change self = AddressManager.Deterministic c /\
     hd_new key 0 (or_default (g_receiving d)
                     [("gap", 20); ("maximum_uses_per_address", 2)]) = Ok r /\
     hd_new key 1 (or_default (g_change d)
                     [("gap", 6); ("maximum_uses_per_address", 2)]) = Ok c).
Proof.
  unfold new_account. cbn zeta.
  destruct (String.eqb_spec (or_default (g_name d) "deterministic-chain") "single-address")
    as [E|_].
  - unfold single_from_dict. intros [= <-]. left. split; [exact E|].
    eexists. repeat split.
  - destruct (String.eqb_spec (or_default (g_name d) "deterministic-chain")
                "deterministic-chain") as [E|_]; [|discriminate].
    unfold hd_from_dict.
    destruct (hd_new key 0 _) as [r|e] eqn:Er; [|discriminate].
    destruct (hd_new key 1 _) as [c|e] eqn:Ec; [|discriminate].
    intros [= <-]. right. split; [exact E|]. exists r, c. repeat split.
Qed.

(** X15: the generator descriptor survives a round trip.  For an account
    that [__init__] built from an [address_generator] dict, the dict
    [to_dict] writes for its managers builds the same managers again; it
    names the generator the account was built with, "deterministic-chain"
    when the dict had no name; a deterministic chain the dict left out got
    the defaults (gap 20 for receiving, 6 for change, 2 uses); and when
    [__init__] raises it is KeyError for a name that is no generator, or
    TypeError from the constructor of a deterministic chain. *)
Theorem address_generator_round_trip :
  forall (ledger_id : string) (key : AccountKey) (d : generator_dict),
    (forall self,
       new_account ledger_id key d = Ok self ->
       new_account ledger_id key (address_generator_to_dict self) = Ok self /\
       g_name (address_generator_to_dict self)
       = Some (or_default (g_name d) "deterministic-chain") /\
       (forall r, receiving self = AddressManager.Deterministic r ->
                  g_receiving d = None ->
                  HierarchicalDeterministic.gap r = 20 /\
                  HierarchicalDeterministic.maximum_uses_per_address r = 2) /\
       (forall c, change self = AddressManager.Deterministic c ->
                  g_change d = None ->
                  HierarchicalDeterministic.gap c = 6 /\
                  HierarchicalDeterministic.maximum_uses_per_address c = 2)) /\
    (forall e,
       new_account ledger_id key d = Raise e ->
       (e = KeyError /\
        or_default (g_name d) "deterministic-chain" <> "single-address" /\
        or_default (g_name d) "deterministic-chain" <> "deterministic-chain") \/
       (e = TypeError /\
        or_default (g_name d) "deterministic-chain" = "deterministic-chain")).
Proof.
  intros ledger_id key d. split.
  - intros self H. pose proof (new_account_shape _ _ _ _ H) as S.
    assert (Hl : ledger self = ledger_id).
    { unfold new_account in H. cbn zeta in H.
      destruct (if String.eqb _ "single-address" then _ else _) as [[r c]|e];
        [|discriminate]. now injection H as <-. }
    destruct self as [l r0 c0]. cbn [ledger receiving change] in *. subst l.
    destruct S as [(En & s & -> & -> & Es)|(En & r & c & -> & -> & Er & Ec)].
    + split; [|split; [|split]].
      * destruct s as [pk]. cbn [SingleKey.public_key] in Es. subst pk. reflexivity.
      * rewrite En. reflexivity.
      * intros r [=].
      * intros c [=].
    + pose proof (hd_new_ok _ _ _ _ Er) as (Ra & Rc & Rch & Rg & Ru).
      pose proof (hd_new_ok _ _ _ _ Ec) as (Ca & Cc & Cch & Cg & Cu).
      split; [|split; [|split]].
      * destruct r as [ra rc rch rg ru], c as [ca cc cch cg cu].
        cbn [HierarchicalDeterministic.account HierarchicalDeterministic.chain_number
             HierarchicalDeterministic.child] in Ra, Rc, Rch, Ca, Cc, Cch.
        subst. reflexivity.
      * rewrite En. reflexivity.
      * intros r' [= <-] Hd. rewrite Hd in Rg, Ru. cbn in Rg, Ru.
        injection Rg as <-. injection Ru as <-. split; reflexivity.
      * intros c' [= <-] Hd. rewrite Hd in Cg, Cu. cbn in Cg, Cu.
        injection Cg as <-. injection Cu as <-. split; reflexivity.
  - intros e. unfold new_account. cbn zeta.
    destruct (String.eqb_spec (or_default (g_name d) "deterministic-chain") "single-address")
      as [E|En]; [discriminate|].
    destruct (String.eqb_spec (or_default (g_name d) "deterministic-chain")
                "deterministic-chain") as [E|Ed].
    + intros H. right. split; [|exact E]. unfold hd_from_dict in H.
      assert (Hnew : forall chain kwargs e', hd_new key chain kwargs = Raise e' ->
                                             e' = TypeError).
      { intros chain kwargs e'. unfold hd_new. destruct (forallb _ _); [|now intros [= <-]].
        destruct (dict_get "gap" kwargs); [|now intros [= <-]].
        destruct (dict_get "maximum_uses_per_address" kwargs);
          [discriminate|now intros [= <-]]. }
      destruct (hd_new key 0 _) as [r|e0] eqn:Er.
      * destruct (hd_new key 1 _) as [c|e1] eqn:Ec; [discriminate|].
        injection H as <-. now apply Hnew in Ec.
      * injection H as <-. now apply Hnew in Er.
    + intros [= <-]. left. now repeat split.
Qed.

Lemma address_generator_round_trip_witness :
  new_account "ledger" demo_key
    (address_generator_to_dict
       {| ledger := "ledger";
          receiving := AddressManager.Deterministic demo_receiving;
          change := AddressManager.Deterministic
                      {| HierarchicalDeterministic.account := "master";
                         HierarchicalDeterministic.chain_number := 1;
                         HierarchicalDeterministic.child := ak_child demo_key 1;
                         HierarchicalDeterministic.gap := 6;
                         HierarchicalDeterministic.maximum_uses_per_address := 2 |} |})
  = Ok {| ledger := "ledger";
          receiving := AddressManager.Deterministic demo_receiving;
          change := AddressManager.Deterministic
                      {| HierarchicalDeterministic.account := "master";
                         HierarchicalDeterministic.chain_number := 1;
                         HierarchicalDeterministic.child := ak_child demo_key 1;
                         HierarchicalDeterministic.gap := 6;
                         HierarchicalDeterministic.maximum_uses_per_address := 2 |} |}.
Proof.
  destruct (address_generator_round_trip "ledger" demo_key
              {| g_name := None; g_receiving := None; g_change := None |}) as [H _].
  apply H. reflexivity.
Defined.

(** ** Filling the gaps of an account *)

Lemma hd_settled_inv (h : HierarchicalDeterministic.t) (db db' : DB) :
  HierarchicalDeterministic.ensure_address_gap h db = (Ok [], db') ->
  HierarchicalDeterministic.existing_gap
    (sql_limit (Some (HierarchicalDeterministic.gap h))
       (sort_by (row_le PositionDesc) (chain_rows h db)))
  = HierarchicalDeterministic.gap h.
Proof.
  rewrite hd_ensure_address_gap_spec. cbn zeta.
  match goal with |- context [?x =? ?y] => destruct (Z.eqb_spec x y) as [E|E] end;
    [intros _; exact E|].
  unfold HierarchicalDeterministic.generate_keys, bind, add_keys.
  destruct (HierarchicalDeterministic.new_keys _ _ _) as [|k ks]; [discriminate|].
  destruct (insert_keys _ _ _ _); discriminate.
Qed.

Lemma hd_full_returns (h : HierarchicalDeterministic.t) (db : DB) :
  HierarchicalDeterministic.existing_gap
    (sql_limit (Some (HierarchicalDeterministic.gap h))
       (sort_by (row_le PositionDesc) (chain_rows h db)))
  = HierarchicalDeterministic.gap h ->
  HierarchicalDeterministic.ensure_address_gap h db = (Ok [], db).
Proof.
  intros E. rewrite hd_ensure_address_gap_spec. cbn zeta.
  now rewrite E, Z.eqb_refl.
Qed.

(** After a gap fill that returned there is nothing left to fill, whatever
    the gap is: a gap of 0 never asks for a key, a negative one never
    returns. *)
Lemma hd_settles (h : HierarchicalDeterministic.t) (db db1 : DB) (a : list string) :
  HierarchicalDeterministic.ensure_address_gap h db = (Ok a, db1) ->
  HierarchicalDeterministic.ensure_address_gap h db1 = (Ok [], db1).
Proof.
  intros H. destruct (Z_lt_le_dec (HierarchicalDeterministic.gap h) 1) as [Hlt|Hge].
  - destruct (Z.eq_dec (HierarchicalDeterministic.gap h) 0) as [E0|Hne].
    + apply hd_full_returns. rewrite E0. reflexivity.
    + exfalso. revert H. rewrite hd_ensure_address_gap_spec. cbn zeta.
      pose proof (existing_gap_bounds
                    (sql_limit (Some (HierarchicalDeterministic.gap h))
                       (sort_by (row_le PositionDesc) (chain_rows h db)))) as [Hb _].
      match goal with |- context [?x =? ?y] => destruct (Z.eqb_spec x y) as [E|E] end;
        [lia|].
      unfold HierarchicalDeterministic.generate_keys, bind, add_keys.
      destruct (HierarchicalDeterministic.new_keys _ _ _) as [|k ks] eqn:En;
        [discriminate|].
      apply (f_equal (@List.length _)) in En. rewrite new_keys_length in En.
      cbn [List.length] in En. lia.
  - now destruct (hd_fill_spec h db db1 a Hge H) as (_ & _ & _ & _ & K).
Qed.

Lemma single_rows_app (s : SingleKey.t) (db : DB) (new : list pubkey_address_row) :
  single_rows s (with_pubkey_address (pubkey_address db ++ new) db)
  = single_rows s db ++
    filter (fun r => String.eqb (pa_account r) (SingleKey.account s) &&
                     (pa_chain r =? SingleKey.chain_number s)) new.
Proof. unfold single_rows. cbn [with_pubkey_address pubkey_address]. apply filter_app. Qed.

Lemma ensure_address_gap_settles (m : AddressManager.t) (db db1 : DB) (a : list string) :
  AddressManager.ensure_address_gap m db = (Ok a, db1) ->
  AddressManager.ensure_address_gap m db1 = (Ok [], db1).
Proof.
  destruct m as [h|s]; cbn [AddressManager.ensure_address_gap]; [apply hd_settles|].
  rewrite !single_ensure_address_gap_spec. destruct (single_rows s db) eqn:Es.
  - destruct (has_address _ _); [discriminate|]. intros [= <- <-].
    rewrite single_rows_app, Es.
    cbn [app filter single_row key_row pa_account pa_chain].
    unfold SingleKey.account, SingleKey.chain_number.
    rewrite String.eqb_refl. reflexivity.
  - intros [= <- <-]. now rewrite Es.
Qed.

Lemma filter_other_chain (acct : string) (ch : Z) (acct' : string) (ch' : Z)
    (keys : list (Z * PubKey)) :
  acct <> acct' \/ ch <> ch' ->
  filter (fun r => String.eqb (pa_account r) acct && (pa_chain r =? ch))
    (map (key_row acct' ch') keys) = [].
Proof.
  intros H. induction keys as [|k keys IH]; [reflexivity|].
  cbn [map filter key_row pa_account pa_chain].
  destruct (String.eqb_spec acct' acct) as [Ea|Ea];
    destruct (Z.eqb_spec ch' ch) as [Ec|Ec]; cbn [andb]; try exact IH.
  exfalso. destruct H; congruence.
Qed.

(** A manager with nothing to fill stays so when a manager of another chain
    fills its gap. *)
Lemma settled_kept (m m' : AddressManager.t) (db db1 : DB) (a : list string) :
  account_of m <> account_of m' \/ chain_of m <> chain_of m' ->
  AddressManager.ensure_address_gap m db = (Ok [], db) ->
  AddressManager.ensure_address_gap m' db = (Ok a, db1) ->
  AddressManager.ensure_address_gap m db1 = (Ok [], db1).
Proof.
  intros Hdiff Hm Hm'. apply ensure_address_gap_appends in Hm'.
  destruct Hm' as (keys & -> & _).
  destruct m as [h|s]; cbn [AddressManager.ensure_address_gap account_of chain_of] in *.
  - apply hd_settled_inv in Hm. apply hd_full_returns.
    replace (chain_rows h
               (with_pubkey_address
                  (pubkey_address db ++ map (key_row (account_of m') (chain_of m')) keys)
                  db))
      with (chain_rows h db); [exact Hm|].
    unfold chain_rows. cbn [with_pubkey_address pubkey_address].
    now rewrite filter_app, filter_other_chain, app_nil_r.
  - revert Hm. rewrite !single_ensure_address_gap_spec, single_rows_app.
    destruct (single_rows s db) as [|r rows].
    + destruct (has_address _ _); discriminate.
    + reflexivity.
Qed.

Lemma loop_settled (managers : list AddressManager.t) (acc : list string) (db : DB) :
  Forall (fun m => AddressManager.ensure_address_gap m db = (Ok [], db)) managers ->
  ensure_address_gap_loop managers acc db = (Ok acc, db).
Proof.
  induction 1 as [|m ms Hm _ IH]; cbn [ensure_address_gap_loop]; [reflexivity|].
  erewrite bind_ok by exact Hm. now rewrite app_nil_r.
Qed.

Lemma loop_keeps_settled (m : AddressManager.t) (managers : list AddressManager.t) :
  Forall (fun m' => account_of m <> account_of m' \/ chain_of m <> chain_of m')
    managers ->
  forall acc db db1 addresses,
    AddressManager.ensure_address_gap m db = (Ok [], db) ->
    ensure_address_gap_loop managers acc db = (Ok addresses, db1) ->
    AddressManager.ensure_address_gap m db1 = (Ok [], db1).
Proof.
  induction 1 as [|m' ms Hd _ IH]; intros acc db db1 addresses Hs H;
    cbn [ensure_address_gap_loop] in H.
  - unfold ret in H. injection H as _ <-. exact Hs.
  - apply bind_ok_inv in H. destruct H as (a & d & E & H).
    eapply IH; [|exact H]. eapply settled_kept; [exact Hd|exact Hs|exact E].
Qed.

Lemma loop_settles (managers : list AddressManager.t) :
  ForallOrdPairs
    (fun m m' => account_of m <> account_of m' \/ chain_of m <> chain_of m') managers ->
  forall acc db db1 addresses,
    ensure_address_gap_loop managers acc db = (Ok addresses, db1) ->
    Forall (fun m => AddressManager.ensure_address_gap m db1 = (Ok [], db1)) managers.
Proof.
  induction 1 as [|m ms Hm _ IH]; intros acc db db1 addresses H; [constructor|].
  cbn [ensure_address_gap_loop] in H.
  apply bind_ok_inv in H. destruct H as (a & d & E & H). constructor.
  - eapply loop_keeps_settled; [exact Hm| |exact H].
    eapply ensure_address_gap_settles. exact E.
  - eapply IH. exact H.
Qed.

Lemma fill_listing (m : AddressManager.t) (db db1 : DB) (addresses : list string) :
  AddressManager.ensure_address_gap m db = (Ok addresses, db1) ->
  map pa_address
    (filter (fun r => String.eqb (pa_account r) (account_of m)) (pubkey_address db1))
  = map pa_address
      (filter (fun r => String.eqb (pa_account r) (account_of m)) (pubkey_address db))
    ++ addresses.
Proof.
  intros H. apply ensure_address_gap_appends in H.
  destruct H as (keys & -> & ->). cbn [with_pubkey_address pubkey_address].
  rewrite filter_app, map_app. f_equal.
  induction keys as [|key keys IH]; [reflexivity|].
  cbn [map filter key_row pa_account]. rewrite String.eqb_refl.
  cbn [map pa_address]. now rewrite IH.
Qed.

Lemma loop_listing (acct : string) (managers : list AddressManager.t) :
  Forall (fun m => account_of m = acct) managers ->
  forall acc db db1 addresses,
    ensure_address_gap_loop managers acc db = (Ok addresses, db1) ->
    exists new,
      addresses = acc ++ new /\
      map pa_address
        (filter (fun r => String.eqb (pa_account r) acct) (pubkey_address db1))
      = map pa_address
          (filter (fun r => String.eqb (pa_account r) acct) (pubkey_address db))
        ++ new.
Proof.
  induction 1 as [|m ms Hm _ IH]; intros acc db db1 addresses H;
    cbn [ensure_address_gap_loop] in H.
  - unfold ret in H. injection H as <- <-. exists []. now rewrite !app_nil_r.
  - apply bind_ok_inv in H. destruct H as (a & d & E & H).
    apply IH in H. destruct H as (new & -> & Hl).
    apply fill_listing in E. rewrite Hm in E.
    exists (a ++ new). split; [now rewrite app_assoc|].
    now rewrite Hl, E, app_assoc.
Qed.

(** The managers [__init__] puts into [address_managers]: they belong to the
    account, no two of them to the same chain, and every iteration visits
    the same ones. *)
Lemma account_managers (ledger_id : string) (key : AccountKey) (d : generator_dict)
    (self : Account) (managers : list AddressManager.t) :
  new_account ledger_id key d = Ok self ->
  iteration self managers ->
  ForallOrdPairs
    (fun m m' => account_of m <> account_of m' \/ chain_of m <> chain_of m') managers /\
  Forall (fun m => account_of m = address (ak_public_key key)) managers /\
  forall managers', iteration self managers' ->
                    forall m, In m managers' -> In m managers.
Proof.
  intros H Hi. apply new_account_shape in H. unfold iteration in *.
  destruct H as [(_ & s & Er & Ec & Es)|(_ & r & c & Er & Ec & Hr & Hc)];
    rewrite Er, Ec in *.
  - subst managers. split; [repeat constructor|]. split.
    + repeat constructor. cbn [account_of]. unfold SingleKey.account. now rewrite Es.
    + now intros managers' ->.
  - apply hd_new_ok in Hr, Hc.
    destruct Hr as (Ra & Rc & _), Hc as (Ca & Cc & _).
    assert (Hdiff : forall x y : AddressManager.t,
              chain_of x <> chain_of y ->
              ForallOrdPairs
                (fun m m' => account_of m <> account_of m' \/ chain_of m <> chain_of m')
                [x; y]).
    { intros x y Hxy. apply FOP_cons; [constructor; [now right|constructor]|].
      apply FOP_cons; [constructor|apply FOP_nil]. }
    destruct Hi as [-> | ->].
    + split; [apply Hdiff; cbn [chain_of]; lia|]. split.
      * repeat constructor; assumption.
      * intros managers' [-> | ->] m Hm; cbn [In] in *; tauto.
    + split; [apply Hdiff; cbn [chain_of]; lia|]. split.
      * repeat constructor; assumption.
      * intros managers' [-> | ->] m Hm; cbn [In] in *; tauto.
Qed.

(** X14: the gap fill of an account.  For an account built by [__init__],
    in whatever order the set [address_managers] is iterated: when
    [BaseAccount.ensure_address_gap] returns, [get_addresses] of the account
    lists what it listed before followed by the returned addresses, and a
    second [ensure_address_gap], iterated in any order, returns [[]] and
    changes nothing. *)
Theorem account_ensure_address_gap_settles :
  forall (ledger_id : string) (key : AccountKey) (d : generator_dict) (self : Account)
         (managers managers' : list AddressManager.t) (db db1 : DB)
         (addresses : list string),
    new_account ledger_id key d = Ok self ->
    iteration self managers ->
    iteration self managers' ->
    account_ensure_address_gap managers db = (Ok addresses, db1) ->
    (exists before,
       account_get_addresses (address (ak_public_key key)) None None db
       = (Ok before, db) /\
       account_get_addresses (address (ak_public_key key)) None None db1
       = (Ok (before ++ addresses), db1)) /\
    account_ensure_address_gap managers' db1 = (Ok [], db1).
Proof.
  intros ledger_id key d self managers managers' db db1 addresses Hnew Hi Hi' H.
  destruct (account_managers _ _ _ _ _ Hnew Hi) as (Hpairs & Hacct & Hsame).
  unfold account_ensure_address_gap in *. split.
  - destruct (loop_listing _ _ Hacct _ _ _ _ H) as (new & -> & Hl).
    eexists. rewrite !account_get_addresses_spec. split; [reflexivity|].
    cbn [app]. now rewrite Hl.
  - apply loop_settled. apply Forall_forall. intros m Hm.
    pose proof (loop_settles _ Hpairs _ _ _ _ H) as Hall.
    rewrite Forall_forall in Hall. apply Hall. now apply (Hsame managers').
Qed.

Lemma account_ensure_address_gap_settles_witness :
  account_ensure_address_gap
    [AddressManager.Deterministic demo_receiving;
     AddressManager.Deterministic
       {| HierarchicalDeterministic.account := "master";
          HierarchicalDeterministic.chain_number := 1;
          HierarchicalDeterministic.child := ak_child demo_key 1;
          HierarchicalDeterministic.gap := 6;
          HierarchicalDeterministic.maximum_uses_per_address := 2 |}]
    (snd (account_ensure_address_gap
            [AddressManager.Deterministic
               {| HierarchicalDeterministic.account := "master";
                  HierarchicalDeterministic.chain_number := 1;
                  HierarchicalDeterministic.child := ak_child demo_key 1;
                  HierarchicalDeterministic.gap := 6;
                  HierarchicalDeterministic.maximum_uses_per_address := 2 |};
             AddressManager.Deterministic demo_receiving] empty_db))
  = (Ok [],
     snd (account_ensure_address_gap
            [AddressManager.Deterministic
               {| HierarchicalDeterministic.account := "master";
                  HierarchicalDeterministic.chain_number := 1;
                  HierarchicalDeterministic.child := ak_child demo_key 1;
                  HierarchicalDeterministic.gap := 6;
                  HierarchicalDeterministic.maximum_uses_per_address := 2 |};
             AddressManager.Deterministic demo_receiving] empty_db)).
Proof.
  eapply (account_ensure_address_gap_settles "ledger" demo_key
            {| g_name := None; g_receiving := None; g_change := None |}
            _ _ _ empty_db _
            (map (fun key => address (snd key))
               (HierarchicalDeterministic.new_keys
                  {| HierarchicalDeterministic.account := "master";
                     HierarchicalDeterministic.chain_number := 1;
                     HierarchicalDeterministic.child := ak_child demo_key 1;
                     HierarchicalDeterministic.gap := 6;
                     HierarchicalDeterministic.maximum_uses_per_address := 2 |} 0 5 ++
                HierarchicalDeterministic.new_keys demo_receiving 0 19))).
  - reflexivity.
  - right. reflexivity.
  - left. reflexivity.
  - vm_compute. reflexivity.
Defined.


(** ** The suffixes of the constraint keys *)

Lemma string_length_app (p s : string) :
  String.length (p ++ s)%string = (String.length p + String.length s)%nat.
Proof. induction p as [|c p IH]; cbn; [reflexivity|now rewrite IH]. Qed.

Lemma substring_all (s : string) : substring 0 (String.length s) s = s.
Proof. induction s as [|c s IH]; cbn; [reflexivity|now rewrite IH]. Qed.

Lemma substring_zero_app (p s : string) :
  substring 0 (String.length p) (p ++ s)%string = p.
Proof.
  induction p as [|c p IH]; cbn.
  - now destruct s.
  - now rewrite IH.
Qed.

Lemma substring_skip_app (p s : string) (m : nat) :
  substring (String.length p) m (p ++ s)%string = substring 0 m s.
Proof. induction p as [|c p IH]; cbn; [reflexivity|exact IH]. Qed.

Lemma substring_split (n : nat) (s : string) :
  (n <= String.length s)%nat ->
  s = (substring 0 n s ++ substring n (String.length s - n) s)%string.
Proof.
  revert s. induction n as [|n IH]; intros s H.
  - rewrite Nat.sub_0_r, substring_all. now destruct s.
  - destruct s as [|c s]; cbn in H; [lia|].
    cbn [String.length Nat.sub substring append]. f_equal.
    apply IH. lia.
Qed.

Lemma endswith_app (p suffix : string) : endswith (p ++ suffix) suffix = true.
Proof.
  unfold endswith. rewrite string_length_app.
  replace (String.length p + String.length suffix - String.length suffix)%nat
    with (String.length p) by lia.
  rewrite substring_skip_app, substring_all, String.eqb_refl.
  apply andb_true_iff. split; [|reflexivity]. apply Nat.leb_le. lia.
Qed.

Lemma strip_app (p suffix : string) : strip (p ++ suffix) suffix = p.
Proof.
  unfold strip. rewrite string_length_app.
  replace (String.length p + String.length suffix - String.length suffix)%nat
    with (String.length p) by lia.
  apply substring_zero_app.
Qed.

Lemma endswith_inv (s suffix : string) :
  endswith s suffix = true -> s = (strip s suffix ++ suffix)%string.
Proof.
  unfold endswith, strip. intros H. apply andb_true_iff in H. destruct H as [Hl He].
  apply Nat.leb_le in Hl. apply String.eqb_eq in He.
  assert (K := substring_split (String.length s - String.length suffix) s).
  replace (String.length s - (String.length s - String.length suffix))%nat
    with (String.length suffix) in K by lia.
  rewrite He in K. apply K. lia.
Qed.

Lemma app_suffix_cmp (p q a b : string) :
  (p ++ a)%string = (q ++ b)%string ->
  (exists r, a = (r ++ b)%string) \/ (exists r, b = (r ++ a)%string).
Proof.
  revert q. induction p as [|c p IH]; intros q H.
  - left. exists q. exact H.
  - destruct q as [|c' q].
    + right. exists (String c p). exact (eq_sym H).
    + cbn in H. injection H as _ H. now apply IH in H.
Qed.

(** Two suffixes of one string: one of them ends in the other. *)
Lemma endswith_other (s a b : string) :
  endswith s a = true ->
  endswith a b = false -> endswith b a = false ->
  endswith s b = false.
Proof.
  intros Ha Hab Hba. destruct (endswith s b) eqn:Hb; [|reflexivity].
  apply endswith_inv in Ha, Hb. rewrite Ha in Hb at 1.
  apply app_suffix_cmp in Hb. destruct Hb as [[r ->]|[r ->]].
  - now rewrite endswith_app in Hab.
  - now rewrite endswith_app in Hba.
Qed.

Ltac other_suffix H :=
  repeat match goal with
         | |- context [endswith ?key ?b] =>
             rewrite (endswith_other key _ b H eq_refl eq_refl)
         end.

(** X16: the suffix table of the constraint keys.  For every column name,
    the key made of the column and one of the five operator suffixes
    compiles to the column, the operator of the suffix and the whole key,
    behind the key prefix, as the parameter name; a key ending in [__any]
    takes the group path; and these are the only ways a key gets an
    operator other than [=]: a key compiled with [=] is its own column and
    ends in none of the six suffixes. *)
Theorem suffix_table :
  (forall col prepend_key : string,
     key_fragment prepend_key (col ++ "__not")
     = (col ++ " != :" ++ prepend_key ++ col ++ "__not")%string /\
     key_fragment prepend_key (col ++ "__lt")
     = (col ++ " < :" ++ prepend_key ++ col ++ "__lt")%string /\
     key_fragment prepend_key (col ++ "__lte")
     = (col ++ " <= :" ++ prepend_key ++ col ++ "__lte")%string /\
     key_fragment prepend_key (col ++ "__gt")
     = (col ++ " > :" ++ prepend_key ++ col ++ "__gt")%string /\
     key_fragment prepend_key (col ++ "__like")
     = (col ++ " LIKE :" ++ prepend_key ++ col ++ "__like")%string /\
     column_operator (col ++ "__any") = None) /\
  (forall key col op : string,
     column_operator key = Some (col, op) ->
     (op = "!=" /\ key = (col ++ "__not")%string) \/
     (op = "<" /\ key = (col ++ "__lt")%string) \/
     (op = "<=" /\ key = (col ++ "__lte")%string) \/
     (op = ">" /\ key = (col ++ "__gt")%string) \/
     (op = "LIKE" /\ key = (col ++ "__like")%string) \/
     (op = "=" /\ key = col /\ recognized_suffix key = false)).
Proof.
  split.
  - intros col prepend_key. unfold key_fragment, column_operator, fragment.
    repeat split.
    + now rewrite endswith_app, strip_app.
    + pose proof (endswith_app col "__lt") as H. other_suffix H.
      now rewrite H, strip_app.
    + pose proof (endswith_app col "__lte") as H. other_suffix H.
      now rewrite H, strip_app.
    + pose proof (endswith_app col "__gt") as H. other_suffix H.
      now rewrite H, strip_app.
    + pose proof (endswith_app col "__like") as H. other_suffix H.
      now rewrite H, strip_app.
    + pose proof (endswith_app col "__any") as H. other_suffix H.
      now rewrite H.
  - intros key col op. unfold column_operator, recognized_suffix.
    destruct (endswith key "__not") eqn:E1.
    { intros [= <- <-]. left. split; [reflexivity|now apply endswith_inv]. }
    destruct (endswith key "__lt") eqn:E2.
    { intros [= <- <-]. right. left. split; [reflexivity|now apply endswith_inv]. }
    destruct (endswith key "__lte") eqn:E3.
    { intros [= <- <-]. do 2 right. left. split; [reflexivity|now apply endswith_inv]. }
    destruct (endswith key "__gt") eqn:E4.
    { intros [= <- <-]. do 3 right. left. split; [reflexivity|now apply endswith_inv]. }
    destruct (endswith key "__like") eqn:E5.
    { intros [= <- <-]. do 4 right. left. split; [reflexivity|now apply endswith_inv]. }
    destruct (endswith key "__any") eqn:E6; [discriminate|].
    intros [= <- <-]. do 5 right. repeat split.
Qed.

Lemma suffix_table_witness :
  "height__lte" = ("height" ++ "__lte")%string /\
  key_fragment "" "height__lte" = "height <= :height__lte".
Proof.
  destruct suffix_table as [H1 H2]. split.
  - destruct (H2 "height__lte" "height" "<=" eq_refl)
      as [[E _]|[[E _]|[[_ E]|[[E _]|[[E _]|[E _]]]]]];
      try discriminate E. exact E.
  - destruct (H1 "height" "") as (_ & _ & H & _). exact H.
Defined.


(** ** A group of alternatives *)

Lemma string_app_assoc (a b c : string) :
  ((a ++ b) ++ c)%string = (a ++ b ++ c)%string.
Proof. induction a as [|x a IH]; cbn; [reflexivity|now rewrite IH]. Qed.

Lemma string_app_inv_head (a b c : string) :
  (a ++ b)%string = (a ++ c)%string -> b = c.
Proof. induction a as [|x a IH]; cbn; [auto|]. intros [= H]. now apply IH. Qed.

Lemma loop_plain_keys
    (rec : dict -> string -> string -> string -> option (result (string * dict)))
    (prepend_key : string) (keys rest extras : list string) (constraints : dict) :
  Forall (fun key => endswith key "__any" = false) keys ->
  loop rec prepend_key (keys ++ rest) extras constraints
  = loop rec prepend_key rest (extras ++ map (key_fragment prepend_key) keys) constraints.
Proof.
  intros H. revert extras. induction H as [|key keys Hkey _ IH]; intros extras.
  - cbn [app map]. now rewrite app_nil_r.
  - cbn [app loop map]. unfold key_fragment at 1.
    destruct (column_operator key) as [[col op]|] eqn:E.
    + rewrite IH, <- app_assoc. reflexivity.
    + apply column_operator_any in E. congruence.
Qed.

Lemma dict_pop_app (key : string) (v : value) (before after : dict) :
  Forall (fun kv => fst kv <> key) before ->
  dict_pop key (before ++ (key, v) :: after) = Some (v, before ++ after).
Proof.
  induction 1 as [|[k w] before Hk _ IH]; cbn [app dict_pop].
  - now rewrite String.eqb_refl.
  - cbn [fst] in Hk. apply String.eqb_neq in Hk. now rewrite Hk, IH.
Qed.

Lemma dict_set_In_same (key : string) (v : value) (d : dict) :
  In (key, v) (dict_set key v d).
Proof.
  induction d as [|[k w] d IH]; cbn [dict_set]; [now left|].
  destruct (String.eqb_spec k key) as [->|_]; [now left|now right].
Qed.

Lemma dict_set_In_other (key key' : string) (v v' : value) (d : dict) :
  key' <> key -> In (key, v) d -> In (key, v) (dict_set key' v' d).
Proof.
  intros Hne. induction d as [|[k w] d IH]; cbn [dict_set]; [contradiction|].
  intros [H|H].
  - injection H as -> ->. destruct (String.eqb_spec key key'); [congruence|now left].
  - destruct (String.eqb k key'); right; [exact H|now apply IH].
Qed.

Lemma promote_keeps (f : string -> string) (key : string) (v : value) (sub c : dict) :
  (forall kv, In kv sub -> f (fst kv) <> key) ->
  In (key, v) c ->
  In (key, v) (fold_left (fun c kv => dict_set (f (fst kv)) (snd kv) c) sub c).
Proof.
  revert c. induction sub as [|kv sub IH]; intros c Hne Hin; cbn [fold_left]; [exact Hin|].
  apply IH; [intros kv' Hkv'; apply Hne; now right|].
  apply dict_set_In_other; [apply Hne; now left|exact Hin].
Qed.

Lemma promote_In (f : string -> string) (k : string) (v : value) (sub c : dict) :
  (forall a b, f a = f b -> a = b) ->
  NoDup (map fst sub) -> In (k, v) sub ->
  In (f k, v) (fold_left (fun c kv => dict_set (f (fst kv)) (snd kv) c) sub c).
Proof.
  intros Hf. revert c.
  induction sub as [|[k0 v0] sub IH]; intros c Hnd Hin; [contradiction|].
  cbn [map fst] in Hnd. inversion Hnd as [|? ? Hnotin Hnd']; subst.
  cbn [fold_left fst snd]. destruct Hin as [[= -> ->]|Hin].
  - apply promote_keeps; [|apply dict_set_In_same].
    intros kv Hkv E. apply Hf in E. apply Hnotin.
    rewrite <- E. now apply in_map.
  - now apply IH.
Qed.

Lemma dict_depth_group (key : string) (sub before after : dict) :
  exists n, dict_depth (before ++ (key, VDict sub) :: after) = S n.
Proof.
  induction before as [|[k w] before [n IH]]; cbn [app dict_depth].
  - rewrite depth_VDict. destruct (dict_depth after); eexists; cbn; reflexivity.
  - rewrite IH. destruct (depth w); eexists; cbn; reflexivity.
Qed.

(** X17: a flat group of alternatives.  In a dict whose other keys are
    plain, a key that takes the group path with a dict of plain keys
    compiles to the fragments of the keys before it, the fragments of its
    own keys joined by OR in parentheses, and the fragments of the keys
    after it, all joined by AND; the key is removed from the dict and every
    key of the group is added under the name key_subkey, which is the
    parameter name its fragment uses.  (A group that is empty compiles to
    "()".) *)
Theorem any_group_parameters :
  forall (key : string) (before after sub : dict),
    column_operator key = None ->
    Forall (fun kv => endswith (fst kv) "__any" = false) before ->
    Forall (fun kv => endswith (fst kv) "__any" = false) after ->
    Forall (fun kv => endswith (fst kv) "__any" = false) sub ->
    constraints_to_sql (before ++ (key, VDict sub) :: after)
    = Some (Ok ((" AND " ++
                 String.concat " AND "
                   (map (fun kv => key_fragment "" (fst kv)) before ++
                    [("(" ++ String.concat " OR "
                              (map (fun kv => key_fragment (key ++ "_") (fst kv)) sub) ++
                      ")")%string] ++
                    map (fun kv => key_fragment "" (fst kv)) after))%string,
                fold_left (fun c kv => dict_set (key ++ "_" ++ fst kv)%string (snd kv) c)
                  sub (before ++ after))) /\
    (NoDup (map fst sub) ->
     forall k v, In (k, v) sub ->
       exists col op,
         key_fragment (key ++ "_") k
         = (col ++ " " ++ op ++ " :" ++ key ++ "_" ++ k)%string /\
         In ((key ++ "_" ++ k)%string, v)
           (fold_left (fun c kv => dict_set (key ++ "_" ++ fst kv)%string (snd kv) c)
              sub (before ++ after))).
Proof.
  intros key before after sub Hkey Hbefore Hafter Hsub. split.
  - unfold constraints_to_sql.
    destruct (dict_depth_group key sub before after) as [n ->].
    rewrite constraints_to_sql_fuel_S.
    destruct (before ++ (key, VDict sub) :: after) as [|kv0 c0] eqn:Ec;
      [now destruct before|]. rewrite <- Ec. clear Ec kv0 c0.
    rewrite map_app. cbn [map fst].
    rewrite loop_plain_keys
      by (apply Forall_forall; intros k Hk; apply in_map_iff in Hk;
          destruct Hk as (kv & <- & Hkv); rewrite Forall_forall in Hbefore;
          now apply Hbefore).
    cbn [loop app]. rewrite Hkey.
    rewrite dict_pop_app.
    2:{ apply Forall_forall. intros kv Hkv E.
        rewrite Forall_forall in Hbefore. specialize (Hbefore kv Hkv).
        apply column_operator_any in Hkey. congruence. }
    rewrite constraints_to_sql_fuel_S.
    assert (Hrec : match sub with
                   | [] => Some (Ok (""%string, sub))
                   | _ :: _ =>
                       match loop (constraints_to_sql_fuel n) (key ++ "_")
                               (map fst sub) [] sub with
                       | None => None
                       | Some (Raise e) => Some (Raise e)
                       | Some (Ok (extras, c')) =>
                           Some (Ok (match extras with
                                     | [] => ""%string
                                     | _ => ("" ++ String.concat " OR " extras)%string
                                     end, c'))
                       end
                   end
                   = Some (Ok (String.concat " OR "
                                 (map (fun kv => key_fragment (key ++ "_") (fst kv)) sub),
                               sub))).
    { destruct sub as [|kv sub']; [reflexivity|].
      rewrite loop_without_any.
      - cbn [app]. rewrite map_map.
        destruct (map _ (kv :: sub')) eqn:E; [discriminate|reflexivity].
      - apply Forall_forall. intros k Hk. apply in_map_iff in Hk.
        destruct Hk as (kv' & <- & Hkv'). rewrite Forall_forall in Hsub.
        now apply Hsub. }
    rewrite Hrec. clear Hrec.
    rewrite loop_without_any
      by (apply Forall_forall; intros k Hk; apply in_map_iff in Hk;
          destruct Hk as (kv & <- & Hkv); rewrite Forall_forall in Hafter;
          now apply Hafter).
    rewrite !map_map, <- !app_assoc. cbn [app].
    destruct (map (fun kv => key_fragment "" (fst kv)) before ++ _) eqn:E;
      [now destruct (map (fun kv => key_fragment "" (fst kv)) before)|].
    reflexivity.
  - intros Hnd k v Hin.
    assert (Hk : endswith k "__any" = false).
    { rewrite Forall_forall in Hsub. apply (Hsub (k, v) Hin). }
    unfold key_fragment.
    destruct (column_operator k) as [[col op]|] eqn:E;
      [|apply column_operator_any in E; congruence].
    exists col, op. split.
    + unfold fragment. now rewrite string_app_assoc.
    + apply (promote_In (fun s => (key ++ "_" ++ s)%string) k v sub (before ++ after));
        [|exact Hnd|exact Hin].
      intros a b Eab. apply string_app_inv_head in Eab.
      now apply (string_app_inv_head "_") in Eab.
Qed.

Lemma any_group_parameters_witness :
  constraints_to_sql
    [("height__lte", VInt 5);
     ("txid__any", VDict [("a", VStr "x"); ("b__like", VStr "y%")])]
  = Some (Ok (" AND height <= :height__lte AND (a = :txid__any_a OR b LIKE :txid__any_b__like)",
              [("height__lte", VInt 5);
               ("txid__any_a", VStr "x"); ("txid__any_b__like", VStr "y%")])).
Proof.
  apply (any_group_parameters "txid__any" [("height__lte", VInt 5)] []
           [("a", VStr "x"); ("b__like", VStr "y%")]).
  - reflexivity.
  - repeat constructor.
  - constructor.
  - repeat constructor.
Defined.


(** ** Encrypting and decrypting *)

(** X18: [encrypt] and [decrypt].  With a cipher whose [aes_decrypt]
    inverts [aes_encrypt] under the same secret, and a key class whose
    [from_extended_key_string] reads back what [extended_key_string]
    wrote: when [encrypt] returns, the account was not encrypted and now
    is, its private key is a ciphertext string, [decrypt] with the same
    password gives back the seed and the private key it had, a second
    [encrypt] and a [decrypt] of the first state fail their assertion
    without changing anything, and [get_private_key] fails its assertion.
    When [encrypt] raises, the flag and the private key are as before, but
    the seed is as before only if the seed itself was not yet encrypted:
    for an account that holds no key object [encrypt] raises AttributeError
    after it has replaced the seed by its ciphertext. *)
Theorem encrypt_then_decrypt :
  forall (PrivateKey : Type) (double_sha256 : string -> bytes)
         (extended_key_string : PrivateKey -> result string)
         (from_extended_key_string : string -> string -> result PrivateKey)
         (aes_encrypt : bytes -> string -> result string)
         (aes_decrypt : bytes -> attribute PrivateKey -> result string)
         (ledger_id : string),
    (forall secret s c,
       aes_encrypt secret s = Ok c -> aes_decrypt secret (Text PrivateKey c) = Ok s) ->
    (forall k s,
       extended_key_string k = Ok s -> from_extended_key_string ledger_id s = Ok k) ->
    forall (password : string) (self : secrets PrivateKey),
      (forall self1,
         encrypt double_sha256 extended_key_string aes_encrypt password self
         = (Ok tt, self1) ->
         encrypted self = false /\
         encrypted self1 = true /\
         (exists c, private_key self1 = Text PrivateKey c) /\
         decrypt double_sha256 from_extended_key_string aes_decrypt ledger_id password
           self1 = (Ok tt, self) /\
         encrypt double_sha256 extended_key_string aes_encrypt password self1
         = (Raise AssertionError, self1) /\
         decrypt double_sha256 from_extended_key_string aes_decrypt ledger_id password
           self = (Raise AssertionError, self) /\
         forall private_child account chain index,
           account_get_private_key private_child account self1 chain index
           = Raise AssertionError) /\
      (forall e self1,
         encrypt double_sha256 extended_key_string aes_encrypt password self
         = (Raise e, self1) ->
         encrypted self1 = encrypted self /\
         private_key self1 = private_key self /\
         (seed self1 = seed self \/
          aes_encrypt (double_sha256 password) (seed self) = Ok (seed self1))) /\
      (forall t c,
         encrypted self = false ->
         private_key self = Text PrivateKey t ->
         aes_encrypt (double_sha256 password) (seed self) = Ok c ->
         encrypt double_sha256 extended_key_string aes_encrypt password self
         = (Raise AttributeError,
            {| seed := c; encrypted := false; private_key := Text PrivateKey t |})).
Proof.
  intros PrivateKey double_sha256 extended_key_string from_extended_key_string
    aes_encrypt aes_decrypt ledger_id Hdec Hkey password [sd en pk].
  unfold encrypt, decrypt, account_get_private_key.
  cbn [seed encrypted private_key]. split; [|split].
  - intros self1 H. destruct en; [discriminate|].
    destruct (aes_encrypt (double_sha256 password) sd) as [c1|e1] eqn:E1; [|discriminate].
    destruct pk as [t|k]; [discriminate|].
    destruct (extended_key_string k) as [s|e2] eqn:E2; [|discriminate].
    destruct (aes_encrypt (double_sha256 password) s) as [c2|e3] eqn:E3; [|discriminate].
    injection H as <-. cbn [seed encrypted private_key negb].
    rewrite (Hdec _ _ _ E1), (Hdec _ _ _ E3), (Hkey _ _ E2).
    repeat split. now exists c2.
  - intros e self1 H. destruct en; [injection H as _ <-; cbn; auto|].
    destruct (aes_encrypt (double_sha256 password) sd) as [c1|e1] eqn:E1;
      [|injection H as _ <-; cbn; auto].
    destruct pk as [t|k]; [injection H as _ <-; cbn; auto|].
    destruct (extended_key_string k) as [s|e2]; [|injection H as _ <-; cbn; auto].
    destruct (aes_encrypt (double_sha256 password) s) as [c2|e3];
      [discriminate|injection H as _ <-; cbn; auto].
  - intros t c Hen Hpk Hc. subst en pk. now rewrite Hc.
Qed.

Lemma encrypt_then_decrypt_witness :
  decrypt (fun _ => []) (fun _ s => Ok s) demo_decrypt "ledger" "password"
    {| seed := "ewords"; encrypted := true; private_key := Text string "exprv" |}
  = (Ok tt, {| seed := "words"; encrypted := false; private_key := Key "xprv"%string |}).
Proof.
  assert (Hdec : forall (secret : bytes) (s c : string),
            demo_encrypt secret s = Ok c -> demo_decrypt secret (Text string c) = Ok s).
  { intros secret s c [= <-]. reflexivity. }
  assert (Hkey : forall k s : string,
            (fun k => Ok k) k = Ok s -> (fun (_ : string) s => Ok s) "ledger"%string s = Ok k).
  { intros k s [= <-]. reflexivity. }
  destruct (encrypt_then_decrypt string (fun _ => []) (fun k => Ok k) (fun _ s => Ok s)
              demo_encrypt demo_decrypt "ledger" Hdec Hkey "password"
              {| seed := "words"; encrypted := false; private_key := Key "xprv"%string |})
    as [H _].
  destruct (H {| seed := "ewords"; encrypted := true;
                 private_key := Text string "exprv" |} eq_refl)
    as (_ & _ & _ & Hd & _).
  exact Hd.
Defined.


(** ** A group inside a group *)

Lemma plain_group_sql (n : nat) (sub : dict) (prepend_key : string) :
  Forall (fun kv => endswith (fst kv) "__any" = false) sub ->
  constraints_to_sql_fuel (S n) sub " OR " "" prepend_key
  = Some (Ok (String.concat " OR "
                (map (fun kv => key_fragment prepend_key (fst kv)) sub), sub)).
Proof.
  intros Hsub. rewrite constraints_to_sql_fuel_S.
  destruct sub as [|kv sub']; [reflexivity|].
  rewrite loop_without_any.
  - cbn [app]. rewrite map_map.
    destruct (map _ (kv :: sub')) eqn:E; [discriminate|reflexivity].
  - apply Forall_forall. intros k Hk. apply in_map_iff in Hk.
    destruct Hk as (kv' & <- & Hkv'). rewrite Forall_forall in Hsub. now apply Hsub.
Qed.

Lemma dict_set_fresh (key : string) (v : value) (d : dict) :
  ~ In key (map fst d) -> dict_set key v d = d ++ [(key, v)].
Proof.
  induction d as [|[k w] d IH]; cbn [dict_set map fst app]; [reflexivity|].
  intros H. destruct (String.eqb_spec k key) as [E|_].
  - exfalso. apply H. now left.
  - rewrite IH; [reflexivity|]. intros Hin. apply H. now right.
Qed.

Lemma promote_fresh (f : string -> string) (sub c : dict) :
  (forall a b, f a = f b -> a = b) ->
  NoDup (map fst sub) ->
  (forall kv, In kv sub -> ~ In (f (fst kv)) (map fst c)) ->
  fold_left (fun c kv => dict_set (f (fst kv)) (snd kv) c) sub c
  = c ++ map (fun kv => (f (fst kv), snd kv)) sub.
Proof.
  intros Hf. revert c.
  induction sub as [|kv sub IH]; intros c Hnd Hnew; cbn [fold_left map].
  - now rewrite app_nil_r.
  - cbn [map] in Hnd. inversion Hnd as [|? ? Hnotin Hnd']; subst.
    rewrite dict_set_fresh by (apply Hnew; now left).
    rewrite IH; [now rewrite <- app_assoc| exact Hnd' |].
    intros kv' Hkv' Hin. rewrite map_app in Hin. apply in_app_or in Hin.
    destruct Hin as [Hin|[E|[]]].
    + apply (Hnew kv' (or_intror Hkv') Hin).
    + cbn [fst] in E. apply Hf in E. apply Hnotin. rewrite E. now apply in_map.
Qed.

Lemma prefix_injective (p : string) (a b : string) :
  (p ++ "_" ++ a)%string = (p ++ "_" ++ b)%string -> a = b.
Proof.
  intros E. apply string_app_inv_head in E. now apply (string_app_inv_head "_") in E.
Qed.

(** X19: a group inside a group.  When the dict under an [__any] key holds
    one [__any] key with a dict of plain keys, the SQL is the inner group
    in two pairs of parentheses, and its fragments name their parameters
    with the inner key alone as prefix, as for a flat group; but the values
    end up in the dict under names that carry the outer key as well, so the
    parameter a fragment names is not the key its value is stored under. *)
Theorem nested_group_parameters :
  forall (outer inner : string) (sub : dict),
    column_operator outer = None ->
    column_operator inner = None ->
    Forall (fun kv => endswith (fst kv) "__any" = false) sub ->
    NoDup (map fst sub) ->
    constraints_to_sql [(outer, VDict [(inner, VDict sub)])]
    = Some (Ok ((" AND ((" ++
                 String.concat " OR "
                   (map (fun kv => key_fragment (inner ++ "_") (fst kv)) sub) ++
                 "))")%string,
                map (fun kv => ((outer ++ "_" ++ inner ++ "_" ++ fst kv)%string, snd kv))
                  sub)) /\
    forall k v, In (k, v) sub ->
      exists col op,
        key_fragment (inner ++ "_") k
        = (col ++ " " ++ op ++ " :" ++ inner ++ "_" ++ k)%string /\
        (inner ++ "_" ++ k)%string <> (outer ++ "_" ++ inner ++ "_" ++ k)%string.
Proof.
  intros outer inner sub Houter Hinner Hsub Hnd. split.
  - unfold constraints_to_sql.
    replace (dict_depth [(outer, VDict [(inner, VDict sub)])])
      with (S (S (dict_depth sub)))
      by (cbn [dict_depth]; rewrite !depth_VDict; cbn [dict_depth];
          rewrite !depth_VDict; lia).
    rewrite constraints_to_sql_fuel_S. cbn [map fst loop]. rewrite Houter.
    cbn [dict_pop]. rewrite String.eqb_refl.
    rewrite constraints_to_sql_fuel_S. cbn [map fst loop]. rewrite Hinner.
    cbn [dict_pop]. rewrite String.eqb_refl.
    rewrite plain_group_sql by exact Hsub. cbn [app].
    rewrite (promote_fresh (fun s => (inner ++ "_" ++ s)%string) sub []);
      [|intros a b; apply prefix_injective|exact Hnd|intros kv _ []].
    cbn [app String.concat].
    rewrite (promote_fresh (fun s => (outer ++ "_" ++ s)%string) _ []).
    + cbn [app String.concat append]. rewrite map_map. cbn [fst snd].
      now rewrite !string_app_assoc.
    + intros a b. apply prefix_injective.
    + rewrite map_map. cbn [fst].
      clear -Hnd. induction sub as [|kv sub IH]; cbn [map]; [constructor|].
      cbn [map] in Hnd. inversion Hnd as [|? ? Hnotin Hnd']; subst.
      constructor; [|now apply IH].
      intros Hin. apply in_map_iff in Hin. destruct Hin as (kv' & E & Hkv').
      apply prefix_injective in E. apply Hnotin. rewrite <- E. now apply in_map.
    + intros kv _ [].
  - intros k v Hin.
    assert (Hk : endswith k "__any" = false).
    { rewrite Forall_forall in Hsub. apply (Hsub (k, v) Hin). }
    unfold key_fragment.
    destruct (column_operator k) as [[col op]|] eqn:E;
      [|apply column_operator_any in E; congruence].
    exists col, op. split.
    + unfold fragment. now rewrite string_app_assoc.
    + intros Eq. apply (f_equal String.length) in Eq.
      rewrite !string_length_app in Eq. cbn [String.length] in Eq. lia.
Qed.

Lemma nested_group_parameters_witness :
  constraints_to_sql
    [("txid__any", VDict [("height__any", VDict [("a", VInt 1); ("b__gt", VInt 2)])])]
  = Some (Ok (" AND ((a = :height__any_a OR b > :height__any_b__gt))",
              [("txid__any_height__any_a", VInt 1);
               ("txid__any_height__any_b__gt", VInt 2)])).
Proof.
  apply (nested_group_parameters "txid__any" "height__any"
           [("a", VInt 1); ("b__gt", VInt 2)]).
  - reflexivity.
  - reflexivity.
  - repeat constructor.
  - repeat constructor; cbn; intuition discriminate.
Defined.
